(** * SoundBound: a verification development for the browser MP3 player

    The development embeds the four components of the player
    (src/js/audio-player.js with the playlist manager that follows it,
    the style customizer, and src/js/auth-manager.js) as Rocq functions
    over explicit state, and settles the properties stated about them.

    JavaScript values are modelled as the program uses them:
    - a string is its sequence of UTF-16 code units ([jsstring]);
    - a number is an exact rational or one of the three non-finite
      values ([jsnum]); the rounding of IEEE doubles is not modelled;
    - an array is a heap cell holding a list, addressed by reference,
      so that two components holding the same array see each other's
      [push] and [splice];
    - an object used as a record of named fields is a [gmap] from
      property names to values.

    Of the platform, two behaviours that the program depends on are
    part of the model: the [src] property of the audio element, which
    reads back an address once the attribute has been assigned, and
    [toLowerCase], which lower-cases a capital sigma by its place in
    the word. *)

From Stdlib Require Import ZArith QArith NArith List Ascii String Bool Lia.
From Stdlib Require Import DecimalString Lqa.
From stdpp Require Import base option list gmap strings fin_maps.

Open Scope Z_scope.

(** ** JavaScript strings *)

Module JS.

Definition jsstring : Type := list N.

(** A source literal, read as its code units. *)
Definition str (s : string) : jsstring :=
  map N_of_ascii (list_ascii_of_string s).

Definition code (a : ascii) : N := N_of_ascii a.

(** A length or count as a template literal prints it. *)
Definition decimal (n : nat) : jsstring :=
  str (NilZero.string_of_uint (Nat.to_uint n)).

(** [s || fallback] on strings: the empty string is the only falsy one. *)
Definition or_else (s fallback : jsstring) : jsstring :=
  match s with
  | [] => fallback
  | _ => s
  end.

(** White space as [\s] and [String.prototype.trim] see it: the
    WhiteSpace and LineTerminator productions of ECMAScript. *)
Definition isWhiteSpace (c : N) : bool :=
  ((9 <=? c) && (c <=? 13)               (* TAB LF VT FF CR *)
   || (c =? 32)                          (* SPACE *)
   || (c =? 160)                         (* NO-BREAK SPACE *)
   || (c =? 5760)                        (* OGHAM SPACE MARK *)
   || ((8192 <=? c) && (c <=? 8202))     (* EN QUAD .. HAIR SPACE *)
   || (c =? 8232) || (c =? 8233)         (* LINE / PARAGRAPH SEPARATOR *)
   || (c =? 8239) || (c =? 8287)         (* NARROW NBSP, MEDIUM MATH SPACE *)
   || (c =? 12288)                       (* IDEOGRAPHIC SPACE *)
   || (c =? 65279))%N.                   (* ZERO WIDTH NO-BREAK SPACE *)

Fixpoint startsWith (s prefix : jsstring) : bool :=
  match prefix, s with
  | [], _ => true
  | _ :: _, [] => false
  | p :: prefix', c :: s' => (p =? c)%N && startsWith s' prefix'
  end.

(** [s.includes(needle)] *)
Fixpoint includes (s needle : jsstring) : bool :=
  startsWith s needle ||
  match s with
  | [] => false
  | _ :: s' => includes s' needle
  end.

(** The first occurrence of [sep] in [s]: the text before it and the
    text after it. *)
Fixpoint cut (sep s : jsstring) : option (jsstring * jsstring) :=
  if startsWith s sep then Some ([], drop (length sep) s)
  else match s with
       | [] => None
       | c :: s' =>
           match cut sep s' with
           | Some (before, after) => Some (c :: before, after)
           | None => None
           end
       end.

(** [s.split(sep)] for a separator that is not empty: the pieces between
    successive occurrences, found left to right.  Every occurrence
    consumes at least one code unit, so [length s] rounds are enough. *)
Fixpoint split_rounds (n : nat) (sep s : jsstring) : list jsstring :=
  match n with
  | O => [s]
  | S n' =>
      match cut sep s with
      | None => [s]
      | Some (before, after) => before :: split_rounds n' sep after
      end
  end.

Definition split (s sep : jsstring) : list jsstring :=
  split_rounds (length s) sep s.

(** [pieces.join(sep)] *)
Fixpoint join (pieces : list jsstring) (sep : jsstring) : jsstring :=
  match pieces with
  | [] => []
  | [p] => p
  | p :: rest => p ++ sep ++ join rest sep
  end.

(** [pieces.slice(1)] *)
Definition slice1 {A} (l : list A) : list A := drop 1 l.

(** [pieces[0]] of a split, which always has a first piece. *)
Definition first_piece (pieces : list jsstring) : jsstring :=
  match pieces with
  | [] => []
  | p :: _ => p
  end.

(** [s.replace(/_/g, ' ')] *)
Definition replace_underscores (s : jsstring) : jsstring :=
  map (fun c => if (c =? code "_")%N then code " " else c) s.

(** [s.replace(/\s+/g, ' ')]: every maximal run of white space becomes
    one space.  [in_run] records that the previous unit was white. *)
Fixpoint collapse_from (in_run : bool) (s : jsstring) : jsstring :=
  match s with
  | [] => []
  | c :: s' =>
      if isWhiteSpace c
      then (if in_run then collapse_from true s'
            else code " " :: collapse_from true s')
      else c :: collapse_from false s'
  end.

Definition collapse_whitespace (s : jsstring) : jsstring :=
  collapse_from false s.

Fixpoint trimStart (s : jsstring) : jsstring :=
  match s with
  | [] => []
  | c :: s' => if isWhiteSpace c then trimStart s' else s
  end.

Definition trimEnd (s : jsstring) : jsstring := rev (trimStart (rev s)).

(** [s.trim()] *)
Definition trim (s : jsstring) : jsstring := trimEnd (trimStart s).

(** *** [toLowerCase]

    The platform's lower-casing on strings made of Basic Latin and of
    the Greek letters U+0391 to U+03A9 and U+03B1 to U+03C9.  A capital
    goes to its small letter; capital sigma (U+03A3) goes to the final
    small sigma (U+03C2) where it ends a word: where a cased letter
    precedes it and none follows it, units that casing ignores being
    skipped on both sides; it goes to U+03C3 elsewhere.  Other units
    are outside this model, which leaves them as they are. *)

Definition is_cased (c : N) : bool :=
  ((65 <=? c) && (c <=? 90) || (97 <=? c) && (c <=? 122)       (* A-Z a-z *)
   || (913 <=? c) && (c <=? 929) || (931 <=? c) && (c <=? 937) (* capitals *)
   || (945 <=? c) && (c <=? 969))%N.                           (* small letters *)

(** Apostrophe, full stop, colon, circumflex and grave accent. *)
Definition is_case_ignorable (c : N) : bool :=
  ((c =? 39) || (c =? 46) || (c =? 58) || (c =? 94) || (c =? 96))%N.

(** The nearest unit of [s] that casing does not ignore is a cased letter. *)
Fixpoint cased_next (s : jsstring) : bool :=
  match s with
  | [] => false
  | c :: s' => if is_case_ignorable c then cased_next s' else is_cased c
  end.

Definition lower_unit (c : N) : N :=
  if ((65 <=? c) && (c <=? 90)
      || (913 <=? c) && (c <=? 929) || (932 <=? c) && (c <=? 937))%N
  then (c + 32)%N else c.

(** [before] holds the units already passed, nearest first. *)
Fixpoint lower_from (before rest : jsstring) : jsstring :=
  match rest with
  | [] => []
  | c :: rest' =>
      (if (c =? 931)%N
       then (if cased_next before && negb (cased_next rest') then 962%N else 963%N)
       else lower_unit c)
      :: lower_from (c :: before) rest'
  end.

Definition toLowerCase (s : jsstring) : jsstring := lower_from [] s.

(** *** Regular expressions

    The two patterns of the program use only character classes,
    concatenation and [+]; they are matched by derivatives. *)

Inductive regex : Type :=
| RNone
| REps
| RClass (p : N -> bool)
| RSeq (r1 r2 : regex)
| RAlt (r1 r2 : regex)
| RStar (r : regex).

Definition RPlus (r : regex) : regex := RSeq r (RStar r).

Definition RChar (a : ascii) : regex := RClass (fun c => (c =? code a)%N).

Fixpoint nullable (r : regex) : bool :=
  match r with
  | RNone => false
  | REps => true
  | RClass _ => false
  | RSeq r1 r2 => nullable r1 && nullable r2
  | RAlt r1 r2 => nullable r1 || nullable r2
  | RStar _ => true
  end.

Fixpoint deriv (c : N) (r : regex) : regex :=
  match r with
  | RNone => RNone
  | REps => RNone
  | RClass p => if p c then REps else RNone
  | RSeq r1 r2 =>
      if nullable r1
      then RAlt (RSeq (deriv c r1) r2) (deriv c r2)
      else RSeq (deriv c r1) r2
  | RAlt r1 r2 => RAlt (deriv c r1) (deriv c r2)
  | RStar r1 => RSeq (deriv c r1) (RStar r1)
  end.

(** The whole of [s] is a word of [r]: [/^r$/.test(s)]. *)
Fixpoint matches (r : regex) (s : jsstring) : bool :=
  match s with
  | [] => nullable r
  | c :: s' => matches (deriv c r) s'
  end.

(** [s.replace(/r$/, rep)]: the leftmost position from which the rest of
    the string is a word of [r] is where the replacement starts. *)
Fixpoint replace_at_end (r : regex) (rep s : jsstring) : jsstring :=
  if matches r s then rep
  else match s with
       | [] => []
       | c :: s' => c :: replace_at_end r rep s'
       end.

(** *** Numbers *)

Inductive jsnum : Type :=
| Fin (q : Q)
| PosInf
| NegInf
| NaN.

Definition isFinite (x : jsnum) : bool :=
  match x with
  | Fin _ => true
  | _ => false
  end.

(** [a / b] on finite operands. *)
Definition div (a b : Q) : jsnum :=
  if Qeq_bool b 0 then
    match (a ?= 0)%Q with
    | Gt => PosInf
    | Lt => NegInf
    | Eq => NaN
    end
  else Fin (a / b).

(** [x * y] *)
Definition mul (x y : jsnum) : jsnum :=
  let sign_inf (positive : bool) := if positive then PosInf else NegInf in
  let inf_times (positive : bool) (q : Q) :=
    match (q ?= 0)%Q with
    | Gt => sign_inf positive
    | Lt => sign_inf (negb positive)
    | Eq => NaN
    end in
  match x, y with
  | NaN, _ | _, NaN => NaN
  | Fin a, Fin b => Fin (a * b)
  | Fin a, PosInf => inf_times true a
  | Fin a, NegInf => inf_times false a
  | PosInf, Fin b => inf_times true b
  | NegInf, Fin b => inf_times false b
  | PosInf, PosInf | NegInf, NegInf => PosInf
  | PosInf, NegInf | NegInf, PosInf => NegInf
  end.

(** [x + y] *)
Definition add (x y : jsnum) : jsnum :=
  match x, y with
  | NaN, _ | _, NaN => NaN
  | Fin a, Fin b => Fin (a + b)
  | PosInf, NegInf | NegInf, PosInf => NaN
  | PosInf, _ | _, PosInf => PosInf
  | NegInf, _ | _, NegInf => NegInf
  end.

(** [Math.min(bound, x)] and [Math.max(bound, x)] for a finite bound. *)
Definition min_with (bound : Q) (x : jsnum) : jsnum :=
  match x with
  | Fin q => Fin (if Qle_bool q bound then q else bound)
  | PosInf => Fin bound
  | NegInf => NegInf
  | NaN => NaN
  end.

Definition max_with (bound : Q) (x : jsnum) : jsnum :=
  match x with
  | Fin q => Fin (if Qle_bool bound q then q else bound)
  | PosInf => PosInf
  | NegInf => Fin bound
  | NaN => NaN
  end.

End JS.

Import JS.

(** ** Tracks, arrays and notifications *)

(** A track as [addFilesToPlaylist] builds it.  The [file] property is
    an opaque browser object that no method reads; it is left out. *)
Record Track : Type := mkTrack {
  id : Z;
  name : jsstring;
  artist : jsstring;
  url : jsstring;
  duration : jsnum
}.

(** Arrays live on a heap and are held by reference. *)
Definition loc : Type := nat.

Abbreviation heap_t := (gmap loc (list Track)).

(** The contents of the array at [l]. *)
Definition arr (h : heap_t) (l : loc) : list Track :=
  default [] (h !! l).

(** [a[index]]: [None] stands for [undefined]. *)
Definition at_index {A} (a : list A) (index : Z) : option A :=
  if index <? 0 then None else a !! Z.to_nat index.

(** [a.splice(index, 1)]: a negative start counts from the end, and a
    start beyond the end removes nothing. *)
Definition splice1 {A} (index : Z) (a : list A) : list A :=
  let len := Z.of_nat (length a) in
  let start := if index <? 0 then Z.max (len + index) 0 else Z.min index len in
  delete (Z.to_nat start) a.

Inductive ToastType : Type := info | success | error.

Record Toast : Type := mkToast {
  message : jsstring;
  kind : ToastType
}.

(** ** AudioPlayer (src/js/audio-player.js, first class) *)

Module AudioPlayer.

(** [isDragging] is [false], ['progress'] or ['volume']. *)
Inductive DragKind : Type := drag_progress | drag_volume.

(** What [getBoundingClientRect] reports of a bar. *)
Record Rect : Type := mkRect {
  left : Q;
  width : Q
}.

Record PointerEvent : Type := mkEvent {
  clientX : Q
}.

(** The player's own fields, the properties of the audio element it
    reads and writes, and the text of the elements it fills.
    [audio_src] is the [src] attribute of the element as last assigned
    (empty while there is none) and [audio_src_present] tells whether
    the element has the attribute.  What the browser does to the
    element by itself (loading a source, clamping a seek) is not part
    of the program and is not modelled; the icons and the CSS animation
    are rendering only and carry no state here. *)
Record state : Type := mkState {
  audio_src : jsstring;
  audio_src_present : bool;
  audio_volume : jsnum;
  audio_currentTime : jsnum;
  audio_duration : jsnum;
  audio_paused : bool;
  isPlaying : bool;
  currentTrackIndex : Z;
  playlist : loc;
  volume : jsnum;
  isMuted : bool;
  isDragging : option DragKind;
  progressBar : Rect;
  volumeBar : Rect;
  volumeFill : jsnum;
  trackTitle : jsstring;
  trackArtist : jsstring
}.

(** The assignment [this.audio.src = v]: the attribute is present from
    then on, whatever [v] is. *)
Definition set_audio_src (v : jsstring) (s : state) : state :=
  mkState v true (audio_volume s) (audio_currentTime s) (audio_duration s)
    (audio_paused s) (isPlaying s) (currentTrackIndex s) (playlist s)
    (volume s) (isMuted s) (isDragging s) (progressBar s) (volumeBar s)
    (volumeFill s) (trackTitle s) (trackArtist s).

Definition set_audio_volume (v : jsnum) (s : state) : state :=
  mkState (audio_src s) (audio_src_present s) v (audio_currentTime s)
    (audio_duration s) (audio_paused s) (isPlaying s) (currentTrackIndex s)
    (playlist s) (volume s) (isMuted s) (isDragging s) (progressBar s)
    (volumeBar s) (volumeFill s) (trackTitle s) (trackArtist s).

Definition set_audio_currentTime (v : jsnum) (s : state) : state :=
  mkState (audio_src s) (audio_src_present s) (audio_volume s) v
    (audio_duration s) (audio_paused s) (isPlaying s) (currentTrackIndex s)
    (playlist s) (volume s) (isMuted s) (isDragging s) (progressBar s)
    (volumeBar s) (volumeFill s) (trackTitle s) (trackArtist s).

Definition set_audio_duration (v : jsnum) (s : state) : state :=
  mkState (audio_src s) (audio_src_present s) (audio_volume s)
    (audio_currentTime s) v (audio_paused s) (isPlaying s)
    (currentTrackIndex s) (playlist s) (volume s) (isMuted s) (isDragging s)
    (progressBar s) (volumeBar s) (volumeFill s) (trackTitle s)
    (trackArtist s).

Definition set_audio_paused (v : bool) (s : state) : state :=
  mkState (audio_src s) (audio_src_present s) (audio_volume s)
    (audio_currentTime s) (audio_duration s) v (isPlaying s)
    (currentTrackIndex s) (playlist s) (volume s) (isMuted s) (isDragging s)
    (progressBar s) (volumeBar s) (volumeFill s) (trackTitle s)
    (trackArtist s).

Definition set_isPlaying (v : bool) (s : state) : state :=
  mkState (audio_src s) (audio_src_present s) (audio_volume s)
    (audio_currentTime s) (audio_duration s) (audio_paused s) v
    (currentTrackIndex s) (playlist s) (volume s) (isMuted s) (isDragging s)
    (progressBar s) (volumeBar s) (volumeFill s) (trackTitle s)
    (trackArtist s).

Definition set_currentTrackIndex (v : Z) (s : state) : state :=
  mkState (audio_src s) (audio_src_present s) (audio_volume s)
    (audio_currentTime s) (audio_duration s) (audio_paused s) (isPlaying s)
    v (playlist s) (volume s) (isMuted s) (isDragging s) (progressBar s)
    (volumeBar s) (volumeFill s) (trackTitle s) (trackArtist s).

Definition set_playlist (v : loc) (s : state) : state :=
  mkState (audio_src s) (audio_src_present s) (audio_volume s)
    (audio_currentTime s) (audio_duration s) (audio_paused s) (isPlaying s)
    (currentTrackIndex s) v (volume s) (isMuted s) (isDragging s)
    (progressBar s) (volumeBar s) (volumeFill s) (trackTitle s)
    (trackArtist s).

Definition set_volume (v : jsnum) (s : state) : state :=
  mkState (audio_src s) (audio_src_present s) (audio_volume s)
    (audio_currentTime s) (audio_duration s) (audio_paused s) (isPlaying s)
    (currentTrackIndex s) (playlist s) v (isMuted s) (isDragging s)
    (progressBar s) (volumeBar s) (volumeFill s) (trackTitle s)
    (trackArtist s).

Definition set_isMuted (v : bool) (s : state) : state :=
  mkState (audio_src s) (audio_src_present s) (audio_volume s)
    (audio_currentTime s) (audio_duration s) (audio_paused s) (isPlaying s)
    (currentTrackIndex s) (playlist s) (volume s) v (isDragging s)
    (progressBar s) (volumeBar s) (volumeFill s) (trackTitle s)
    (trackArtist s).

Definition set_isDragging (v : option DragKind) (s : state) : state :=
  mkState (audio_src s) (audio_src_present s) (audio_volume s)
    (audio_currentTime s) (audio_duration s) (audio_paused s) (isPlaying s)
    (currentTrackIndex s) (playlist s) (volume s) (isMuted s) v
    (progressBar s) (volumeBar s) (volumeFill s) (trackTitle s)
    (trackArtist s).

Definition set_volumeFill (v : jsnum) (s : state) : state :=
  mkState (audio_src s) (audio_src_present s) (audio_volume s)
    (audio_currentTime s) (audio_duration s) (audio_paused s) (isPlaying s)
    (currentTrackIndex s) (playlist s) (volume s) (isMuted s) (isDragging s)
    (progressBar s) (volumeBar s) v (trackTitle s) (trackArtist s).

Definition set_trackInfo (title artist_text : jsstring) (s : state) : state :=
  mkState (audio_src s) (audio_src_present s) (audio_volume s)
    (audio_currentTime s) (audio_duration s) (audio_paused s) (isPlaying s)
    (currentTrackIndex s) (playlist s) (volume s) (isMuted s) (isDragging s)
    (progressBar s) (volumeBar s) (volumeFill s) title artist_text.

(** [!this.audio.src].  The [src] property does not return the
    attribute as assigned: it returns the address the attribute
    resolves to against the address of the page.  It is the empty string
    while the element has no [src] attribute; once the program has
    assigned one, the empty string included, it reads back an address
    (that of the page itself for the empty string), which is not empty.
    The program reads the property only in this test. *)
Definition src_is_empty (s : state) : bool := negb (audio_src_present s).

(** The player together with what it shares with the rest of the page:
    the heap of arrays and the notifications shown by [window.showToast]. *)
Record world : Type := mkWorld {
  heap : heap_t;
  toasts : list Toast;
  player : state
}.

Definition upd (f : state -> state) (w : world) : world :=
  mkWorld (heap w) (toasts w) (f (player w)).

Definition set_heap (h : heap_t) (w : world) : world :=
  mkWorld h (toasts w) (player w).

(** The array the player holds. *)
Definition tracks (w : world) : list Track :=
  arr (heap w) (playlist (player w)).

Definition showToast (msg : jsstring) (type : ToastType) (w : world) : world :=
  mkWorld (heap w) (toasts w ++ [mkToast msg type]) (player w).

(** [updateVolumeDisplay]: the fill width, in percent. *)
Definition updateVolumeDisplay (w : world) : world :=
  let s := player w in
  let displayVolume := if isMuted s then Fin 0 else volume s in
  upd (set_volumeFill (mul displayVolume (Fin 100))) w.

(** [play]: [resolves] tells whether the promise of [audio.play()] is
    fulfilled or rejected. *)
Definition play (resolves : bool) (w : world) : world :=
  if resolves
  then upd (fun s => set_isPlaying true (set_audio_paused false s)) w
  else showToast (str "Unable to play audio") error w.

Definition pause (w : world) : world :=
  upd (fun s => set_isPlaying false (set_audio_paused true s)) w.

Definition togglePlay (resolves : bool) (w : world) : world :=
  if src_is_empty (player w)
  then showToast (str "No track selected") info w
  else if isPlaying (player w) then pause w else play resolves w.

Definition updateTrackInfo (track_name track_artist : jsstring) (w : world) : world :=
  upd (set_trackInfo (or_else track_name (str "Unknown Track"))
                     (or_else track_artist (str "Unknown Artist"))) w.

Definition loadTrack (resolves : bool) (index : Z) (w : world) : world :=
  match at_index (tracks w) index with
  | None => w
  | Some track =>
      let w1 := upd (fun s => set_currentTrackIndex index
                                (set_audio_src (url track) s)) w in
      let w2 := updateTrackInfo (name track) (artist track) w1 in
      if isPlaying (player w2) then play resolves w2 else w2
  end.

Definition previousTrack (resolves : bool) (w : world) : world :=
  match tracks w with
  | [] => w
  | _ =>
      let i := currentTrackIndex (player w) in
      let i' := if 0 <? i then i - 1 else Z.of_nat (length (tracks w)) - 1 in
      loadTrack resolves i' (upd (set_currentTrackIndex i') w)
  end.

Definition nextTrack (resolves : bool) (w : world) : world :=
  match tracks w with
  | [] => w
  | _ =>
      let i := currentTrackIndex (player w) in
      let i' := if i <? Z.of_nat (length (tracks w)) - 1 then i + 1 else 0 in
      loadTrack resolves i' (upd (set_currentTrackIndex i') w)
  end.

Definition seekTo (event : PointerEvent) (w : world) : world :=
  let rect := progressBar (player w) in
  let percent := div (clientX event - left rect) (width rect) in
  let newTime := mul percent (audio_duration (player w)) in
  if isFinite newTime then upd (set_audio_currentTime newTime) w else w.

(** [setVolume]: the assignment to [audio.volume] throws on a value that
    is not finite, which ends the handler after [this.volume] is set. *)
Definition setVolume (event : PointerEvent) (w : world) : world :=
  let rect := volumeBar (player w) in
  let percent :=
    max_with 0 (min_with 1 (div (clientX event - left rect) (width rect))) in
  let w1 := upd (set_volume percent) w in
  if isFinite percent
  then updateVolumeDisplay
         (upd (fun s => set_isMuted false (set_audio_volume percent s)) w1)
  else w1.

(** [toggleMute]: unmuting assigns [this.volume] to [audio.volume],
    which throws, and ends the handler, if that value is not finite. *)
Definition toggleMute (w : world) : world :=
  let s := player w in
  if isMuted s then
    if isFinite (volume s)
    then updateVolumeDisplay
           (upd (fun s => set_isMuted false (set_audio_volume (volume s) s)) w)
    else w
  else
    updateVolumeDisplay
      (upd (fun s => set_isMuted true (set_audio_volume (Fin 0) s)) w).

Definition handleDragging (event : PointerEvent) (w : world) : world :=
  match isDragging (player w) with
  | None => w
  | Some drag_progress => seekTo event w
  | Some drag_volume => setVolume event w
  end.

Definition startDragging (event : PointerEvent) (type : DragKind) (w : world) : world :=
  handleDragging event (upd (set_isDragging (Some type)) w).

Definition stopDragging (w : world) : world :=
  upd (set_isDragging None) w.

(** [setPlaylist(playlist)]: the player keeps the reference it is given. *)
Definition setPlaylist (resolves : bool) (l : loc) (w : world) : world :=
  let w1 := upd (set_playlist l) w in
  match arr (heap w1) l with
  | _ :: _ => if src_is_empty (player w1) then loadTrack resolves 0 w1 else w1
  | [] => w1
  end.


Definition removeFromPlaylist (index : Z) (w : world) : world :=
  let i := currentTrackIndex (player w) in
  let w1 :=
    if index =? i then
      updateTrackInfo (str "No track selected") (str "Select a song to play")
        (upd (set_audio_src []) (pause w))
    else if index <? i then upd (set_currentTrackIndex (i - 1)) w
    else w in
  let l := playlist (player w1) in
  set_heap (<[l := splice1 index (arr (heap w1) l)]> (heap w1)) w1.

(** [setVolumeLevel(volume)], and [adjustVolume(delta)] which the arrow
    keys call: both clamp as [setVolume] does. *)
Definition setVolumeLevel (v : jsnum) (w : world) : world :=
  let clamped := max_with 0 (min_with 1 v) in
  let w1 := upd (set_volume clamped) w in
  if isFinite clamped
  then updateVolumeDisplay
         (upd (fun s => set_isMuted false (set_audio_volume clamped s)) w1)
  else w1.

Definition adjustVolume (delta : jsnum) (w : world) : world :=
  setVolumeLevel (add (volume (player w)) delta) w.

Definition handleAudioError (w : world) : world :=
  pause (showToast (str "Error loading audio file") error w).

(** The browser's [loadedmetadata]: the element now reports the
    duration of the loaded source. *)
Definition metadataLoaded (d : jsnum) (w : world) : world :=
  upd (set_audio_duration d) w.

(** [getCurrentTrack]: [None] stands for [null]. *)
Definition getCurrentTrack (w : world) : option Track :=
  at_index (tracks w) (currentTrackIndex (player w)).

Definition destroy (w : world) : world :=
  upd (set_audio_src []) (pause w).

(** The state the constructor leaves: a fresh empty array at [l], the
    audio element as the page declares it, volume 0.7 shown. *)
Definition constructed (l : loc) (bars : Rect * Rect) (h : heap_t) : world :=
  updateVolumeDisplay
    (mkWorld (<[l := []]> h) []
       (mkState [] false (Fin 1) (Fin 0) NaN true false 0 l (Fin (7 # 10))
          false None (fst bars) (snd bars) (Fin 0) [] [])).

(** What [handleKeyboard] reads of a key event. *)
Record KeyEvent : Type := mkKey {
  target_tagName : jsstring;
  key_code : jsstring
}.

(** [handleKeyboard]: shortcuts are ignored while an input has the
    focus; [preventDefault] has no effect on the player. *)
Definition handleKeyboard (resolves : bool) (event : KeyEvent) (w : world) : world :=
  if bool_decide (target_tagName event = str "INPUT") then w
  else if bool_decide (key_code event = str "Space") then togglePlay resolves w
  else if bool_decide (key_code event = str "ArrowLeft") then previousTrack resolves w
  else if bool_decide (key_code event = str "ArrowRight") then nextTrack resolves w
  else if bool_decide (key_code event = str "ArrowUp") then adjustVolume (Fin (1 # 10)) w
  else if bool_decide (key_code event = str "ArrowDown") then adjustVolume (Fin (- (1 # 10))) w
  else if bool_decide (key_code event = str "KeyM") then toggleMute w
  else w.

(** The events [bindEvents] listens to, by element.  The listeners for
    [loadedmetadata] and [timeupdate] only redraw the time display and
    the progress fill and are left out. *)
Inductive DomEvent : Type :=
| playBtn_click
| prevBtn_click
| nextBtn_click
| volumeBtn_click
| audio_ended
| audio_error
| progressBar_click (event : PointerEvent)
| progressBar_mousedown (event : PointerEvent)
| volumeBar_click (event : PointerEvent)
| volumeBar_mousedown (event : PointerEvent)
| document_mousemove (event : PointerEvent)
| document_mouseup
| document_keydown (event : KeyEvent).

(** [bindEvents]: which method each event runs. *)
Definition bindEvents (resolves : bool) (e : DomEvent) (w : world) : world :=
  match e with
  | playBtn_click => togglePlay resolves w
  | prevBtn_click => previousTrack resolves w
  | nextBtn_click => nextTrack resolves w
  | volumeBtn_click => toggleMute w
  | audio_ended => nextTrack resolves w
  | audio_error => handleAudioError w
  | progressBar_click event => seekTo event w
  | progressBar_mousedown event => startDragging event drag_progress w
  | volumeBar_click event => setVolume event w
  | volumeBar_mousedown event => startDragging event drag_volume w
  | document_mousemove event => handleDragging event w
  | document_mouseup => stopDragging w
  | document_keydown event => handleKeyboard resolves event w
  end.

End AudioPlayer.

(** ** PlaylistManager (src/js/audio-player.js, second class) *)

Module PlaylistManager.

(** What the manager reads of a [File]. *)
Record File : Type := mkFile {
  file_name : jsstring;
  file_type : jsstring
}.

(** The snapshot [savePlaylist] writes: no locator, no file. *)
Record TrackMeta : Type := mkMeta {
  meta_id : Z;
  meta_name : jsstring;
  meta_artist : jsstring;
  meta_duration : jsnum
}.

(** [playlist] is a reference: after [addFilesToPlaylist] it is the very
    array the player holds.  [filteredPlaylist] is always a fresh copy
    or a fresh [filter] result that nothing else holds, so it is kept by
    value. *)
Record state : Type := mkState {
  playlist : loc;
  filteredPlaylist : list Track;
  searchTerm : jsstring
}.

(** The manager, the player it was constructed with, the locators handed
    to [URL.revokeObjectURL], and the local-storage entry
    ['soundbound-playlist'].  Rendering ([renderPlaylist]) produces markup
    only and is not given state; the remote store and the metadata
    events are outside the program's synchronous steps. *)
Record app : Type := mkApp {
  audioPlayer : AudioPlayer.world;
  manager : state;
  revoked : list jsstring;
  stored : option (list TrackMeta)
}.

Definition on_player (f : AudioPlayer.world -> AudioPlayer.world) (a : app) : app :=
  mkApp (f (audioPlayer a)) (manager a) (revoked a) (stored a).

Definition on_manager (f : state -> state) (a : app) : app :=
  mkApp (audioPlayer a) (f (manager a)) (revoked a) (stored a).

Definition the_heap (a : app) : heap_t := AudioPlayer.heap (audioPlayer a).

(** The contents of the manager's array. *)
Definition tracks (a : app) : list Track := arr (the_heap a) (playlist (manager a)).

Definition write_playlist (ts : list Track) (a : app) : app :=
  on_player (AudioPlayer.set_heap (<[playlist (manager a) := ts]> (the_heap a))) a.

Definition showToast (msg : jsstring) (type : ToastType) (a : app) : app :=
  on_player (AudioPlayer.showToast msg type) a.

Definition revokeObjectURL (u : jsstring) (a : app) : app :=
  mkApp (audioPlayer a) (manager a) (revoked a ++ [u]) (stored a).

Definition revoke_if_blob (t : Track) (a : app) : app :=
  if startsWith (url t) (str "blob:") then revokeObjectURL (url t) a else a.

(** A location no array lives at. *)
Definition alloc (h : heap_t) : loc := fresh (dom h).

(** *** Utility methods *)

(** [/\.[^/.]+$/] *)
Definition extension : regex :=
  RSeq (RChar ".")
       (RPlus (RClass (fun c => negb ((c =? code "/") || (c =? code "."))%N))).

Definition separator : jsstring := str " - ".

(** [.replace(/_/g, ' ').replace(/\s+/g, ' ').trim()] *)
Definition clean (s : jsstring) : jsstring :=
  trim (collapse_whitespace (replace_underscores s)).

Definition extractTrackName (filename : jsstring) : jsstring :=
  let name := replace_at_end extension [] filename in
  let name :=
    if includes name separator
    then join (slice1 (split name separator)) separator
    else name in
  or_else (clean name) (str "Unknown Track").

Definition extractArtistName (filename : jsstring) : jsstring :=
  let name := replace_at_end extension [] filename in
  if includes name separator
  then clean (first_piece (split name separator))
  else str "Unknown Artist".

Definition metadata (t : Track) : TrackMeta :=
  mkMeta (id t) (name t) (artist t) (duration t).

Definition savePlaylist (a : app) : app :=
  mkApp (audioPlayer a) (manager a) (revoked a) (Some (map metadata (tracks a))).

Section WithPlatform.

(** [String.prototype.toLowerCase], the platform's case mapping. *)
Variable toLowerCase : jsstring -> jsstring.

Definition updateFilteredPlaylist (a : app) : app :=
  let m := manager a in
  match searchTerm m with
  | [] => on_manager (fun m => mkState (playlist m) (tracks a) (searchTerm m)) a
  | term =>
      on_manager (fun m =>
        mkState (playlist m)
          (List.filter (fun track =>
             includes (toLowerCase (name track)) term
             || includes (toLowerCase (artist track)) term) (tracks a))
          (searchTerm m)) a
  end.

Definition handleSearch (query : jsstring) (a : app) : app :=
  updateFilteredPlaylist
    (on_manager (fun m => mkState (playlist m) (filteredPlaylist m)
                            (toLowerCase query)) a).

(** [addFilesToPlaylist]: [now i] is what [Date.now()] returns while the
    [i]-th file is mapped, [createObjectURL] the locator the browser
    hands out, [resolves] the outcome of a [play()] the player may start. *)
Definition addFilesToPlaylist (now : nat -> Z) (createObjectURL : File -> jsstring)
    (resolves : bool) (files : list File) (a : app) : app :=
  let newTracks :=
    imap (fun index file =>
            mkTrack (now index + Z.of_nat index)
                    (extractTrackName (file_name file))
                    (extractArtistName (file_name file))
                    (createObjectURL file)
                    (Fin 0)) files in
  let a1 := write_playlist (tracks a ++ newTracks) a in
  let a2 := updateFilteredPlaylist a1 in
  let a3 := on_player (AudioPlayer.setPlaylist resolves (playlist (manager a2))) a2 in
  let a4 := savePlaylist a3 in
  showToast (str "Added " ++ decimal (length newTracks)
               ++ str " song(s) to playlist") success a4.

Definition audio_files (files : list File) : list File :=
  List.filter (fun file => startsWith (file_type file) (str "audio/")) files.

Definition handleFileSelection (now : nat -> Z) (createObjectURL : File -> jsstring)
    (resolves : bool) (files : list File) (a : app) : app :=
  match audio_files files with
  | [] => showToast (str "Please select valid audio files") error a
  | fs => addFilesToPlaylist now createObjectURL resolves fs a
  end.

Definition selectTrack (resolves : bool) (index : Z) (a : app) : app :=
  on_player (fun w =>
    AudioPlayer.loadTrack resolves index
      (AudioPlayer.upd (AudioPlayer.set_currentTrackIndex index) w)) a.

Definition removeTrack (index : Z) (a : app) : app :=
  match at_index (tracks a) index with
  | None => a
  | Some track =>
      let a1 := revoke_if_blob track a in
      let a2 := on_player (AudioPlayer.removeFromPlaylist index) a1 in
      let a3 := write_playlist (splice1 index (tracks a2)) a2 in
      let a4 := updateFilteredPlaylist a3 in
      let a5 := savePlaylist a4 in
      showToast (str "Song removed from playlist") info a5
  end.

Definition clearPlaylist (resolves : bool) (a : app) : app :=
  let a1 := fold_left (fun acc t => revoke_if_blob t acc) (tracks a) a in
  let l1 := alloc (the_heap a1) in
  let a2 := on_player (AudioPlayer.set_heap (<[l1 := []]> (the_heap a1))) a1 in
  let a3 := on_manager (fun m => mkState l1 [] (searchTerm m)) a2 in
  let l2 := alloc (the_heap a3) in
  let a4 := on_player (AudioPlayer.set_heap (<[l2 := []]> (the_heap a3))) a3 in
  let a5 := on_player (AudioPlayer.setPlaylist resolves l2) a4 in
  showToast (str "Playlist cleared") info (savePlaylist a5).

(** The [drop] listener of [setupDragAndDrop]. *)
Definition handleDrop (now : nat -> Z) (createObjectURL : File -> jsstring)
    (resolves : bool) (files : list File) (a : app) : app :=
  match audio_files files with
  | [] => showToast (str "Please drop valid audio files") error a
  | fs => addFilesToPlaylist now createObjectURL resolves fs a
  end.

End WithPlatform.

(** [getPlaylist] and [getFilteredPlaylist] return copies. *)
Definition getPlaylist (a : app) : list Track := tracks a.


Definition getCurrentTrack (a : app) : option Track :=
  at_index (tracks a) (AudioPlayer.currentTrackIndex (AudioPlayer.player (audioPlayer a))).

(** The state the constructor leaves around a player [w]: a fresh empty
    array of the manager's own. *)
Definition constructed (w : AudioPlayer.world) : app :=
  let l := alloc (AudioPlayer.heap w) in
  mkApp (AudioPlayer.set_heap (<[l := []]> (AudioPlayer.heap w)) w)
        (mkState l [] []) [] None.

End PlaylistManager.

(** ** StyleCustomizer (the style customization manager) *)

Module StyleCustomizer.

(** The values a preferences object can hold. *)
Inductive jsvalue : Type :=
| VUndefined
| VNull
| VNum (x : jsnum)
| VStr (s : jsstring).

(** A member value of a JSON text.  The text that [JSON.stringify]
    writes is represented by the document it denotes, which is what
    [JSON.parse] recovers from it. *)
Inductive json : Type :=
| JNull
| JNum (q : Q)
| JStr (s : jsstring).

Abbreviation object := (gmap string jsvalue).
Abbreviation document := (gmap string json).

(** A property whose value is [undefined] is left out of the text; a
    number that is not finite is written as [null]. *)
Definition member (v : jsvalue) : option json :=
  match v with
  | VUndefined => None
  | VNull => Some JNull
  | VNum (Fin q) => Some (JNum q)
  | VNum _ => Some JNull
  | VStr s => Some (JStr s)
  end.

Definition JSON_stringify (o : object) : document := omap member o.

Definition value_of (j : json) : jsvalue :=
  match j with
  | JNull => VNull
  | JNum q => VNum (Fin q)
  | JStr s => VStr s
  end.

Definition JSON_parse (d : document) : object := value_of <$> d.

(** [{ ...a, ...b }]: the properties of [b] win. *)
Definition spread (a b : object) : object := b ∪ a.

(** What the remote store answers when preferences are requested:
    nobody is signed in, the request succeeds with a preferences object,
    it reports failure, or it throws. *)
Inductive Remote : Type :=
| NoUser
| RemoteSuccess (preferences : object)
| RemoteFailure
| RemoteThrows.

(** The customizer, the local-storage entry ['soundbound-preferences'],
    the preferences last sent to the remote store, and the
    notifications.  [applyAllPreferences] and [updateModalFromPreferences]
    write attributes, CSS properties and form controls of the page from
    [currentPreferences] and never write it back; they carry no state
    here. *)
Record world : Type := mkWorld {
  currentPreferences : object;
  modalActive : bool;
  storedPreferences : option document;
  remotePreferences : option object;
  toasts : list Toast
}.

Definition set_currentPreferences (o : object) (w : world) : world :=
  mkWorld o (modalActive w) (storedPreferences w) (remotePreferences w) (toasts w).

Definition showToast (msg : jsstring) (type : ToastType) (w : world) : world :=
  mkWorld (currentPreferences w) (modalActive w) (storedPreferences w)
    (remotePreferences w) (toasts w ++ [mkToast msg type]).

Definition getDefaultPreferences : object :=
  {[ "theme" := VStr (str "default");
     "playerSize" := VStr (str "normal");
     "background" := VStr (str "solid");
     "fontSize" := VNum (Fin 16);
     "animationSpeed" := VNum (Fin 1) ]}.

Definition openModal (w : world) : world :=
  mkWorld (currentPreferences w) true (storedPreferences w)
    (remotePreferences w) (toasts w).

Definition closeModal (w : world) : world :=
  mkWorld (currentPreferences w) false (storedPreferences w)
    (remotePreferences w) (toasts w).

Definition selectTheme (theme : jsvalue) (w : world) : world :=
  set_currentPreferences (<["theme" := theme]> (currentPreferences w)) w.

Definition selectSize (size : jsvalue) (w : world) : world :=
  set_currentPreferences (<["playerSize" := size]> (currentPreferences w)) w.

Definition selectBackground (background : jsvalue) (w : world) : world :=
  set_currentPreferences (<["background" := background]> (currentPreferences w)) w.

(** [updateFontSize]: [parsed] is [parseInt] of the slider's value. *)
Definition updateFontSize (parsed : jsnum) (w : world) : world :=
  set_currentPreferences (<["fontSize" := VNum parsed]> (currentPreferences w)) w.

(** [updateAnimationSpeed]: [parsed] is [parseFloat] of the slider's value. *)
Definition updateAnimationSpeed (parsed : jsnum) (w : world) : world :=
  set_currentPreferences (<["animationSpeed" := VNum parsed]> (currentPreferences w)) w.

Definition saveToLocalStorage (w : world) : world :=
  mkWorld (currentPreferences w) (modalActive w)
    (Some (JSON_stringify (currentPreferences w)))
    (remotePreferences w) (toasts w).

(** [loadSavedPreferences]: a stored text is always truthy, since the
    text of an object is never empty. *)
Definition loadSavedPreferences (remote : Remote) (w : world) : world :=
  let w1 :=
    match storedPreferences w with
    | Some localPrefs =>
        set_currentPreferences
          (spread getDefaultPreferences (JSON_parse localPrefs)) w
    | None => w
    end in
  match remote with
  | NoUser => w1
  | RemoteSuccess preferences =>
      saveToLocalStorage
        (set_currentPreferences (spread getDefaultPreferences preferences) w1)
  | RemoteFailure => w1
  | RemoteThrows => showToast (str "Failed to load saved preferences") error w1
  end.

(** [savePreferences]: [remote] is [None] when nobody is signed in, and
    otherwise tells whether the remote store accepted the write. *)
Definition savePreferences (remote : option bool) (w : world) : world :=
  let w1 := saveToLocalStorage w in
  match remote with
  | Some true =>
      closeModal
        (showToast (str "Preferences saved successfully!") success
           (mkWorld (currentPreferences w1) (modalActive w1)
              (storedPreferences w1) (Some (currentPreferences w1)) (toasts w1)))
  | Some false =>
      closeModal (showToast (str "Failed to save preferences to cloud") error w1)
  | None =>
      closeModal (showToast (str "Preferences saved locally") success w1)
  end.

Definition resetToDefault (w : world) : world :=
  showToast (str "Reset to default settings") info
    (set_currentPreferences getDefaultPreferences w).

Definition getPreferences (w : world) : object := currentPreferences w.

Definition setPreferences (preferences : object) (w : world) : world :=
  set_currentPreferences (spread getDefaultPreferences preferences) w.

(** The state the constructor leaves, given what local storage holds. *)
Definition constructed (local : option document) : world :=
  loadSavedPreferences NoUser (mkWorld getDefaultPreferences false local None []).

(** A preferences record with its five fields set, strings and finite
    numbers, as the customization panel produces it. *)
Record Preferences : Type := mkPreferences {
  theme : jsstring;
  playerSize : jsstring;
  background : jsstring;
  fontSize : Q;
  animationSpeed : Q
}.

Definition to_object (p : Preferences) : object :=
  {[ "theme" := VStr (theme p);
     "playerSize" := VStr (playerSize p);
     "background" := VStr (background p);
     "fontSize" := VNum (Fin (fontSize p));
     "animationSpeed" := VNum (Fin (animationSpeed p)) ]}.

End StyleCustomizer.

(** ** AuthManager (src/js/auth-manager.js) *)

Module AuthManager.

(** A request sent to the external auth provider. *)
Inductive ProviderCall : Type :=
| signIn (email password : jsstring)
| signUp (email password : jsstring)
| signOut.

(** What the provider answers: success, failure with the provider's
    message (possibly empty), or an exception. *)
Inductive ProviderResult : Type :=
| Succeeded
| Failed (error_message : jsstring)
| Threw.

(** The manager's fields ([currentUser] holds the signed-in user's
    email, written only by the auth state listener), the four form
    inputs, the loading indicator
    with the buttons it disables, the notifications, and the requests
    made to the provider so far. *)
Record world : Type := mkWorld {
  currentUser : option jsstring;
  isAuthModalOpen : bool;
  loginEmail : jsstring;
  loginPassword : jsstring;
  signupEmail : jsstring;
  signupPassword : jsstring;
  loading : bool;
  toasts : list Toast;
  calls : list ProviderCall
}.

Definition showToast (msg : jsstring) (type : ToastType) (w : world) : world :=
  mkWorld (currentUser w) (isAuthModalOpen w) (loginEmail w) (loginPassword w) (signupEmail w)
    (signupPassword w) (loading w) (toasts w ++ [mkToast msg type]) (calls w).

Definition setLoading (isLoading : bool) (w : world) : world :=
  mkWorld (currentUser w) (isAuthModalOpen w) (loginEmail w) (loginPassword w) (signupEmail w)
    (signupPassword w) isLoading (toasts w) (calls w).

(** [closeModal] also clears the four inputs. *)
Definition closeModal (w : world) : world :=
  mkWorld (currentUser w) false [] [] [] [] (loading w) (toasts w) (calls w).

Definition call (c : ProviderCall) (w : world) : world :=
  mkWorld (currentUser w) (isAuthModalOpen w) (loginEmail w) (loginPassword w) (signupEmail w)
    (signupPassword w) (loading w) (toasts w) (calls w ++ [c]).

(** [[^\s@]] *)
Definition plain (c : N) : bool :=
  negb (isWhiteSpace c || (c =? code "@")%N).

(** [/^[^\s@]+@[^\s@]+\.[^\s@]+$/] *)
Definition emailRegex : regex :=
  RSeq (RPlus (RClass plain))
    (RSeq (RChar "@")
       (RSeq (RPlus (RClass plain))
          (RSeq (RChar ".") (RPlus (RClass plain))))).

Definition validateEmail (email : jsstring) : bool := matches emailRegex email.

Definition handleLogin (result : ProviderResult) (w : world) : world :=
  let email := trim (loginEmail w) in
  let password := loginPassword w in
  if negb (validateEmail email) then
    showToast (str "Please enter a valid email address") error w
  else match password with
  | [] => showToast (str "Please enter your password") error w
  | _ =>
      let w1 := call (signIn email password) (setLoading true w) in
      let w2 :=
        match result with
        | Succeeded => closeModal (showToast (str "Successfully signed in!") success w1)
        | Failed msg => showToast (or_else msg (str "Sign in failed")) error w1
        | Threw => showToast (str "An unexpected error occurred") error w1
        end in
      setLoading false w2
  end.

Definition handleSignup (result : ProviderResult) (w : world) : world :=
  let email := trim (signupEmail w) in
  let password := signupPassword w in
  if negb (validateEmail email) then
    showToast (str "Please enter a valid email address") error w
  else if (length password <? 6)%nat then
    showToast (str "Password must be at least 6 characters long") error w
  else
    let w1 := call (signUp email password) (setLoading true w) in
    let w2 :=
      match result with
      | Succeeded =>
          closeModal (showToast (str "Account created successfully!") success w1)
      | Failed msg => showToast (or_else msg (str "Account creation failed")) error w1
      | Threw => showToast (str "An unexpected error occurred") error w1
      end in
    setLoading false w2.

Definition handleLogout (result : ProviderResult) (w : world) : world :=
  let w1 := call signOut (setLoading true w) in
  let w2 :=
    match result with
    | Succeeded => closeModal (showToast (str "Successfully signed out") success w1)
    | Failed _ => showToast (str "Sign out failed") error w1
    | Threw => showToast (str "An unexpected error occurred") error w1
    end in
  setLoading false w2.

End AuthManager.

(** ** FirebaseService (src/js/firebase-service.js): reading preferences *)

Module FirebaseService.

(** The service's own defaults: the customizer's five and [volume]. *)
Definition getDefaultPreferences : StyleCustomizer.object :=
  {[ "theme" := StyleCustomizer.VStr (str "default");
     "playerSize" := StyleCustomizer.VStr (str "normal");
     "background" := StyleCustomizer.VStr (str "solid");
     "fontSize" := StyleCustomizer.VNum (Fin 16);
     "animationSpeed" := StyleCustomizer.VNum (Fin 1);
     "volume" := StyleCustomizer.VNum (Fin (7 # 10)) ]}.

(** What the store answers when the user document is read: a document
    whose [preferences] field holds an object ([Some]) or is absent or
    falsy ([None]), no document, or an exception with its message. *)
Inductive Snapshot : Type :=
| Exists (preferences : option StyleCustomizer.object)
| Missing
| GetDocThrows (error_message : jsstring).

(** [{ success: true, data }] or [{ success: false, error }]. *)
Inductive DocumentResult : Type :=
| document (preferences : option StyleCustomizer.object)
| no_document (error_message : jsstring).

Definition getUserDocument (snapshot : Snapshot) : DocumentResult :=
  match snapshot with
  | Exists preferences => document preferences
  | Missing => no_document (str "User document not found")
  | GetDocThrows msg => no_document msg
  end.

(** [getUserPreferences], as [loadSavedPreferences] receives its answer
    for a signed-in user.  [getUserDocument] catches what [getDoc]
    throws, so the [catch] of this method is never entered. *)
Definition getUserPreferences (snapshot : Snapshot) : StyleCustomizer.Remote :=
  match getUserDocument snapshot with
  | document (Some preferences) => StyleCustomizer.RemoteSuccess preferences
  | _ => StyleCustomizer.RemoteSuccess getDefaultPreferences
  end.

(** The listener [onPreferencesChange] registers: what it passes to the
    callback, if it calls it. *)
Definition onPreferencesChange (snapshot : Snapshot) : option StyleCustomizer.object :=
  match snapshot with
  | Exists (Some preferences) => Some preferences
  | Exists None => Some getDefaultPreferences
  | _ => None
  end.

End FirebaseService.

(** ** StyleCustomizer and the signed-in user *)

Module StyleSync.

(** The callback [onUserChange] hands to [onPreferencesChange]. *)
Definition preferencesChanged (preferences : StyleCustomizer.object)
    (w : StyleCustomizer.world) : StyleCustomizer.world :=
  StyleCustomizer.set_currentPreferences
    (StyleCustomizer.spread StyleCustomizer.getDefaultPreferences preferences) w.

(** [onUserChange(user)]: [user] is [None] after sign-out and otherwise
    carries what the store answers for that user's document. *)
Definition onUserChange (user : option FirebaseService.Snapshot)
    (w : StyleCustomizer.world) : StyleCustomizer.world :=
  match user with
  | Some snapshot =>
      StyleCustomizer.loadSavedPreferences
        (FirebaseService.getUserPreferences snapshot) w
  | None => StyleCustomizer.loadSavedPreferences StyleCustomizer.NoUser w
  end.

(** A later push of the user document. *)
Definition snapshotArrived (snapshot : FirebaseService.Snapshot)
    (w : StyleCustomizer.world) : StyleCustomizer.world :=
  match FirebaseService.onPreferencesChange snapshot with
  | Some preferences => preferencesChanged preferences w
  | None => w
  end.

End StyleSync.

(** ** The stated properties, as definitions *)

Module Properties.

(** Playback is stopped: nothing plays and no source is loaded, the
    [src] attribute of the element being empty. *)
Definition stopped (w : AudioPlayer.world) : Prop :=
  AudioPlayer.isPlaying (AudioPlayer.player w) = false /\
  AudioPlayer.audio_src (AudioPlayer.player w) = [].

Definition index_valid (w : AudioPlayer.world) : Prop :=
  0 <= AudioPlayer.currentTrackIndex (AudioPlayer.player w)
    < Z.of_nat (length (AudioPlayer.tracks w)).

(** The data model's invariant on the player. *)
Definition invariant (w : AudioPlayer.world) : Prop :=
  index_valid w \/ stopped w.




(** Circular successor and predecessor among [n] positions. *)
Definition next_index (n i : Z) : Z := if i <? n - 1 then i + 1 else 0.

Definition previous_index (n i : Z) : Z := if 0 <? i then i - 1 else n - 1.

(** The manager and the player hold the same array. *)
Definition shared (a : PlaylistManager.app) : Prop :=
  AudioPlayer.playlist (AudioPlayer.player (PlaylistManager.audioPlayer a))
  = PlaylistManager.playlist (PlaylistManager.manager a).








(** A gap between words: white space or an underscore. *)
Definition is_gap (c : N) : bool := isWhiteSpace c || (c =? code "_")%N.

(** The words of a text, in order: its maximal stretches without a
    gap.  [word] is the stretch read so far. *)
Fixpoint words_from (word s : jsstring) : list jsstring :=
  match s with
  | [] => match word with [] => [] | _ => [word] end
  | c :: s' =>
      if is_gap c
      then match word with
           | [] => words_from [] s'
           | _ => word :: words_from [] s'
           end
      else words_from (word ++ [c]) s'
  end.

Definition words (s : jsstring) : list jsstring := words_from [] s.

(** A text cleaned: underscores count as spaces, every run of white
    space is one space, and there is none at either end; that is, its
    words with one space between them. *)
Definition cleaned (s : jsstring) : jsstring := join (words s) (str " ").

End Properties.

(** ** Concrete inputs *)

Module Demo.

(** The three demo tracks of src/js/main.js. *)
Definition trackA : Track :=
  mkTrack 1 (str "Ambient Waves") (str "Nature Sounds")
    (str "https://www.soundjay.com/misc/sounds/bell-ringing-05.wav") (Fin 180).

Definition trackB : Track :=
  mkTrack 2 (str "Digital Dreams") (str "Synthwave Collective")
    (str "https://www.soundjay.com/misc/sounds/bell-ringing-05.wav") (Fin 240).

Definition trackC : Track :=
  mkTrack 3 (str "Coffee Shop Jazz") (str "Smooth Jazz Trio")
    (str "https://www.soundjay.com/misc/sounds/bell-ringing-05.wav") (Fin 195).

(** Progress bar from 100px, 200px wide; volume bar from 400px, 100px wide. *)
Definition bars : AudioPlayer.Rect * AudioPlayer.Rect :=
  (AudioPlayer.mkRect 100 200, AudioPlayer.mkRect 400 100).

Definition empty_player : AudioPlayer.world := AudioPlayer.constructed 0%nat bars ∅.

Definition with_array (l : loc) (ts : list Track) (w : AudioPlayer.world)
    : AudioPlayer.world :=
  AudioPlayer.set_heap (<[l := ts]> (AudioPlayer.heap w)) w.

(** A player given the playlist [A, B, C]: it loads A. *)
Definition three_tracks : AudioPlayer.world :=
  AudioPlayer.setPlaylist true 1%nat
    (with_array 1%nat [trackA; trackB; trackC] empty_player).

(** The same player, playing C. *)
Definition playing_last : AudioPlayer.world :=
  AudioPlayer.metadataLoaded (Fin 195)
    (AudioPlayer.loadTrack true 2 (AudioPlayer.play true three_tracks)).

(** A pointer at 50px, left of both bars. *)
Definition left_of_bar : AudioPlayer.PointerEvent := AudioPlayer.mkEvent 50.

(** Lower-casing of the letters A to Z, the ASCII part of the
    platform's case mapping. *)
Definition ascii_lower (s : jsstring) : jsstring :=
  map (fun c => if ((65 <=? c) && (c <=? 90))%N then (c + 32)%N else c) s.

Definition fileA : PlaylistManager.File :=
  PlaylistManager.mkFile (str "Queen - Bohemian_Rhapsody.mp3") (str "audio/mpeg").

Definition fileB : PlaylistManager.File :=
  PlaylistManager.mkFile (str "track02.mp3") (str "audio/mpeg").

Definition fileC : PlaylistManager.File :=
  PlaylistManager.mkFile (str "Nina Simone - Feeling Good.flac") (str "audio/flac").

Definition blob_of (f : PlaylistManager.File) : jsstring :=
  str "blob:" ++ PlaylistManager.file_name f.

Definition clock (i : nat) : Z := 1700000000000.

Definition empty_app : PlaylistManager.app := PlaylistManager.constructed empty_player.




(** The page after the user has added three files. *)
Definition three_files : PlaylistManager.app :=
  PlaylistManager.addFilesToPlaylist ascii_lower clock blob_of true
    [fileA; fileB; fileC] empty_app.

(** The same page while the third file plays. *)
Definition playing_third : PlaylistManager.app :=
  PlaylistManager.selectTrack true 2
    (PlaylistManager.on_player (AudioPlayer.play true) three_files).

(** Preferences chosen in the panel. *)
Definition chosen : StyleCustomizer.Preferences :=
  StyleCustomizer.mkPreferences (str "dark") (str "large") (str "gradient") 18 (3 # 2).

Definition customized : StyleCustomizer.world :=
  StyleCustomizer.updateAnimationSpeed (Fin (3 # 2))
    (StyleCustomizer.updateFontSize (Fin 18)
       (StyleCustomizer.selectBackground (StyleCustomizer.VStr (str "gradient"))
          (StyleCustomizer.selectSize (StyleCustomizer.VStr (str "large"))
             (StyleCustomizer.selectTheme (StyleCustomizer.VStr (str "dark"))
                (StyleCustomizer.constructed None))))).

(** A later visit: the customizer constructed over what was stored. *)
Definition next_visit : StyleCustomizer.world :=
  StyleCustomizer.mkWorld StyleCustomizer.getDefaultPreferences false
    (StyleCustomizer.storedPreferences (StyleCustomizer.saveToLocalStorage customized))
    None [].

Definition login_form (email password : jsstring) : AuthManager.world :=
  AuthManager.mkWorld None true email password [] [] false [] [].

Definition signup_form (email password : jsstring) : AuthManager.world :=
  AuthManager.mkWorld None true [] [] email password false [] [].

End Demo.

(** ** Further properties, as definitions *)

Module Coverage.

(** *** What a pattern denotes *)

Inductive denotes : regex -> jsstring -> Prop :=
| denotes_eps : denotes REps []
| denotes_class p c : p c = true -> denotes (RClass p) [c]
| denotes_seq r1 r2 s1 s2 :
    denotes r1 s1 -> denotes r2 s2 -> denotes (RSeq r1 r2) (s1 ++ s2)
| denotes_alt_l r1 r2 s : denotes r1 s -> denotes (RAlt r1 r2) s
| denotes_alt_r r1 r2 s : denotes r2 s -> denotes (RAlt r1 r2) s
| denotes_star_nil r : denotes (RStar r) []
| denotes_star_cons r s1 s2 :
    denotes r s1 -> denotes (RStar r) s2 -> denotes (RStar r) (s1 ++ s2).

(** Every code unit of [s] is in the class [p]. *)
Definition all_in (p : N -> bool) (s : jsstring) : Prop :=
  Forall (fun c => p c = true) s.

(** A code unit a file extension may hold: [[^/.]]. *)
Definition extension_unit (c : N) : bool :=
  negb ((c =? code "/") || (c =? code "."))%N.

(** [s] ends in a dot followed by at least one extension unit, and
    [base] is what precedes that dot. *)
Definition has_extension (s base : jsstring) : Prop :=
  exists ext, s = base ++ code "." :: ext /\ ext <> [] /\ all_in extension_unit ext.

(** *** Tidy text *)

(** Every white-space unit of [s] is a space, and none follows a white
    one; [after_white] tells whether a white unit precedes [s]. *)
Fixpoint single_spaced (after_white : bool) (s : jsstring) : bool :=
  match s with
  | [] => true
  | c :: s' =>
      if isWhiteSpace c
      then (c =? code " ")%N && negb after_white && single_spaced true s'
      else single_spaced false s'
  end.

(** No underscore; no white space but single spaces between other
    units; none at either end. *)
Definition tidy (s : jsstring) : Prop :=
  (forall c, c ∈ s -> c <> code "_") /\
  (forall c, c ∈ s -> isWhiteSpace c = true -> c = code " ") /\
  (forall i c d, s !! i = Some c -> s !! S i = Some d ->
     isWhiteSpace c = true -> isWhiteSpace d = false) /\
  (forall c, head s = Some c -> isWhiteSpace c = false) /\
  (forall c, last s = Some c -> isWhiteSpace c = false).

(** The same, as a check that computes. *)
Definition tidy_check (s : jsstring) : bool :=
  forallb (fun c => negb (c =? code "_")%N) s
  && single_spaced true s
  && match last s with
     | Some c => negb (isWhiteSpace c)
     | None => true
     end.

(** How many [@] a string holds. *)
Definition at_signs (s : jsstring) : nat :=
  length (List.filter (fun c => (c =? code "@")%N) s).

(** *** The player's volume *)

Definition unit_interval (x : jsnum) : Prop :=
  exists v, x = Fin v /\ (0 <= v <= 1)%Q.

(** The player's volume and the element's volume are both in [0, 1]. *)
Definition volumes_in_range (w : AudioPlayer.world) : Prop :=
  unit_interval (AudioPlayer.volume (AudioPlayer.player w)) /\
  unit_interval (AudioPlayer.audio_volume (AudioPlayer.player w)).

(** What playback consists of: the tracks, the current index, the
    playing flag and the loaded source. *)
Definition playback (w : AudioPlayer.world) : list Track * Z * bool * jsstring :=
  (AudioPlayer.tracks w,
   AudioPlayer.currentTrackIndex (AudioPlayer.player w),
   AudioPlayer.isPlaying (AudioPlayer.player w),
   AudioPlayer.audio_src (AudioPlayer.player w)).

(** [n] calls of the same method. *)
Definition repeated {A} (n : nat) (f : A -> A) (a : A) : A := Nat.iter n f a.

(** *** The playlist manager's user actions *)

Inductive action : Type :=
| files_selected (now : nat -> Z)
    (createObjectURL : PlaylistManager.File -> jsstring)
    (files : list PlaylistManager.File)
| files_dropped (now : nat -> Z)
    (createObjectURL : PlaylistManager.File -> jsstring)
    (files : list PlaylistManager.File)
| search_typed (query : jsstring)
| track_clicked (index : Z)
| remove_clicked (index : Z)
| playlist_cleared.

Definition perform (toLowerCase : jsstring -> jsstring) (resolves : bool)
    (act : action) (a : PlaylistManager.app) : PlaylistManager.app :=
  match act with
  | files_selected now mk files =>
      PlaylistManager.handleFileSelection toLowerCase now mk resolves files a
  | files_dropped now mk files =>
      PlaylistManager.handleDrop toLowerCase now mk resolves files a
  | search_typed query => PlaylistManager.handleSearch toLowerCase query a
  | track_clicked index => PlaylistManager.selectTrack resolves index a
  | remove_clicked index => PlaylistManager.removeTrack toLowerCase index a
  | playlist_cleared => PlaylistManager.clearPlaylist resolves a
  end.

(** The view a stored (already lower-cased) search term selects. *)
Definition filtered_by (toLowerCase : jsstring -> jsstring) (term : jsstring)
    (ts : list Track) : list Track :=
  match term with
  | [] => ts
  | _ => List.filter (fun track =>
                        includes (toLowerCase (name track)) term
                        || includes (toLowerCase (artist track)) term) ts
  end.

(** The filtered view shows the current playlist under the current term. *)
Definition view_current (toLowerCase : jsstring -> jsstring)
    (a : PlaylistManager.app) : Prop :=
  PlaylistManager.filteredPlaylist (PlaylistManager.manager a)
  = filtered_by toLowerCase
      (PlaylistManager.searchTerm (PlaylistManager.manager a))
      (PlaylistManager.tracks a).

(** The player lists the tracks the manager lists. *)
Definition lists_agree (a : PlaylistManager.app) : Prop :=
  AudioPlayer.tracks (PlaylistManager.audioPlayer a) = PlaylistManager.tracks a.

(** Local storage holds the snapshot of the current playlist. *)
Definition snapshot_current (a : PlaylistManager.app) : Prop :=
  PlaylistManager.stored a
  = Some (map PlaylistManager.metadata (PlaylistManager.tracks a)).

(** The blob locators among the tracks, in order. *)
Definition blob_urls (ts : list Track) : list jsstring :=
  map url (List.filter (fun t => startsWith (url t) (str "blob:")) ts).

(** The track [addFilesToPlaylist] makes of the [index]-th file. *)
Definition track_of (now : nat -> Z)
    (createObjectURL : PlaylistManager.File -> jsstring)
    (index : nat) (file : PlaylistManager.File) : Track :=
  mkTrack (now index + Z.of_nat index)
    (PlaylistManager.extractTrackName (PlaylistManager.file_name file))
    (PlaylistManager.extractArtistName (PlaylistManager.file_name file))
    (createObjectURL file) (Fin 0).

(** What an action keeps of the three properties above. *)
Definition outcome (toLowerCase : jsstring -> jsstring)
    (a a' : PlaylistManager.app) : Prop :=
  (view_current toLowerCase a -> view_current toLowerCase a') /\
  (lists_agree a -> lists_agree a') /\
  (snapshot_current a -> snapshot_current a').

(** *** Edits in the customization panel *)

Inductive edit : Type :=
| theme_picked (theme : StyleCustomizer.jsvalue)
| size_picked (size : StyleCustomizer.jsvalue)
| background_picked (background : StyleCustomizer.jsvalue)
| fontSize_slid (parsed : jsnum)
| animationSpeed_slid (parsed : jsnum)
| reset_clicked
| panel_opened
| panel_closed.

Definition apply_edit (e : edit) (w : StyleCustomizer.world) : StyleCustomizer.world :=
  match e with
  | theme_picked v => StyleCustomizer.selectTheme v w
  | size_picked v => StyleCustomizer.selectSize v w
  | background_picked v => StyleCustomizer.selectBackground v w
  | fontSize_slid n => StyleCustomizer.updateFontSize n w
  | animationSpeed_slid n => StyleCustomizer.updateAnimationSpeed n w
  | reset_clicked => StyleCustomizer.resetToDefault w
  | panel_opened => StyleCustomizer.openModal w
  | panel_closed => StyleCustomizer.closeModal w
  end.

Definition apply_edits (es : list edit) (w : StyleCustomizer.world)
    : StyleCustomizer.world :=
  fold_left (fun acc e => apply_edit e acc) es w.

(** A value [JSON.stringify] writes and [JSON.parse] reads back as it
    was: a string, [null], or a finite number. *)
Definition json_safe (v : StyleCustomizer.jsvalue) : Prop :=
  match v with
  | StyleCustomizer.VUndefined => False
  | StyleCustomizer.VNum x => isFinite x = true
  | _ => True
  end.

(** What [getUserPreferences] hands on: the document's preferences
    when it has some, the service's defaults otherwise. *)
Definition remote_or_default (snapshot : FirebaseService.Snapshot)
    : StyleCustomizer.object :=
  match snapshot with
  | FirebaseService.Exists (Some preferences) => preferences
  | _ => FirebaseService.getDefaultPreferences
  end.

(** The user document could not be read or holds no preferences. *)
Definition without_preferences (snapshot : FirebaseService.Snapshot) : Prop :=
  match snapshot with
  | FirebaseService.Exists (Some _) => False
  | _ => True
  end.

(** *** The three auth handlers *)

Inductive handler : Type := login | signup | logout.

Definition handle (h : handler) (result : AuthManager.ProviderResult)
    (w : AuthManager.world) : AuthManager.world :=
  match h with
  | login => AuthManager.handleLogin result w
  | signup => AuthManager.handleSignup result w
  | logout => AuthManager.handleLogout result w
  end.

End Coverage.

(** ** Further concrete inputs *)

Module Scenarios.

(** Key presses outside any input. *)
Definition arrow_right : AudioPlayer.KeyEvent :=
  AudioPlayer.mkKey (str "BODY") (str "ArrowRight").

Definition arrow_up : AudioPlayer.KeyEvent :=
  AudioPlayer.mkKey (str "BODY") (str "ArrowUp").

(** Pointers on the bars of [Demo.bars]: a quarter into the progress
    bar, a fifth and a half into the volume bar. *)
Definition on_progress : AudioPlayer.PointerEvent := AudioPlayer.mkEvent 150.

Definition on_volume_low : AudioPlayer.PointerEvent := AudioPlayer.mkEvent 420.

Definition on_volume_mid : AudioPlayer.PointerEvent := AudioPlayer.mkEvent 450.

(** Preferences holding a theme only, the customizer holding them, and
    a later visit over what it stored. *)
Definition dark_only : StyleCustomizer.object :=
  {[ "theme" := StyleCustomizer.VStr (str "dark") ]}.

Definition dark_world : StyleCustomizer.world :=
  StyleCustomizer.set_currentPreferences dark_only (StyleCustomizer.constructed None).

Definition dark_visit : StyleCustomizer.world :=
  StyleCustomizer.mkWorld StyleCustomizer.getDefaultPreferences false
    (Some (StyleCustomizer.JSON_stringify dark_only)) None [].

(** Edits made after a save. *)
Definition later_edits : list Coverage.edit :=
  [Coverage.reset_clicked;
   Coverage.theme_picked (StyleCustomizer.VStr (str "ocean"));
   Coverage.fontSize_slid (Fin 12)].

(** The store cannot be reached. *)
Definition offline : FirebaseService.Snapshot :=
  FirebaseService.GetDocThrows (str "offline").

End Scenarios.

(** ** Arrays *)

Section Arrays.

Context {A : Type}.

Lemma at_index_range (a : list A) (i : Z) :
  is_Some (at_index a i) <-> 0 <= i < Z.of_nat (length a).
Proof.
  unfold at_index. destruct (i <? 0) eqn:E.
  - split; [intros [? ?]; done | lia].
  - rewrite lookup_lt_is_Some. lia.
Qed.

Lemma at_index_None (a : list A) (i : Z) :
  at_index a i = None <-> (i < 0 \/ Z.of_nat (length a) <= i).
Proof.
  unfold at_index. destruct (i <? 0) eqn:E.
  - split; [intros _; left; lia | done].
  - rewrite lookup_ge_None. lia.
Qed.

Lemma splice1_in_range (a : list A) (index : Z) :
  0 <= index < Z.of_nat (length a) ->
  splice1 index a = take (Z.to_nat index) a ++ drop (S (Z.to_nat index)) a.
Proof.
  intros H. unfold splice1. destruct (index <? 0) eqn:E; [lia|].
  rewrite Z.min_l by lia. apply delete_take_drop.
Qed.



End Arrays.

Lemma arr_insert (h : heap_t) (l : loc) (ts : list Track) :
  arr (<[l := ts]> h) l = ts.
Proof. unfold arr. by rewrite lookup_insert_eq. Qed.

Lemma arr_insert_ne (h : heap_t) (l l' : loc) (ts : list Track) :
  l <> l' -> arr (<[l := ts]> h) l' = arr h l'.
Proof. intros. unfold arr. by rewrite lookup_insert_ne. Qed.

(** ** The player: loading and navigation *)

Section PlayerNavigation.

Import AudioPlayer Properties.

Lemma loadTrack_heap r i w : heap (loadTrack r i w) = heap w.
Proof.
  unfold loadTrack. destruct (at_index _ _); [|done].
  match goal with |- context [if ?b then _ else _] => destruct b end; [|done].
  destruct r; done.
Qed.

Lemma loadTrack_playlist r i w :
  playlist (player (loadTrack r i w)) = playlist (player w).
Proof.
  unfold loadTrack. destruct (at_index _ _); [|done].
  match goal with |- context [if ?b then _ else _] => destruct b end; [|done].
  destruct r; done.
Qed.

Lemma loadTrack_tracks r i w : tracks (loadTrack r i w) = tracks w.
Proof. unfold tracks. by rewrite loadTrack_heap, loadTrack_playlist. Qed.

Lemma loadTrack_isPlaying r i w :
  isPlaying (player (loadTrack r i w)) = isPlaying (player w).
Proof.
  unfold loadTrack. destruct (at_index _ _); [|done].
  simpl. destruct (isPlaying (player w)) eqn:E; [|done].
  destruct r; done.
Qed.

(** A track that exists is loaded: its locator becomes the source, its
    position the current index, its name and artist the display. *)
Lemma loadTrack_found r i w t :
  at_index (tracks w) i = Some t ->
  currentTrackIndex (player (loadTrack r i w)) = i /\
  audio_src (player (loadTrack r i w)) = url t /\
  trackTitle (player (loadTrack r i w)) = or_else (name t) (str "Unknown Track") /\
  trackArtist (player (loadTrack r i w)) = or_else (artist t) (str "Unknown Artist").
Proof.
  intros H. unfold loadTrack. rewrite H. simpl.
  destruct (isPlaying (player w)); [destruct r|]; done.
Qed.

Lemma loadTrack_missing r i w :
  at_index (tracks w) i = None -> loadTrack r i w = w.
Proof. intros H. unfold loadTrack. by rewrite H. Qed.

Lemma loadTrack_same_index r w :
  currentTrackIndex (player (loadTrack r (currentTrackIndex (player w)) w))
  = currentTrackIndex (player w).
Proof.
  destruct (at_index (tracks w) (currentTrackIndex (player w))) eqn:E.
  - by destruct (loadTrack_found r _ _ _ E) as [-> _].
  - by rewrite loadTrack_missing.
Qed.

Lemma nextTrack_index r w :
  tracks w <> [] ->
  currentTrackIndex (player (nextTrack r w)) =
    next_index (Z.of_nat (length (tracks w))) (currentTrackIndex (player w)).
Proof.
  intros Hne. unfold nextTrack. destruct (tracks w) eqn:E; [done|].
  rewrite <- E.
  set (i' := if _ <? _ then _ else _).
  set (w' := upd _ w).
  change i' with (currentTrackIndex (player w')) at 1.
  by rewrite loadTrack_same_index.
Qed.

Lemma previousTrack_index r w :
  tracks w <> [] ->
  currentTrackIndex (player (previousTrack r w)) =
    previous_index (Z.of_nat (length (tracks w))) (currentTrackIndex (player w)).
Proof.
  intros Hne. unfold previousTrack. destruct (tracks w) eqn:E; [done|].
  rewrite <- E.
  set (i' := if _ <? _ then _ else _).
  set (w' := upd _ w).
  change i' with (currentTrackIndex (player w')) at 1.
  by rewrite loadTrack_same_index.
Qed.

Lemma nextTrack_tracks r w : tracks (nextTrack r w) = tracks w.
Proof.
  unfold nextTrack. destruct (tracks w) eqn:E; [done|].
  by rewrite loadTrack_tracks.
Qed.

Lemma previousTrack_tracks r w : tracks (previousTrack r w) = tracks w.
Proof.
  unfold previousTrack. destruct (tracks w) eqn:E; [done|].
  by rewrite loadTrack_tracks.
Qed.

(** C1.  On a playlist of [n > 0] tracks with the current index [i] in
    range, [nextTrack] moves the index to [i + 1], or to [0] from the
    last position, and [previousTrack] moves it to [i - 1], or to
    [n - 1] from the first; neither leaves the range.  With three tracks
    and the index at 0, two calls of [nextTrack] reach 2 and a third
    returns to 0. *)
Theorem navigation_wraps (w : world) (r : bool) :
  let n := Z.of_nat (length (tracks w)) in
  let i := currentTrackIndex (player w) in
  let next := currentTrackIndex (player (nextTrack r w)) in
  let previous := currentTrackIndex (player (previousTrack r w)) in
  0 < n -> 0 <= i < n ->
  next = (if i <? n - 1 then i + 1 else 0) /\
  previous = (if 0 <? i then i - 1 else n - 1) /\
  0 <= next < n /\ 0 <= previous < n /\
  (forall r2 r3, n = 3 -> i = 0 ->
     currentTrackIndex (player (nextTrack r2 (nextTrack r w))) = 2 /\
     currentTrackIndex (player (nextTrack r3 (nextTrack r2 (nextTrack r w)))) = 0).
Proof.
  intros n i next previous Hn Hi.
  assert (Hne : tracks w <> [])
    by (intros E; subst n; rewrite E in Hn; simpl in Hn; lia).
  assert (Hnext : next = if i <? n - 1 then i + 1 else 0)
    by (subst next; by rewrite nextTrack_index).
  assert (Hprev : previous = if 0 <? i then i - 1 else n - 1)
    by (subst previous; by rewrite previousTrack_index).
  split; [done|]. split; [done|].
  split; [rewrite Hnext; destruct (i <? n - 1) eqn:E; lia|].
  split; [rewrite Hprev; destruct (0 <? i) eqn:E; lia|].
  intros r2 r3 Hn3 Hi0.
  assert (H1 : currentTrackIndex (player (nextTrack r w)) = 1).
  { fold next. by rewrite Hnext, Hn3, Hi0. }
  assert (H2 : currentTrackIndex (player (nextTrack r2 (nextTrack r w))) = 2).
  { rewrite nextTrack_index; rewrite nextTrack_tracks; [|done].
    fold n. by rewrite H1, Hn3. }
  split; [done|].
  rewrite nextTrack_index; rewrite !nextTrack_tracks; [|done].
  fold n. by rewrite H2, Hn3.
Qed.

Lemma navigation_wraps_witness :
  let w := Demo.three_tracks in
  tracks w = [Demo.trackA; Demo.trackB; Demo.trackC] /\
  currentTrackIndex (player w) = 0 /\
  currentTrackIndex (player (nextTrack true (nextTrack true w))) = 2 /\
  currentTrackIndex
    (player (nextTrack true (nextTrack true (nextTrack true w)))) = 0.
Proof.
  intros w.
  split; [reflexivity|]. split; [reflexivity|].
  assert (Hn : 0 < Z.of_nat (length (tracks w))) by (vm_compute; reflexivity).
  assert (Hi : 0 <= currentTrackIndex (player w) < Z.of_nat (length (tracks w)))
    by (vm_compute; split; congruence).
  destruct (navigation_wraps w true Hn Hi) as (_ & _ & _ & _ & Hscenario).
  apply Hscenario; reflexivity.
Defined.

(** C10.  [loadTrack] at an index that holds no track, below 0 or at or
    beyond the length (any index when the playlist is empty), returns
    the state it was given: source, current index, playing flag and
    displayed track text are all as before.  [getCurrentTrack] is
    [null] exactly when the current index is outside the playlist. *)
Theorem loadTrack_without_track (w : world) (r : bool) (index : Z) :
  let n := Z.of_nat (length (tracks w)) in
  let i := currentTrackIndex (player w) in
  (index < 0 \/ n <= index -> loadTrack r index w = w) /\
  (getCurrentTrack w = None <-> (i < 0 \/ n <= i)).
Proof.
  intros n i. split.
  - intros H. apply loadTrack_missing. by apply at_index_None.
  - unfold getCurrentTrack. apply at_index_None.
Qed.

Lemma loadTrack_without_track_witness :
  loadTrack true 3 Demo.three_tracks = Demo.three_tracks /\
  loadTrack true 0 Demo.empty_player = Demo.empty_player.
Proof.
  split.
  - apply (loadTrack_without_track Demo.three_tracks true 3).
    right. vm_compute. congruence.
  - apply (loadTrack_without_track Demo.empty_player true 0).
    right. vm_compute. congruence.
Defined.

End PlayerNavigation.

(** ** The player: the playlist invariant *)

Section PlayerInvariant.

Import AudioPlayer Properties.

Lemma loadTrack_same_or_valid r i w :
  loadTrack r i w = w \/ index_valid (loadTrack r i w).
Proof.
  destruct (at_index (tracks w) i) eqn:E.
  - right. unfold index_valid. rewrite loadTrack_tracks.
    destruct (loadTrack_found r _ _ _ E) as [-> _].
    apply at_index_range. eauto.
  - left. by apply loadTrack_missing.
Qed.

Lemma loadTrack_invariant r i w : invariant w -> invariant (loadTrack r i w).
Proof.
  intros H.
  destruct (loadTrack_same_or_valid r i w) as [-> | Hv]; [done | by left].
Qed.

Lemma nextTrack_invariant r w : invariant w -> invariant (nextTrack r w).
Proof.
  intros [Hv | Hs].
  - left. unfold index_valid in *. rewrite nextTrack_tracks.
    assert (tracks w <> []) by (intros E; rewrite E in Hv; simpl in Hv; lia).
    rewrite nextTrack_index by done. unfold next_index.
    destruct (_ <? _) eqn:E; lia.
  - unfold nextTrack. destruct (tracks w); [by right|].
    apply loadTrack_invariant. right. destruct Hs. by split.
Qed.

Lemma previousTrack_invariant r w : invariant w -> invariant (previousTrack r w).
Proof.
  intros [Hv | Hs].
  - left. unfold index_valid in *. rewrite previousTrack_tracks.
    assert (tracks w <> []) by (intros E; rewrite E in Hv; simpl in Hv; lia).
    rewrite previousTrack_index by done. unfold previous_index.
    destruct (_ <? _) eqn:E; lia.
  - unfold previousTrack. destruct (tracks w); [by right|].
    apply loadTrack_invariant. right. destruct Hs. by split.
Qed.



Lemma setPlaylist_playlist r l w :
  playlist (player (setPlaylist r l w)) = l.
Proof.
  unfold setPlaylist.
  destruct (arr _ _); [done|]. destruct (src_is_empty _); [|done].
  by rewrite loadTrack_playlist.
Qed.


(** The player's own removal takes exactly the addressed track out of
    the array it holds. *)
Lemma removeFromPlaylist_tracks index w :
  tracks (removeFromPlaylist index w) = splice1 index (tracks w).
Proof.
  unfold removeFromPlaylist, tracks.
  destruct (index =? _); [|destruct (index <? _)]; simpl; by rewrite arr_insert.
Qed.

Lemma removeFromPlaylist_playlist index w :
  playlist (player (removeFromPlaylist index w)) = playlist (player w).
Proof.
  unfold removeFromPlaylist.
  destruct (index =? _); [|destruct (index <? _)]; done.
Qed.


(** The source it clears is the attribute: the [src] property then
    reads back an address, and the program's own test does not find
    the player empty. *)
Lemma removeFromPlaylist_current_src w :
  let w' := removeFromPlaylist (currentTrackIndex (player w)) w in
  audio_src (player w') = [] /\ src_is_empty (player w') = false.
Proof. unfold removeFromPlaylist. rewrite Z.eqb_refl. done. Qed.







End PlayerInvariant.

(** ** The player: volume and seeking *)

Section PlayerBars.

Import AudioPlayer.

Lemma div_positive (a b : Q) : (0 < b)%Q -> div a b = Fin (a / b).
Proof.
  intros Hb. unfold div.
  destruct (Qeq_bool b 0) eqn:E; [|done].
  apply Qeq_bool_iff in E. rewrite E in Hb. by apply Qlt_irrefl in Hb.
Qed.

Lemma clamp_unit (q : Q) :
  exists v, max_with 0 (min_with 1 (Fin q)) = Fin v /\ (0 <= v <= 1)%Q.
Proof.
  simpl. destruct (Qle_bool q 1) eqn:E1.
  - destruct (Qle_bool 0 q) eqn:E2.
    + exists q. split; [done|]. split; by apply Qle_bool_iff.
    + exists 0%Q. split; [done|]. split; [apply Qle_refl | done].
  - exists 1%Q. split; [done|]. split; done.
Qed.

(** [setVolume] clamps: on a bar of positive width, wherever the
    pointer is, the player volume and the element volume are the same
    fraction in [0, 1]. *)
Lemma setVolume_clamps (event : PointerEvent) (w : world) :
  (0 < width (volumeBar (player w)))%Q ->
  exists v, (0 <= v <= 1)%Q /\
    volume (player (setVolume event w)) = Fin v /\
    audio_volume (player (setVolume event w)) = Fin v.
Proof.
  intros Hw. unfold setVolume. rewrite div_positive by done.
  destruct (clamp_unit ((clientX event - left (volumeBar (player w)))
                        / width (volumeBar (player w)))) as (v & -> & Hv).
  exists v. split; [done|]. simpl. done.
Qed.

(** C3, what [seekTo] does.  On a bar of positive width and a loaded
    source of duration [d > 0], [seekTo] assigns a position to the audio
    element for every pointer position, and the fraction is not
    clamped: a pointer left of the bar gives a negative position, a
    pointer right of it a position beyond [d]. *)
Theorem seekTo_not_clamped (event : PointerEvent) (w : world) (d : Q) :
  let rect := progressBar (player w) in
  (0 < width rect)%Q ->
  audio_duration (player w) = Fin d -> (0 < d)%Q ->
  exists t, audio_currentTime (player (seekTo event w)) = Fin t /\
    (clientX event < left rect -> t < 0)%Q /\
    (left rect + width rect < clientX event -> d < t)%Q.
Proof.
  intros rect Hw Hd Hpos. unfold seekTo. fold rect.
  rewrite div_positive by done. rewrite Hd. simpl.
  eexists. split; [reflexivity|].
  set (x := clientX event). set (l := left rect). set (wd := width rect) in *.
  split; intros H.
  - assert (H1 : ((x - l) / wd < 0)%Q) by (apply Qlt_shift_div_r; [done | lra]).
    revert H1. generalize ((x - l) / wd)%Q. intros p Hp. nra.
  - assert (H1 : (1 < (x - l) / wd)%Q) by (apply Qlt_shift_div_l; [done | lra]).
    revert H1. generalize ((x - l) / wd)%Q. intros p Hp. nra.
Qed.

Lemma seekTo_not_clamped_witness :
  exists t,
    audio_currentTime (player (seekTo Demo.left_of_bar Demo.playing_last)) = Fin t /\
    (t < 0)%Q.
Proof.
  destruct (seekTo_not_clamped Demo.left_of_bar Demo.playing_last 195)
    as (t & Ht & Hleft & _).
  - vm_compute. reflexivity.
  - reflexivity.
  - vm_compute. reflexivity.
  - exists t. split; [exact Ht|]. apply Hleft. vm_compute. reflexivity.
Defined.

(** The same input, evaluated: a quarter of the duration before 0. *)
Example seekTo_left_of_bar :
  exists t,
    audio_currentTime (player (seekTo Demo.left_of_bar Demo.playing_last)) = Fin t /\
    (t == - (195 # 4))%Q.
Proof. eexists. split; [vm_compute; reflexivity | reflexivity]. Qed.

(** And [setVolume] there: the volume is 0, not negative. *)
Example setVolume_left_of_bar :
  exists v,
    volume (player (setVolume Demo.left_of_bar Demo.playing_last)) = Fin v /\
    audio_volume (player (setVolume Demo.left_of_bar Demo.playing_last)) = Fin v /\
    (v == 0)%Q.
Proof. eexists. repeat split; vm_compute; reflexivity. Qed.

End PlayerBars.

(** ** The playlist manager: the shared array, removal and search *)

Section Playlist.

Import PlaylistManager Properties.

Variable toLowerCase : jsstring -> jsstring.

Lemma updateFilteredPlaylist_rest a :
  audioPlayer (updateFilteredPlaylist toLowerCase a) = audioPlayer a /\
  playlist (manager (updateFilteredPlaylist toLowerCase a)) = playlist (manager a) /\
  searchTerm (manager (updateFilteredPlaylist toLowerCase a)) = searchTerm (manager a) /\
  revoked (updateFilteredPlaylist toLowerCase a) = revoked a /\
  stored (updateFilteredPlaylist toLowerCase a) = stored a.
Proof.
  unfold updateFilteredPlaylist.
  destruct (searchTerm (manager a)) eqn:E; repeat split; simpl; congruence.
Qed.

(** After files are added, the player holds the manager's own array. *)
Lemma addFilesToPlaylist_shares now createObjectURL r files a :
  shared (addFilesToPlaylist toLowerCase now createObjectURL r files a).
Proof.
  unfold shared, addFilesToPlaylist. simpl.
  rewrite setPlaylist_playlist.
  by destruct (updateFilteredPlaylist_rest (write_playlist
    (tracks a ++ imap (fun index file =>
       mkTrack (now index + Z.of_nat index)
         (extractTrackName (file_name file)) (extractArtistName (file_name file))
         (createObjectURL file) (Fin 0)) files) a)) as (_ & -> & _).
Qed.

Lemma revoke_if_blob_rest t a :
  audioPlayer (revoke_if_blob t a) = audioPlayer a /\
  manager (revoke_if_blob t a) = manager a.
Proof. unfold revoke_if_blob. by destruct (startsWith _ _). Qed.

(** On a shared array the two [splice] calls of [removeTrack], the
    player's and the manager's, both land on it. *)
Lemma removeTrack_tracks index a t :
  shared a -> at_index (tracks a) index = Some t ->
  tracks (removeTrack toLowerCase index a) = splice1 index (splice1 index (tracks a)) /\
  shared (removeTrack toLowerCase index a).
Proof.
  intros Hsh Hat. unfold removeTrack. rewrite Hat.
  set (a1 := revoke_if_blob t a).
  destruct (revoke_if_blob_rest t a) as [Hp Hm]. fold a1 in Hp, Hm.
  set (a2 := on_player (AudioPlayer.removeFromPlaylist index) a1).
  assert (Hm2 : manager a2 = manager a) by done.
  assert (Hpl2 : AudioPlayer.playlist (AudioPlayer.player (audioPlayer a2))
                 = playlist (manager a)).
  { unfold a2, on_player. cbn [audioPlayer].
    rewrite Hp, removeFromPlaylist_playlist. exact Hsh. }
  assert (Ht2 : tracks a2 = splice1 index (tracks a)).
  { unfold tracks at 1. unfold the_heap. rewrite Hm2, <- Hpl2.
    unfold a2. simpl. rewrite Hp.
    change (arr _ _)
      with (AudioPlayer.tracks (AudioPlayer.removeFromPlaylist index (audioPlayer a))).
    rewrite removeFromPlaylist_tracks. unfold AudioPlayer.tracks, tracks, the_heap.
    by rewrite Hsh. }
  set (a3 := write_playlist (splice1 index (tracks a2)) a2).
  assert (Ht3 : tracks a3 = splice1 index (splice1 index (tracks a))).
  { unfold a3, tracks at 1, write_playlist, the_heap. simpl.
    rewrite arr_insert. by rewrite Ht2. }
  destruct (updateFilteredPlaylist_rest a3) as (H1 & H2 & _).
  split.
  - unfold tracks at 1, the_heap. simpl. rewrite H1, H2. exact Ht3.
  - unfold shared. simpl. rewrite H1, H2.
    change (AudioPlayer.playlist (AudioPlayer.player (audioPlayer a2))
            = playlist (manager a2)).
    by rewrite Hpl2, Hm2.
Qed.

(** C2, what [removeTrack] does.  When the manager and the player hold
    the same array, as they do once files were added, removing the
    track at [index] removes the track after it as well, whenever there
    is one: the playlist keeps what was before [index] and what was
    from [index + 2] on. *)
Theorem removeTrack_splices_twice (index : Z) (a : app) :
  shared a ->
  0 <= index -> index + 1 < Z.of_nat (length (tracks a)) ->
  tracks (removeTrack toLowerCase index a) =
    take (Z.to_nat index) (tracks a) ++ drop (Z.to_nat index + 2) (tracks a).
Proof.
  intros Hsh H0 Hlen.
  destruct (proj2 (at_index_range (tracks a) index)) as [t Ht]; [lia|].
  destruct (removeTrack_tracks index a t Hsh Ht) as [-> _].
  rewrite (splice1_in_range (tracks a)) by lia.
  rewrite splice1_in_range.
  2:{ rewrite length_app, length_take, length_drop. lia. }
  rewrite take_app_le by (rewrite length_take; lia).
  rewrite take_take, Nat.min_id.
  rewrite drop_app_ge by (rewrite length_take; lia).
  rewrite length_take, drop_drop. f_equal. f_equal. lia.
Qed.

(** Were the two arrays distinct, [removeTrack] would remove exactly
    the addressed track from the manager's playlist. *)
Lemma removeTrack_unshared index a t :
  ~ shared a -> at_index (tracks a) index = Some t ->
  tracks (removeTrack toLowerCase index a) = splice1 index (tracks a).
Proof.
  intros Hsh Hat. unfold removeTrack. rewrite Hat.
  set (a1 := revoke_if_blob t a).
  destruct (revoke_if_blob_rest t a) as [Hp Hm]. fold a1 in Hp, Hm.
  set (a2 := on_player (AudioPlayer.removeFromPlaylist index) a1).
  assert (Hm2 : manager a2 = manager a) by done.
  assert (Ht2 : tracks a2 = tracks a).
  { unfold tracks, the_heap. rewrite Hm2.
    unfold a2, on_player. cbn [audioPlayer]. rewrite Hp.
    unfold AudioPlayer.removeFromPlaylist.
    destruct (index =? _); [|destruct (index <? _)]; simpl;
      by rewrite arr_insert_ne. }
  set (a3 := write_playlist (splice1 index (tracks a2)) a2).
  assert (Ht3 : tracks a3 = splice1 index (tracks a)).
  { unfold a3, tracks at 1, write_playlist, the_heap. simpl.
    rewrite arr_insert. by rewrite Ht2. }
  destruct (updateFilteredPlaylist_rest a3) as (H1 & H2 & _).
  unfold tracks at 1, the_heap. simpl. rewrite H1, H2. exact Ht3.
Qed.

Lemma includes_empty (s : jsstring) : includes s [] = true.
Proof. destruct s; reflexivity. Qed.








End Playlist.

Lemma removeTrack_splices_twice_witness :
  map name (PlaylistManager.tracks Demo.three_files)
  = [str "Bohemian Rhapsody"; str "track02"; str "Feeling Good"] /\
  map name (PlaylistManager.tracks
              (PlaylistManager.removeTrack Demo.ascii_lower 0 Demo.three_files))
  = [str "Feeling Good"].
Proof.
  split; [vm_compute; reflexivity|].
  rewrite (removeTrack_splices_twice Demo.ascii_lower 0 Demo.three_files).
  - vm_compute. reflexivity.
  - vm_compute. reflexivity.
  - lia.
  - vm_compute. reflexivity.
Defined.

(** What the double removal does to the player: while the third of
    three files plays, removing the first leaves one track and the
    current index at 1, with playback going on. *)
Example removeTrack_leaves_index_out_of_range :
  let a' := PlaylistManager.removeTrack Demo.ascii_lower 0 Demo.playing_third in
  Properties.invariant (PlaylistManager.audioPlayer Demo.playing_third) /\
  length (PlaylistManager.tracks a') = 1%nat /\
  AudioPlayer.currentTrackIndex
    (AudioPlayer.player (PlaylistManager.audioPlayer a')) = 1 /\
  AudioPlayer.isPlaying
    (AudioPlayer.player (PlaylistManager.audioPlayer a')) = true /\
  ~ Properties.invariant (PlaylistManager.audioPlayer a').
Proof.
  split; [left; vm_compute; split; congruence|].
  split; [vm_compute; reflexivity|].
  split; [vm_compute; reflexivity|].
  split; [vm_compute; reflexivity|].
  intros [[_ Hv] | [Hp _]].
  - vm_compute in Hv. congruence.
  - vm_compute in Hp. congruence.
Qed.

(** [clearPlaylist] installs an empty playlist through [setPlaylist]
    and leaves a playing player playing. *)
Example clearPlaylist_keeps_playing :
  let a' := PlaylistManager.clearPlaylist true Demo.playing_third in
  PlaylistManager.tracks a' = [] /\
  AudioPlayer.tracks (PlaylistManager.audioPlayer a') = [] /\
  AudioPlayer.isPlaying
    (AudioPlayer.player (PlaylistManager.audioPlayer a')) = true /\
  ~ Properties.invariant (PlaylistManager.audioPlayer a').
Proof.
  split; [vm_compute; reflexivity|].
  split; [vm_compute; reflexivity|].
  split; [vm_compute; reflexivity|].
  intros [[_ Hv] | [Hp _]].
  - vm_compute in Hv. congruence.
  - vm_compute in Hp. congruence.
Qed.




(** ** Strings: occurrences, [split] and [join] *)

Section Strings.

Lemma startsWith_app (s p : jsstring) :
  startsWith s p = true <-> s = p ++ drop (length p) s.
Proof.
  revert s. induction p as [|c p IH]; intros s; simpl.
  - destruct s; simpl; split; done.
  - destruct s as [|c' s]; simpl; [split; done|].
    rewrite andb_true_iff, N.eqb_eq, IH. split.
    + intros [-> H]. by f_equal.
    + intros H. injection H as -> H. done.
Qed.

Lemma startsWith_prefix (p r : jsstring) : startsWith (p ++ r) p = true.
Proof.
  induction p as [|c p IH]; simpl; [by destruct r|].
  by rewrite N.eqb_refl, IH.
Qed.

(** [includes] holds exactly when there is a first occurrence. *)
Lemma includes_cut (s sep : jsstring) :
  includes s sep = match cut sep s with Some _ => true | None => false end.
Proof.
  induction s as [|c s IH]; cbn [includes cut].
  - destruct (startsWith [] sep); done.
  - destruct (startsWith (c :: s) sep); [done|]. cbn [orb].
    rewrite IH. destruct (cut sep s) as [[? ?]|]; done.
Qed.

(** [cut] splits the string around an occurrence of the separator ... *)
Lemma cut_app (sep s before after : jsstring) :
  cut sep s = Some (before, after) -> s = before ++ sep ++ after.
Proof.
  revert before. induction s as [|c s IH]; intros before; cbn [cut].
  - destruct (startsWith [] sep) eqn:E; [|done].
    intros [= <- <-]. by apply startsWith_app in E.
  - destruct (startsWith (c :: s) sep) eqn:E.
    + intros [= <- <-]. by apply startsWith_app in E.
    + destruct (cut sep s) as [[b a]|]; [|done].
      intros [= <- <-]. simpl. f_equal. by apply IH.
Qed.

(** ... and that occurrence is the first one. *)
Lemma cut_first (sep s before after : jsstring) :
  cut sep s = Some (before, after) ->
  forall before' after', s = before' ++ sep ++ after' ->
    (length before <= length before')%nat.
Proof.
  revert before. induction s as [|c s IH]; intros before; cbn [cut].
  - destruct (startsWith [] sep); [|done]. intros [= <- <-] ? ? _. simpl. lia.
  - destruct (startsWith (c :: s) sep) eqn:E.
    + intros [= <- <-] ? ? _. simpl. lia.
    + destruct (cut sep s) as [[b a]|] eqn:Ec; [|done].
      intros [= <- <-] before' after' Hs.
      destruct before' as [|c' before']; simpl in Hs.
      * rewrite Hs in E. by rewrite startsWith_prefix in E.
      * injection Hs as -> Hs. simpl.
        specialize (IH b eq_refl before' after' Hs). lia.
Qed.

Lemma join_cons (p : jsstring) (rest : list jsstring) (sep : jsstring) :
  rest <> [] -> join (p :: rest) sep = p ++ sep ++ join rest sep.
Proof. by destruct rest. Qed.

Lemma split_rounds_nonempty n sep s : split_rounds n sep s <> [].
Proof. destruct n; simpl; [done|]. by destruct (cut sep s) as [[? ?]|]. Qed.

(** With as many rounds as the string is long, the pieces joined by the
    separator give the string back: no occurrence is left unsplit. *)
Lemma join_split_rounds (sep : jsstring) (n : nat) (s : jsstring) :
  sep <> [] -> (length s <= n)%nat -> join (split_rounds n sep s) sep = s.
Proof.
  intros Hsep. revert s. induction n as [|n IH]; intros s Hn; simpl; [done|].
  destruct (cut sep s) as [[b a]|] eqn:E; [|done].
  rewrite join_cons by apply split_rounds_nonempty.
  pose proof (cut_app _ _ _ _ E) as Hs.
  rewrite IH; [done|].
  rewrite Hs, !length_app in Hn. destruct sep; [done|]. simpl in Hn. lia.
Qed.

(** [split(sep)[0]] is the text before the first occurrence, and
    [split(sep).slice(1).join(sep)] the text after it. *)
Lemma split_at_first (sep s before after : jsstring) :
  sep <> [] -> cut sep s = Some (before, after) ->
  first_piece (split s sep) = before /\ join (slice1 (split s sep)) sep = after.
Proof.
  intros Hsep E. pose proof (cut_app _ _ _ _ E) as Hs.
  unfold split. destruct (length s) as [|n] eqn:Hlen.
  - rewrite Hs, !length_app in Hlen. destruct sep; [done|]. simpl in Hlen. lia.
  - simpl. rewrite E. simpl. split; [done|].
    unfold slice1. simpl. rewrite drop_0. apply join_split_rounds; [done|].
    rewrite Hs, !length_app in Hlen. destruct sep; [done|]. simpl in Hlen. lia.
Qed.

End Strings.

(** ** The playlist manager: names from file names *)

Section FileNames.

Import PlaylistManager.

Example names_of_artist_title :
  extractArtistName (str "Queen - Bohemian_Rhapsody.mp3") = str "Queen" /\
  extractTrackName (str "Queen - Bohemian_Rhapsody.mp3") = str "Bohemian Rhapsody".
Proof. split; vm_compute; reflexivity. Qed.

Example names_of_plain_file :
  extractArtistName (str "  track__02 .final.mp3") = str "Unknown Artist" /\
  extractTrackName (str "  track__02 .final.mp3") = str "track 02 .final".
Proof. split; vm_compute; reflexivity. Qed.

Example names_of_second_separator :
  extractArtistName (str "a - b - c.ogg") = str "a" /\
  extractTrackName (str "a - b - c.ogg") = str "b - c".
Proof. split; vm_compute; reflexivity. Qed.

Example names_of_bare_extension :
  extractArtistName (str ".mp3") = str "Unknown Artist" /\
  extractTrackName (str ".mp3") = str "Unknown Track".
Proof. split; vm_compute; reflexivity. Qed.

End FileNames.

(** ** The style customizer *)

Section Preferences.

Import StyleCustomizer.

Lemma stringify_to_object (p : Preferences) :
  JSON_parse (JSON_stringify (to_object p)) = to_object p.
Proof.
  unfold JSON_parse, JSON_stringify, to_object.
  rewrite !omap_insert_Some with (y := _) by reflexivity.
  rewrite omap_singleton_Some with (y := JNum (animationSpeed p)) by reflexivity.
  rewrite !fmap_insert, map_fmap_singleton. done.
Qed.

Lemma spread_to_object (p : Preferences) :
  spread getDefaultPreferences (to_object p) = to_object p.
Proof.
  unfold spread. apply map_eq. intros k.
  rewrite lookup_union.
  unfold to_object, getDefaultPreferences.
  destruct (decide (k = "theme")) as [->|]; [by simplify_map_eq|].
  destruct (decide (k = "playerSize")) as [->|]; [by simplify_map_eq|].
  destruct (decide (k = "background")) as [->|]; [by simplify_map_eq|].
  destruct (decide (k = "fontSize")) as [->|]; [by simplify_map_eq|].
  destruct (decide (k = "animationSpeed")) as [->|]; [by simplify_map_eq|].
  by simplify_map_eq.
Qed.

(** C6.  If the current preferences are a record [p] of the five
    fields when [saveToLocalStorage] runs, then [loadSavedPreferences],
    with nobody signed in, from any state whose local storage still
    holds what was saved, makes the current preferences [p] again,
    field by field. *)
Theorem preferences_round_trip (p : Preferences) (w w' : world) :
  currentPreferences w = to_object p ->
  storedPreferences w' = storedPreferences (saveToLocalStorage w) ->
  currentPreferences (loadSavedPreferences NoUser w') = to_object p.
Proof.
  intros Hp Hs. unfold loadSavedPreferences. rewrite Hs. simpl.
  by rewrite Hp, stringify_to_object, spread_to_object.
Qed.

Lemma preferences_round_trip_witness :
  currentPreferences Demo.customized = to_object Demo.chosen /\
  currentPreferences (loadSavedPreferences NoUser Demo.next_visit)
  = to_object Demo.chosen.
Proof.
  assert (H : currentPreferences Demo.customized = to_object Demo.chosen)
    by (vm_compute; reflexivity).
  split; [exact H|].
  apply (preferences_round_trip Demo.chosen Demo.customized Demo.next_visit H).
  reflexivity.
Defined.

(** The record of C6 has finite numbers.  A number that is not finite
    is written as [null] and comes back as [null]. *)
Remark non_finite_number_stored_as_null (w : world) :
  currentPreferences
    (loadSavedPreferences NoUser (saveToLocalStorage (updateFontSize NaN w)))
    !! "fontSize" = Some VNull.
Proof.
  unfold loadSavedPreferences, saveToLocalStorage, updateFontSize, spread. simpl.
  rewrite lookup_union.
  unfold JSON_parse, JSON_stringify.
  rewrite lookup_fmap, lookup_omap, lookup_insert_eq. reflexivity.
Qed.

(** C7.  Whatever the state before, after [resetToDefault] the current
    preferences are the compiled-in defaults. *)
Theorem resetToDefault_defaults (w : world) :
  currentPreferences (resetToDefault w) =
    {[ "theme" := VStr (str "default");
       "playerSize" := VStr (str "normal");
       "background" := VStr (str "solid");
       "fontSize" := VNum (Fin 16);
       "animationSpeed" := VNum (Fin 1) ]}.
Proof. reflexivity. Qed.

End Preferences.

(** ** The auth manager *)

Section Auth.

Import AuthManager.

Example emails_accepted :
  validateEmail (str "a@b.co") = true /\
  validateEmail (str "first.last@mail.example.org") = true.
Proof. split; vm_compute; reflexivity. Qed.

Example emails_refused :
  validateEmail (str "a@b") = false /\
  validateEmail (str "a b@c.d") = false /\
  validateEmail (str "a@@b.c") = false /\
  validateEmail (str "a@b.") = false /\
  validateEmail (str "@b.c") = false.
Proof. repeat split; vm_compute; reflexivity. Qed.

(** A notification changes the notifications and nothing else. *)
Lemma showToast_only_notifies msg type w :
  calls (showToast msg type w) = calls w /\
  toasts (showToast msg type w) = toasts w ++ [mkToast msg type] /\
  currentUser (showToast msg type w) = currentUser w /\
  isAuthModalOpen (showToast msg type w) = isAuthModalOpen w /\
  loginEmail (showToast msg type w) = loginEmail w /\
  loginPassword (showToast msg type w) = loginPassword w /\
  signupEmail (showToast msg type w) = signupEmail w /\
  signupPassword (showToast msg type w) = signupPassword w /\
  loading (showToast msg type w) = loading w.
Proof. repeat split. Qed.

(** C8, as the program has it.  Sign-in returns at once when the
    trimmed email does not match the pattern or the password is empty;
    sign-up returns at once when the trimmed email does not match the
    pattern or the password has fewer than 6 code units.  In each case
    the handler does nothing but show one error notification: no
    request reaches the provider and no other state changes. *)
Theorem invalid_input_rejected (result : ProviderResult) (w : world) :
  (validateEmail (trim (loginEmail w)) = false \/ loginPassword w = [] ->
   exists msg, handleLogin result w = showToast msg error w /\
               calls (handleLogin result w) = calls w) /\
  (validateEmail (trim (signupEmail w)) = false \/
   (length (signupPassword w) < 6)%nat ->
   exists msg, handleSignup result w = showToast msg error w /\
               calls (handleSignup result w) = calls w).
Proof.
  split; intros H.
  - unfold handleLogin. destruct (validateEmail (trim (loginEmail w))); simpl.
    + destruct H as [H | H]; [done|]. rewrite H. eauto.
    + eauto.
  - unfold handleSignup. destruct (validateEmail (trim (signupEmail w))); simpl.
    + destruct H as [H | H]; [done|].
      apply Nat.ltb_lt in H. rewrite H. eauto.
    + eauto.
Qed.

Lemma invalid_input_rejected_witness :
  calls (handleLogin Succeeded
           (Demo.login_form (str "not-an-email") (str "secret1"))) = [] /\
  calls (handleSignup Succeeded
           (Demo.signup_form (str "a@b.co") (str "abc"))) = [].
Proof.
  split.
  - destruct (invalid_input_rejected Succeeded
      (Demo.login_form (str "not-an-email") (str "secret1"))) as [H _].
    destruct H as (msg & _ & ->); [left; vm_compute; reflexivity | reflexivity].
  - destruct (invalid_input_rejected Succeeded
      (Demo.signup_form (str "a@b.co") (str "abc"))) as [_ H].
    destruct H as (msg & _ & ->); [right; vm_compute; lia | reflexivity].
Defined.

(** C8, as stated, fails for sign-in: with a well-formed email and the
    three-unit password "abc" the provider is called. *)
Lemma handleLogin_short_password_reaches_provider :
  ~ (forall (result : ProviderResult) (w : world),
       validateEmail (loginEmail w) = false \/
       (length (loginPassword w) < 6)%nat ->
       calls (handleLogin result w) = calls w).
Proof.
  intros H.
  specialize (H Succeeded (Demo.login_form (str "a@b.co") (str "abc"))).
  assert (Hshort : (length (loginPassword
             (Demo.login_form (str "a@b.co") (str "abc"))) < 6)%nat)
    by (vm_compute; lia).
  specialize (H (or_intror Hshort)).
  vm_compute in H. discriminate H.
Qed.

End Auth.

(** * Further properties of the code *)

(** ** Patterns: the matcher and what a pattern denotes *)

Section Patterns.

Import Coverage.

Lemma denotes_none_inv (s : jsstring) : ~ denotes RNone s.
Proof. inversion 1. Qed.

Lemma denotes_eps_inv (s : jsstring) : denotes REps s <-> s = [].
Proof. split; [by inversion 1 | intros ->; constructor]. Qed.

Lemma denotes_class_inv (p : N -> bool) (s : jsstring) :
  denotes (RClass p) s <-> exists c, s = [c] /\ p c = true.
Proof.
  split; [inversion 1; subst; eauto|].
  intros (c & -> & H). by constructor.
Qed.

Lemma denotes_seq_inv (r1 r2 : regex) (s : jsstring) :
  denotes (RSeq r1 r2) s <->
  exists s1 s2, s = s1 ++ s2 /\ denotes r1 s1 /\ denotes r2 s2.
Proof.
  split; [inversion 1; subst; eauto|].
  intros (s1 & s2 & -> & H1 & H2). by constructor.
Qed.

Lemma denotes_alt_inv (r1 r2 : regex) (s : jsstring) :
  denotes (RAlt r1 r2) s <-> denotes r1 s \/ denotes r2 s.
Proof.
  split; [inversion 1; subst; eauto|].
  intros [H|H]; [by apply denotes_alt_l | by apply denotes_alt_r].
Qed.

Lemma nullable_denotes (r : regex) : nullable r = true <-> denotes r [].
Proof.
  induction r as [| |p|r1 IH1 r2 IH2|r1 IH1 r2 IH2|r IH]; simpl.
  - split; [done | intros H; by apply denotes_none_inv in H].
  - split; [constructor | done].
  - split; [done|]. rewrite denotes_class_inv. intros (c & H & _). done.
  - rewrite andb_true_iff, IH1, IH2, denotes_seq_inv. split.
    + intros [H1 H2]. by exists [], [].
    + intros (s1 & s2 & Heq & H1 & H2).
      symmetry in Heq. apply app_eq_nil in Heq as [-> ->]. done.
  - by rewrite orb_true_iff, IH1, IH2, denotes_alt_inv.
  - split; [constructor | done].
Qed.

Lemma denotes_star_cons_inv (r : regex) (c : N) (s : jsstring) :
  denotes (RStar r) (c :: s) ->
  exists s1 s2, s = s1 ++ s2 /\ denotes r (c :: s1) /\ denotes (RStar r) s2.
Proof.
  intros H. remember (RStar r) as r' eqn:Er. remember (c :: s) as t eqn:Et.
  revert s Et. induction H as [| | | | | |r0 s1 s2 H1 _ H2 IH2];
    intros u Et; try discriminate.
  injection Er as ->.
  destruct s1 as [|c1 s1]; simpl in Et.
  - by apply IH2.
  - injection Et as -> <-. eauto.
Qed.

Lemma deriv_denotes (r : regex) (c : N) (s : jsstring) :
  denotes (deriv c r) s <-> denotes r (c :: s).
Proof.
  revert s. induction r as [| |p|r1 IH1 r2 IH2|r1 IH1 r2 IH2|r IH]; intros s; simpl.
  - split; intros H; by apply denotes_none_inv in H.
  - split; intros H; [by apply denotes_none_inv in H | by apply denotes_eps_inv in H].
  - rewrite denotes_class_inv. destruct (p c) eqn:Ep.
    + rewrite denotes_eps_inv. split.
      * intros ->. eauto.
      * intros (c' & [= <- ->] & _). done.
    + split; [intros H; by apply denotes_none_inv in H|].
      intros (c' & [= <- ->] & H). congruence.
  - assert (Hseq : denotes (RSeq r1 r2) (c :: s) <->
              denotes (RSeq (deriv c r1) r2) s \/
              (denotes r1 [] /\ denotes r2 (c :: s))).
    { rewrite !denotes_seq_inv. split.
      - intros (s1 & s2 & Heq & H1 & H2). destruct s1 as [|c1 s1]; simpl in Heq.
        + right. by subst.
        + injection Heq as <- ->. left. exists s1, s2. by rewrite IH1.
      - intros [(s1 & s2 & -> & H1 & H2) | [H1 H2]].
        + exists (c :: s1), s2. by rewrite <- IH1.
        + by exists [], (c :: s). }
    rewrite Hseq. destruct (nullable r1) eqn:En.
    + rewrite denotes_alt_inv, IH2.
      assert (denotes r1 []) by by apply nullable_denotes. tauto.
    + assert (~ denotes r1 []) by (rewrite <- nullable_denotes; congruence). tauto.
  - by rewrite !denotes_alt_inv, IH1, IH2.
  - rewrite denotes_seq_inv. split.
    + intros (s1 & s2 & -> & H1 & H2).
      apply IH in H1. apply (denotes_star_cons _ (c :: s1) s2 H1 H2).
    + intros H. apply denotes_star_cons_inv in H as (s1 & s2 & -> & H1 & H2).
      exists s1, s2. by rewrite IH.
Qed.

(** The matcher decides what the pattern denotes. *)
Lemma matches_denotes (r : regex) (s : jsstring) :
  matches r s = true <-> denotes r s.
Proof.
  revert r. induction s as [|c s IH]; intros r; simpl.
  - apply nullable_denotes.
  - rewrite IH. apply deriv_denotes.
Qed.

Lemma denotes_star_class (p : N -> bool) (s : jsstring) :
  denotes (RStar (RClass p)) s <-> all_in p s.
Proof.
  split.
  - intros H. remember (RStar (RClass p)) as r eqn:Er.
    induction H as [| | | | | |r0 s1 s2 H1 _ H2 IH2]; try discriminate.
    + constructor.
    + injection Er as ->. apply denotes_class_inv in H1 as (c & -> & Hc).
      constructor; [done | by apply IH2].
  - induction 1 as [|c s Hc _ IH]; [constructor|].
    apply (denotes_star_cons _ [c] s); [by constructor | done].
Qed.

Lemma denotes_plus_class (p : N -> bool) (s : jsstring) :
  denotes (RPlus (RClass p)) s <-> s <> [] /\ all_in p s.
Proof.
  unfold RPlus. rewrite denotes_seq_inv. split.
  - intros (s1 & s2 & -> & H1 & H2).
    apply denotes_class_inv in H1 as (c & -> & Hc). split; [done|].
    constructor; [done | by apply denotes_star_class].
  - intros [Hne Hall]. destruct Hall as [|c s Hc Hs]; [done|].
    exists [c], s. split; [done|]. split; [by constructor | by apply denotes_star_class].
Qed.

Lemma denotes_char (a : ascii) (s : jsstring) :
  denotes (RChar a) s <-> s = [code a].
Proof.
  unfold RChar. rewrite denotes_class_inv. split.
  - intros (c & -> & Hc). by apply N.eqb_eq in Hc as ->.
  - intros ->. exists (code a). split; [done | apply N.eqb_refl].
Qed.

End Patterns.

(** ** The email pattern *)

Section EmailShape.

Import Coverage.

(** The strings the email pattern matches, part by part. *)
Lemma validateEmail_parts (email : jsstring) :
  AuthManager.validateEmail email = true <->
  exists local domain tld,
    email = local ++ code "@" :: domain ++ code "." :: tld /\
    local <> [] /\ domain <> [] /\ tld <> [] /\
    all_in AuthManager.plain local /\
    all_in AuthManager.plain domain /\
    all_in AuthManager.plain tld.
Proof.
  unfold AuthManager.validateEmail, AuthManager.emailRegex.
  rewrite matches_denotes, denotes_seq_inv. split.
  - intros (a & s2 & -> & Ha & H2).
    apply denotes_seq_inv in H2 as (at' & s3 & -> & Hat & H3).
    apply denotes_seq_inv in H3 as (b & s4 & -> & Hb & H4).
    apply denotes_seq_inv in H4 as (dot & c & -> & Hdot & Hc).
    apply denotes_char in Hat as ->. apply denotes_char in Hdot as ->.
    apply denotes_plus_class in Ha as [? ?].
    apply denotes_plus_class in Hb as [? ?].
    apply denotes_plus_class in Hc as [? ?].
    exists a, b, c. done.
  - intros (a & b & c & -> & Ha & Hb & Hc & Pa & Pb & Pc).
    exists a, (code "@" :: b ++ code "." :: c). split; [done|].
    split; [by apply denotes_plus_class|].
    apply denotes_seq_inv. exists [code "@"], (b ++ code "." :: c).
    split; [done|]. split; [by apply denotes_char|].
    apply denotes_seq_inv. exists b, (code "." :: c).
    split; [done|]. split; [by apply denotes_plus_class|].
    apply denotes_seq_inv. exists [code "."], c.
    split; [done|]. split; [by apply denotes_char | by apply denotes_plus_class].
Qed.

(** X1.  [validateEmail] accepts exactly the strings made of a local
    part, [@], a domain, a dot and a last part, where the three parts
    are not empty and hold neither white space nor [@]. *)
Theorem validateEmail_shape (email : jsstring) :
  AuthManager.validateEmail email = true <->
  exists local domain tld,
    email = local ++ code "@" :: domain ++ code "." :: tld /\
    local <> [] /\ domain <> [] /\ tld <> [] /\
    all_in AuthManager.plain local /\
    all_in AuthManager.plain domain /\
    all_in AuthManager.plain tld.
Proof. exact (validateEmail_parts email). Qed.

Lemma plain_units (s : jsstring) :
  all_in AuthManager.plain s ->
  at_signs s = 0%nat /\ Forall (fun c => isWhiteSpace c = false) s.
Proof.
  unfold at_signs.
  induction 1 as [|c s Hc _ [IH1 IH2]]; [done|]. cbn [List.filter].
  unfold AuthManager.plain in Hc. apply negb_true_iff, orb_false_iff in Hc as [Hw Ha].
  rewrite Ha. split; [done | by constructor].
Qed.

(** X2.  An accepted email holds no white space anywhere and exactly
    one [@], which is neither its first nor its last unit; it has at
    least five units. *)
Theorem validateEmail_accepts_only (email : jsstring) :
  AuthManager.validateEmail email = true ->
  Forall (fun c => isWhiteSpace c = false) email /\
  at_signs email = 1%nat /\
  (5 <= length email)%nat /\
  (forall c, head email = Some c -> c <> code "@") /\
  (forall c, last email = Some c -> c <> code "@").
Proof.
  intros H. apply validateEmail_parts in H
    as (a & b & c & -> & Ha & Hb & Hc & Pa & Pb & Pc).
  destruct (plain_units a Pa) as [Aa Wa].
  destruct (plain_units b Pb) as [Ab Wb].
  destruct (plain_units c Pc) as [Ac Wc].
  split; [|split; [|split; [|split]]].
  - apply Forall_app. split; [done|]. constructor; [done|].
    apply Forall_app. split; [done|]. by constructor.
  - unfold at_signs in *. rewrite List.filter_app, length_app.
    cbn [List.filter]. rewrite N.eqb_refl. cbn [length].
    rewrite List.filter_app, length_app. cbn [List.filter].
    replace (code "." =? code "@")%N with false by reflexivity. lia.
  - rewrite length_app. cbn [length]. rewrite length_app. cbn [length].
    destruct a; [done|]. destruct b; [done|]. destruct c; [done|]. simpl. lia.
  - destruct a as [|x a]; [done|]. intros ? [= <-].
    inversion Pa as [|? ? Hx _]; subst. unfold AuthManager.plain in Hx.
    apply negb_true_iff, orb_false_iff in Hx as [_ Hx]. by apply N.eqb_neq in Hx.
  - intros x Hx.
    assert (Hl : last c = Some x).
    { rewrite last_app_cons, app_comm_cons, last_app_cons in Hx.
      destruct c as [|c0 c]; [done|]. by rewrite last_cons_cons in Hx. }
    apply last_Some in Hl as [l' ->].
    apply Forall_app in Pc as [_ Pc]. inversion Pc as [|? ? Hp _]; subst.
    unfold AuthManager.plain in Hp.
    apply negb_true_iff, orb_false_iff in Hp as [_ Hp]. by apply N.eqb_neq in Hp.
Qed.
End EmailShape.

Lemma validateEmail_accepts_only_witness :
  AuthManager.validateEmail (str "a@b.co") = true /\
  Coverage.at_signs (str "a@b.co") = 1%nat /\
  Forall (fun c => isWhiteSpace c = false) (str "a@b.co").
Proof.
  assert (H : AuthManager.validateEmail (str "a@b.co") = true)
    by (vm_compute; reflexivity).
  destruct (validateEmail_accepts_only (str "a@b.co") H) as (Hw & Ha & _).
  split; [exact H|]. split; [exact Ha | exact Hw].
Defined.

(** ** The extension pattern *)

Section Extension.

Import Coverage PlaylistManager.

Lemma matches_extension (s : jsstring) :
  matches extension s = true <-> has_extension s [].
Proof.
  unfold extension, has_extension.
  change (RClass _) with (RClass extension_unit).
  rewrite matches_denotes, denotes_seq_inv. split.
  - intros (dot & ext & -> & Hdot & Hext).
    apply denotes_char in Hdot as ->. apply denotes_plus_class in Hext as [? ?].
    by exists ext.
  - intros (ext & -> & Hne & Hall). exists [code "."], ext.
    split; [done|]. split; [by apply denotes_char | by apply denotes_plus_class].
Qed.

(** The replacement at the end of a file name, by cases. *)
Lemma replace_extension (filename : jsstring) :
  let base := replace_at_end extension [] filename in
  has_extension filename base \/
  (base = filename /\ forall b, ~ has_extension filename b).
Proof.
  cbv zeta. induction filename as [|c s IH]; cbn [replace_at_end].
  - destruct (matches extension []) eqn:E; [by vm_compute in E|].
    right. split; [done|]. intros b (ext & H & _). by destruct b.
  - destruct (matches extension (c :: s)) eqn:E.
    + left. by apply matches_extension.
    + destruct IH as [(ext & Hs & Hne & Hall) | [Hbase Hnone]].
      * left. exists ext. split; [|done]. simpl. by f_equal.
      * right. rewrite Hbase. split; [done|].
        intros b (ext & Hs & Hne & Hall). destruct b as [|c' b]; simpl in Hs.
        -- assert (matches extension (c :: s) = true); [|congruence].
           apply matches_extension. by exists ext.
        -- injection Hs as -> Hs. apply (Hnone b). by exists ext.
Qed.

(** X3.  What [replace(/\.[^/.]+$/, '')] leaves of a file name: if the
    name ends in a dot followed by one or more units other than [/] and
    [.], the result is what precedes that dot; if the name has no such
    ending, it is returned unchanged. *)
Theorem extension_removed (filename : jsstring) :
  let base := replace_at_end extension [] filename in
  has_extension filename base \/
  (base = filename /\ forall b, ~ has_extension filename b).
Proof. exact (replace_extension filename). Qed.

End Extension.

(** ** Cleaned names *)

Section TidyNames.

Import Coverage PlaylistManager.

Lemma space_is_white : isWhiteSpace (code " ") = true.
Proof. reflexivity. Qed.

Lemma underscore_not_white : isWhiteSpace (code "_") = false.
Proof. reflexivity. Qed.

Lemma single_spaced_weaken b s :
  single_spaced true s = true -> single_spaced b s = true.
Proof.
  destruct s as [|c s]; [done|]. simpl.
  destruct (isWhiteSpace c); [|done]. by rewrite andb_false_r.
Qed.

Lemma single_spaced_units b s c :
  single_spaced b s = true -> c ∈ s -> isWhiteSpace c = true -> c = code " ".
Proof.
  revert b. induction s as [|x s IH]; intros b H Hin Hw; [by apply elem_of_nil in Hin|].
  simpl in H. apply elem_of_cons in Hin as [-> | Hin].
  - rewrite Hw in H. apply andb_true_iff in H as [H _].
    apply andb_true_iff in H as [H _]. by apply N.eqb_eq in H.
  - destruct (isWhiteSpace x).
    + apply andb_true_iff in H as [_ H]. by apply (IH true).
    + by apply (IH false).
Qed.

Lemma single_spaced_adjacent b s i c d :
  single_spaced b s = true -> s !! i = Some c -> s !! S i = Some d ->
  isWhiteSpace c = true -> isWhiteSpace d = false.
Proof.
  revert b i. induction s as [|x s IH]; intros b i H Hc Hd Hw; [done|].
  simpl in H. destruct i as [|i].
  - injection Hc as ->. rewrite Hw in H. apply andb_true_iff in H as [_ H].
    destruct s as [|y s]; [done|]. injection Hd as ->. simpl in H.
    destruct (isWhiteSpace d); [|done]. by rewrite andb_false_r in H.
  - destruct (isWhiteSpace x).
    + apply andb_true_iff in H as [_ H]. by apply (IH true i).
    + by apply (IH false i).
Qed.

Lemma single_spaced_head s c :
  single_spaced true s = true -> head s = Some c -> isWhiteSpace c = false.
Proof.
  destruct s as [|x s]; [done|]. simpl. intros H [= ->].
  destruct (isWhiteSpace c); [|done]. by rewrite andb_false_r in H.
Qed.

Lemma tidy_check_tidy (s : jsstring) : tidy_check s = true -> tidy s.
Proof.
  unfold tidy_check. rewrite !andb_true_iff. intros [[Hu Hs] Hl].
  split; [|split; [|split; [|split]]].
  - intros c Hin. rewrite forallb_forall in Hu.
    apply list_elem_of_In in Hin. specialize (Hu c Hin).
    apply negb_true_iff in Hu. by apply N.eqb_neq in Hu.
  - intros c. by apply single_spaced_units with (b := true).
  - intros i c d. by apply single_spaced_adjacent with (b := true).
  - intros c. by apply single_spaced_head.
  - intros c Hc. rewrite Hc in Hl. by apply negb_true_iff in Hl.
Qed.

Lemma collapse_single_spaced b s : single_spaced b (collapse_from b s) = true.
Proof.
  revert b. induction s as [|c s IH]; intros b; [done|]. simpl.
  destruct (isWhiteSpace c) eqn:E.
  - destruct b; [apply IH|]. simpl. by rewrite IH.
  - simpl. rewrite E. apply IH.
Qed.

Lemma collapse_no_underscore b s :
  forallb (fun c => negb (c =? code "_")%N) s = true ->
  forallb (fun c => negb (c =? code "_")%N) (collapse_from b s) = true.
Proof.
  revert b. induction s as [|c s IH]; intros b; [done|]. simpl.
  rewrite andb_true_iff. intros [Hc Hs].
  destruct (isWhiteSpace c); [destruct b|]; simpl; rewrite ?Hc; by apply IH.
Qed.

Lemma replace_underscores_none s :
  forallb (fun c => negb (c =? code "_")%N) (replace_underscores s) = true.
Proof.
  unfold replace_underscores.
  induction s as [|c s IH]; [done|]. cbn [map forallb]. rewrite IH, andb_true_r.
  destruct (c =? code "_")%N eqn:E; [reflexivity|]. by rewrite E.
Qed.

Lemma trimStart_suffix s : exists k, trimStart s = drop k s.
Proof.
  induction s as [|c s [k IH]]; [by exists 0%nat|]. simpl.
  destruct (isWhiteSpace c); [by exists (S k) | by exists 0%nat].
Qed.

Lemma trimStart_single_spaced b s :
  single_spaced b s = true -> single_spaced true (trimStart s) = true.
Proof.
  revert b. induction s as [|c s IH]; intros b H; [done|]. simpl in *.
  destruct (isWhiteSpace c) eqn:E.
  - apply andb_true_iff in H as [_ H]. by apply (IH true).
  - simpl. by rewrite E.
Qed.

Lemma forallb_drop {A} (f : A -> bool) k (l : list A) :
  forallb f l = true -> forallb f (drop k l) = true.
Proof.
  revert k. induction l as [|x l IH]; intros [|k]; simpl; try done.
  rewrite andb_true_iff. intros [_ H]. by apply IH.
Qed.

Lemma forallb_take {A} (f : A -> bool) k (l : list A) :
  forallb f l = true -> forallb f (take k l) = true.
Proof.
  revert k. induction l as [|x l IH]; intros [|k]; simpl; try done.
  rewrite !andb_true_iff. intros [? H]. split; [done | by apply IH].
Qed.

Lemma trimEnd_snoc s c :
  trimEnd (s ++ [c]) = if isWhiteSpace c then trimEnd s else s ++ [c].
Proof.
  unfold trimEnd. rewrite rev_app_distr. simpl.
  destruct (isWhiteSpace c); [done|]. simpl. by rewrite rev_involutive.
Qed.

Lemma trimEnd_prefix s : exists k, trimEnd s = take k s.
Proof.
  assert (H : exists r, s = trimEnd s ++ r).
  { induction s as [|c s [r IH]] using rev_ind; [by exists []|].
    rewrite trimEnd_snoc. destruct (isWhiteSpace c).
    - exists (r ++ [c]). rewrite app_assoc. by rewrite <- IH.
    - exists []. by rewrite app_nil_r. }
  destruct H as [r Hr]. remember (trimEnd s) as t eqn:Et.
  exists (length t). rewrite Hr. by rewrite take_app_length.
Qed.

Lemma trimEnd_last s c :
  last (trimEnd s) = Some c -> isWhiteSpace c = false.
Proof.
  induction s as [|x s IH] using rev_ind; [done|].
  rewrite trimEnd_snoc. destruct (isWhiteSpace x) eqn:E; [done|].
  rewrite last_snoc. by intros [= <-].
Qed.

Lemma single_spaced_take b k s :
  single_spaced b s = true -> single_spaced b (take k s) = true.
Proof.
  revert b k. induction s as [|c s IH]; intros b [|k] H; simpl in *; try done.
  destruct (isWhiteSpace c).
  - apply andb_true_iff in H as [H1 H]. rewrite H1. by apply IH.
  - by apply IH.
Qed.

Lemma trim_check s :
  forallb (fun c => negb (c =? code "_")%N) s = true ->
  single_spaced false s = true ->
  tidy_check (trim s) = true.
Proof.
  intros Hu Hs. unfold tidy_check, trim.
  destruct (trimEnd_prefix (trimStart s)) as [k Hk].
  destruct (trimStart_suffix s) as [j Hj].
  rewrite !andb_true_iff. split; [split|].
  - rewrite Hk, Hj. by apply forallb_take, forallb_drop.
  - rewrite Hk. apply single_spaced_take. by apply trimStart_single_spaced with (b := false).
  - destruct (last (trimEnd (trimStart s))) as [c|] eqn:E; [|done].
    apply trimEnd_last in E. by rewrite E.
Qed.

Lemma clean_check (s : jsstring) : tidy_check (clean s) = true.
Proof.
  unfold clean. apply trim_check.
  - apply collapse_no_underscore, replace_underscores_none.
  - apply collapse_single_spaced.
Qed.

Lemma clean_tidy (s : jsstring) : tidy (clean s).
Proof. apply tidy_check_tidy, clean_check. Qed.

Lemma replace_underscores_id s :
  forallb (fun c => negb (c =? code "_")%N) s = true -> replace_underscores s = s.
Proof.
  unfold replace_underscores.
  induction s as [|c s IH]; [done|]. cbn [map forallb]. rewrite andb_true_iff.
  intros [Hc Hs]. apply negb_true_iff in Hc. rewrite Hc. by rewrite IH.
Qed.

Lemma collapse_id b s : single_spaced b s = true -> collapse_from b s = s.
Proof.
  revert b. induction s as [|c s IH]; intros b H; [done|]. simpl in *.
  destruct (isWhiteSpace c).
  - apply andb_true_iff in H as [H1 H]. apply andb_true_iff in H1 as [Hc Hb].
    apply N.eqb_eq in Hc as ->. apply negb_true_iff in Hb as ->.
    by rewrite IH.
  - by rewrite IH.
Qed.

Lemma trimStart_id s :
  (forall c, head s = Some c -> isWhiteSpace c = false) -> trimStart s = s.
Proof. destruct s as [|c s]; [done|]. simpl. intros H. by rewrite (H c). Qed.

Lemma trimEnd_id s :
  (forall c, last s = Some c -> isWhiteSpace c = false) -> trimEnd s = s.
Proof.
  destruct s as [|c s _] using rev_ind; [done|].
  rewrite trimEnd_snoc, last_snoc. intros H. by rewrite (H c).
Qed.

Lemma tidy_check_fixed (s : jsstring) : tidy_check s = true -> clean s = s.
Proof.
  intros H. pose proof (tidy_check_tidy s H) as (_ & _ & _ & Hh & Hl).
  unfold tidy_check in H. rewrite !andb_true_iff in H. destruct H as [[Hu Hs] _].
  unfold clean, trim, collapse_whitespace.
  rewrite replace_underscores_id by done.
  rewrite collapse_id by (by apply single_spaced_weaken).
  rewrite trimStart_id by done. by apply trimEnd_id.
Qed.

Lemma clean_idempotent (s : jsstring) : clean (clean s) = clean s.
Proof. apply tidy_check_fixed, clean_check. Qed.

Lemma or_else_cases (s fallback : jsstring) :
  (s = [] /\ or_else s fallback = fallback) \/ (s <> [] /\ or_else s fallback = s).
Proof. destruct s; [by left | by right]. Qed.

Lemma extractTrackName_check (filename : jsstring) :
  extractTrackName filename <> [] /\ tidy_check (extractTrackName filename) = true.
Proof.
  unfold extractTrackName.
  set (base := replace_at_end extension [] filename).
  set (picked := if includes base separator then _ else _).
  destruct (or_else_cases (clean picked) (str "Unknown Track")) as [[_ ->] | [Hne ->]].
  - split; [done | reflexivity].
  - split; [done | apply clean_check].
Qed.

Lemma extractArtistName_check (filename : jsstring) :
  tidy_check (extractArtistName filename) = true.
Proof.
  unfold extractArtistName.
  destruct (includes _ separator); [apply clean_check | reflexivity].
Qed.

(** X4.  The display name derived from a file name is never empty.
    It and the derived artist hold no underscore and no white space
    other than single spaces, and neither starts nor ends with one. *)
Theorem display_names_tidy (filename : jsstring) :
  extractTrackName filename <> [] /\
  tidy (extractTrackName filename) /\
  tidy (extractArtistName filename).
Proof.
  destruct (extractTrackName_check filename) as [Hne Ht].
  split; [done|]. split; apply tidy_check_tidy; [done | apply extractArtistName_check].
Qed.

End TidyNames.

(** ** The playlist manager: names from file names, in words *)

Section FileNameHeuristics.

Import Properties Coverage PlaylistManager.

Lemma is_gap_white (c : N) : isWhiteSpace c = true -> is_gap c = true.
Proof. unfold is_gap. by intros ->. Qed.

Lemma is_gap_plain (c : N) :
  isWhiteSpace c = false -> (c =? code "_")%N = false -> is_gap c = false.
Proof. unfold is_gap. by intros -> ->. Qed.

(** The three steps of [clean] keep the words. *)
Lemma words_from_replace (word s : jsstring) :
  words_from word (replace_underscores s) = words_from word s.
Proof.
  unfold replace_underscores. revert word.
  induction s as [|c s IH]; intros word; [done|]. cbn [map words_from].
  destruct (c =? code "_")%N eqn:E.
  - apply N.eqb_eq in E as ->.
    replace (is_gap (code " ")) with true by reflexivity.
    replace (is_gap (code "_")) with true by reflexivity.
    by rewrite !IH.
  - by rewrite !IH.
Qed.

Lemma words_from_collapse (s : jsstring) :
  (forall word, words_from word (collapse_from false s) = words_from word s) /\
  words_from [] (collapse_from true s) = words_from [] s.
Proof.
  induction s as [|c s [IHf IHt]]; [done|]. cbn [collapse_from].
  destruct (isWhiteSpace c) eqn:E.
  - split.
    + intros word. cbn [words_from].
      replace (is_gap (code " ")) with true by reflexivity.
      by rewrite (is_gap_white c E), IHt.
    + cbn [words_from]. by rewrite (is_gap_white c E).
  - split.
    + intros word. cbn [words_from]. by rewrite !IHf.
    + cbn [words_from]. by rewrite !IHf.
Qed.

Lemma words_from_trimStart (s : jsstring) :
  words_from [] (trimStart s) = words_from [] s.
Proof.
  induction s as [|c s IH]; [done|]. cbn [trimStart].
  destruct (isWhiteSpace c) eqn:E; [|done].
  cbn [words_from]. by rewrite (is_gap_white c E).
Qed.

Lemma words_from_gaps (word r : jsstring) :
  forallb isWhiteSpace r = true ->
  words_from word r = match word with [] => [] | _ => [word] end.
Proof.
  revert word. induction r as [|c r IH]; intros word H; [done|].
  cbn [forallb] in H. apply andb_true_iff in H as [Hc Hr].
  cbn [words_from]. rewrite (is_gap_white c Hc), (IH [] Hr). by destruct word.
Qed.

Lemma words_from_app_gaps (word s r : jsstring) :
  forallb isWhiteSpace r = true -> words_from word (s ++ r) = words_from word s.
Proof.
  intros Hr. revert word. induction s as [|c s IH]; intros word.
  - cbn [List.app]. rewrite (words_from_gaps word r Hr). by destruct word.
  - cbn [List.app words_from]. by rewrite !IH.
Qed.

Lemma trimEnd_rest (s : jsstring) :
  exists r, s = trimEnd s ++ r /\ forallb isWhiteSpace r = true.
Proof.
  induction s as [|c s (r & IH & Hr)] using rev_ind; [by exists []|].
  rewrite trimEnd_snoc. destruct (isWhiteSpace c) eqn:E.
  - exists (r ++ [c]). split.
    + rewrite app_assoc. by rewrite <- IH.
    + rewrite forallb_app, Hr. simpl. by rewrite E.
  - exists []. by rewrite app_nil_r.
Qed.

Lemma words_from_trimEnd (s : jsstring) :
  words_from [] (trimEnd s) = words_from [] s.
Proof.
  destruct (trimEnd_rest s) as (r & Hs & Hr).
  rewrite Hs at 2. by rewrite words_from_app_gaps.
Qed.

Lemma words_clean (s : jsstring) : words (clean s) = words s.
Proof.
  unfold words, clean, trim, collapse_whitespace.
  rewrite words_from_trimEnd, words_from_trimStart.
  destruct (words_from_collapse (replace_underscores s)) as [-> _].
  apply words_from_replace.
Qed.

(** A tidy text is its words with one space between them. *)
Lemma words_from_nonempty (word s : jsstring) :
  word <> [] -> words_from word s <> [].
Proof.
  revert word. induction s as [|c s IH]; intros word H; cbn [words_from].
  - by destruct word.
  - destruct (is_gap c); [by destruct word|]. apply IH. by destruct word.
Qed.

Lemma join_words_from (word s : jsstring) :
  forallb (fun c => negb (c =? code "_")%N) s = true ->
  single_spaced (match word with [] => true | _ => false end) s = true ->
  (forall c, last s = Some c -> isWhiteSpace c = false) ->
  join (words_from word s) (str " ") = word ++ s.
Proof.
  revert word. induction s as [|c s IH]; intros word Hu Hs Hl.
  - rewrite app_nil_r. by destruct word.
  - cbn [forallb] in Hu. apply andb_true_iff in Hu as [Hc Hu].
    apply negb_true_iff in Hc. cbn [single_spaced] in Hs. cbn [words_from].
    assert (Hl' : forall d, last s = Some d -> isWhiteSpace d = false).
    { intros d Hd. apply Hl. destruct s; [done|]. by rewrite last_cons_cons. }
    destruct (isWhiteSpace c) eqn:E.
    + rewrite (is_gap_white c E).
      apply andb_true_iff in Hs as [Hs Hrest].
      apply andb_true_iff in Hs as [Hsp Hw].
      apply N.eqb_eq in Hsp as ->.
      destruct word as [|w word]; [done|].
      destruct s as [|d s]; [by specialize (Hl _ eq_refl)|].
      assert (Hd : is_gap d = false).
      { cbn [forallb] in Hu. apply andb_true_iff in Hu as [Hd _].
        apply negb_true_iff in Hd. cbn [single_spaced] in Hrest.
        apply is_gap_plain; [|done].
        destruct (isWhiteSpace d); [|done]. by rewrite andb_false_r in Hrest. }
      rewrite join_cons.
      * by rewrite (IH [] Hu Hrest Hl').
      * cbn [words_from]. rewrite Hd. by apply words_from_nonempty.
    + rewrite (is_gap_plain c E Hc), (IH (word ++ [c]) Hu).
      * by rewrite <- app_assoc.
      * by destruct word.
      * exact Hl'.
Qed.

Lemma tidy_is_cleaned (s : jsstring) : tidy_check s = true -> cleaned s = s.
Proof.
  unfold tidy_check. rewrite !andb_true_iff. intros [[Hu Hs] Hl].
  unfold cleaned, words. rewrite join_words_from; [done..|].
  intros c Hc. rewrite Hc in Hl. by apply negb_true_iff in Hl.
Qed.

(** [clean] gives the words of the text with one space between them. *)
Lemma clean_cleaned (s : jsstring) : clean s = cleaned s.
Proof.
  rewrite <- (tidy_is_cleaned (clean s)) by apply clean_check.
  unfold cleaned. by rewrite words_clean.
Qed.

Lemma includes_occurrence (before sep after : jsstring) :
  includes (before ++ sep ++ after) sep = true.
Proof.
  induction before as [|c before IH].
  - cbn [List.app]. destruct (sep ++ after) eqn:E; cbn [includes];
      rewrite <- E, startsWith_prefix; done.
  - cbn [List.app includes]. rewrite IH. by rewrite orb_true_r.
Qed.

(** C9.  Let [base] be the file name without its extension: what
    precedes the last dot, when one or more units other than [/] and
    [.] follow it, and the name itself otherwise.  If [base] contains
    [" - "], then with [before] and [after] the text around its first
    occurrence, the artist is [before] cleaned and the display name is
    [after] cleaned; otherwise the artist is "Unknown Artist" and the
    display name is [base] cleaned.  A text cleaned is its words, the
    stretches between white space and underscores, with one space
    between them; an empty display name becomes "Unknown Track". *)
Theorem filename_heuristics (filename : jsstring) :
  exists base,
    (has_extension filename base \/
     (base = filename /\ forall b, ~ has_extension filename b)) /\
    ((exists before after,
        base = before ++ str " - " ++ after /\
        (forall before' after', base = before' ++ str " - " ++ after' ->
           (length before <= length before')%nat) /\
        extractArtistName filename = cleaned before /\
        extractTrackName filename
        = match cleaned after with
          | [] => str "Unknown Track"
          | _ => cleaned after
          end)
     \/
     ((forall before after, base <> before ++ str " - " ++ after) /\
      extractArtistName filename = str "Unknown Artist" /\
      extractTrackName filename
      = match cleaned base with
        | [] => str "Unknown Track"
        | _ => cleaned base
        end)).
Proof.
  exists (replace_at_end extension [] filename).
  split; [apply replace_extension|].
  unfold extractArtistName, extractTrackName.
  set (base := replace_at_end extension [] filename).
  change separator with (str " - ").
  destruct (includes base (str " - ")) eqn:E.
  - left. rewrite includes_cut in E.
    destruct (cut (str " - ") base) as [[before after]|] eqn:Ec; [|done].
    exists before, after.
    destruct (split_at_first (str " - ") base before after) as [H1 H2]; [done|done|].
    split; [by apply cut_app|]. split; [by apply (cut_first _ _ _ _ Ec)|].
    rewrite H1, H2, !clean_cleaned. done.
  - right. split.
    + intros before after Hb. by rewrite Hb, includes_occurrence in E.
    + rewrite !clean_cleaned. done.
Qed.

End FileNameHeuristics.

(** ** The player: navigation, repeated *)

Section NavigationCycles.

Import AudioPlayer Properties Coverage.

Lemma next_index_mod n i : 0 <= i < n -> next_index n i = (i + 1) mod n.
Proof.
  intros H. unfold next_index. destruct (i <? n - 1) eqn:E.
  - rewrite Z.mod_small; lia.
  - assert (i = n - 1) as -> by lia.
    replace (n - 1 + 1) with n by lia. by rewrite Z.mod_same by lia.
Qed.

Lemma previous_index_mod n i : 0 <= i < n -> previous_index n i = (i - 1) mod n.
Proof.
  intros H. unfold previous_index. destruct (0 <? i) eqn:E.
  - rewrite Z.mod_small; lia.
  - assert (i = 0) as -> by lia.
    replace (0 - 1) with (-1 * n + (n - 1)) by lia.
    rewrite Z.add_comm, Z.mod_add by lia. rewrite Z.mod_small; lia.
Qed.

Lemma index_valid_nonempty w : index_valid w -> tracks w <> [].
Proof. intros H E. unfold index_valid in H. rewrite E in H. simpl in H. lia. Qed.

(** X5.  From an index in range of a playlist of [n] tracks, [k] calls
    of [nextTrack] lead to index [(i + k) mod n] and [k] calls of
    [previousTrack] to [(i - k) mod n]; [n] calls of [nextTrack] lead
    back to where they started.  The playlist is as before. *)
Theorem nextTrack_repeated (r : bool) (k : nat) (w : world) :
  index_valid w ->
  let n := Z.of_nat (length (tracks w)) in
  currentTrackIndex (player (repeated k (nextTrack r) w))
    = (currentTrackIndex (player w) + Z.of_nat k) mod n /\
  currentTrackIndex (player (repeated k (previousTrack r) w))
    = (currentTrackIndex (player w) - Z.of_nat k) mod n /\
  currentTrackIndex (player (repeated (length (tracks w)) (nextTrack r) w))
    = currentTrackIndex (player w) /\
  tracks (repeated k (nextTrack r) w) = tracks w /\
  tracks (repeated k (previousTrack r) w) = tracks w.
Proof.
  intros Hv n. pose proof (index_valid_nonempty w Hv) as Hne.
  unfold index_valid in Hv. fold n in Hv.
  assert (Hnext : forall m,
    tracks (repeated m (nextTrack r) w) = tracks w /\
    currentTrackIndex (player (repeated m (nextTrack r) w))
      = (currentTrackIndex (player w) + Z.of_nat m) mod n).
  { intros m. induction m as [|j [IHt IHi]]; unfold repeated in *.
    - split; [done|]. simpl. rewrite Z.add_0_r, Z.mod_small; lia.
    - rewrite Nat.iter_succ. rewrite nextTrack_tracks. split; [done|].
      rewrite nextTrack_index by (by rewrite IHt).
      rewrite IHt. fold n. rewrite next_index_mod, IHi.
      + rewrite Zplus_mod_idemp_l. f_equal. lia.
      + rewrite IHi. apply Z.mod_pos_bound. lia. }
  assert (Hprev : forall m,
    tracks (repeated m (previousTrack r) w) = tracks w /\
    currentTrackIndex (player (repeated m (previousTrack r) w))
      = (currentTrackIndex (player w) - Z.of_nat m) mod n).
  { intros m. induction m as [|j [IHt IHi]]; unfold repeated in *.
    - split; [done|]. simpl. rewrite Z.sub_0_r, Z.mod_small; lia.
    - rewrite Nat.iter_succ. rewrite previousTrack_tracks. split; [done|].
      rewrite previousTrack_index by (by rewrite IHt).
      rewrite IHt. fold n. rewrite previous_index_mod, IHi.
      + rewrite Zminus_mod_idemp_l. f_equal. lia.
      + rewrite IHi. apply Z.mod_pos_bound. lia. }
  split; [apply Hnext|]. split; [apply Hprev|]. split; [|split; [apply Hnext | apply Hprev]].
  destruct (Hnext (length (tracks w))) as [_ ->]. fold n.
  rewrite <- (Z.mul_1_l n) at 1. rewrite Z.mod_add by lia. rewrite Z.mod_small; lia.
Qed.

Lemma next_then_previous (r r' : bool) (w : world) :
  index_valid w ->
  currentTrackIndex (player (previousTrack r' (nextTrack r w)))
    = currentTrackIndex (player w) /\
  currentTrackIndex (player (nextTrack r' (previousTrack r w)))
    = currentTrackIndex (player w).
Proof.
  intros Hv. pose proof (index_valid_nonempty w Hv) as Hne.
  unfold index_valid in Hv.
  set (n := Z.of_nat (length (tracks w))) in *.
  split.
  - rewrite previousTrack_index by (by rewrite nextTrack_tracks).
    rewrite nextTrack_tracks, nextTrack_index by done. fold n.
    unfold next_index, previous_index.
    destruct (_ <? n - 1) eqn:E1; destruct (0 <? _) eqn:E2; lia.
  - rewrite nextTrack_index by (by rewrite previousTrack_tracks).
    rewrite previousTrack_tracks, previousTrack_index by done. fold n.
    unfold next_index, previous_index.
    destruct (0 <? _) eqn:E1; destruct (_ <? n - 1) eqn:E2; lia.
Qed.

Lemma loadTrack_current r i w t :
  at_index (tracks w) i = Some t ->
  getCurrentTrack (loadTrack r i w) = Some t.
Proof.
  intros H. unfold getCurrentTrack. rewrite loadTrack_tracks.
  by destruct (loadTrack_found r i w t H) as [-> _].
Qed.

Lemma upd_index_tracks i w :
  tracks (upd (set_currentTrackIndex i) w) = tracks w.
Proof. reflexivity. Qed.

Lemma nextTrack_nonempty r w :
  tracks w <> [] ->
  nextTrack r w =
    let i' := next_index (Z.of_nat (length (tracks w))) (currentTrackIndex (player w)) in
    loadTrack r i' (upd (set_currentTrackIndex i') w).
Proof. intros H. unfold nextTrack. by destruct (tracks w). Qed.

Lemma previousTrack_nonempty r w :
  tracks w <> [] ->
  previousTrack r w =
    let i' := previous_index (Z.of_nat (length (tracks w))) (currentTrackIndex (player w)) in
    loadTrack r i' (upd (set_currentTrackIndex i') w).
Proof. intros H. unfold previousTrack. by destruct (tracks w). Qed.

Lemma loadTrack_shows r i w t :
  at_index (tracks w) i = Some t ->
  let w' := loadTrack r i (upd (set_currentTrackIndex i) w) in
  getCurrentTrack w' = Some t /\
  audio_src (player w') = url t /\
  trackTitle (player w') = or_else (name t) (str "Unknown Track") /\
  trackArtist (player w') = or_else (artist t) (str "Unknown Artist") /\
  isPlaying (player w') = isPlaying (player w).
Proof.
  intros H w'.
  assert (H' : at_index (tracks (upd (set_currentTrackIndex i) w)) i = Some t) by exact H.
  split; [by apply loadTrack_current|].
  destruct (loadTrack_found r _ _ t H') as (_ & ? & ? & ?).
  unfold w'. by rewrite loadTrack_isPlaying.
Qed.

(** X6.  With the index in range, [nextTrack] and [previousTrack]
    load the track they move to: [getCurrentTrack] returns it, its
    locator is the element's source, its name and artist (or the
    "Unknown" texts when empty) are displayed, and the playing flag is
    as before. *)
Theorem navigation_loads_track (r : bool) (w : world) :
  index_valid w ->
  (exists t,
     getCurrentTrack (nextTrack r w) = Some t /\
     audio_src (player (nextTrack r w)) = url t /\
     trackTitle (player (nextTrack r w)) = or_else (name t) (str "Unknown Track") /\
     trackArtist (player (nextTrack r w)) = or_else (artist t) (str "Unknown Artist") /\
     isPlaying (player (nextTrack r w)) = isPlaying (player w)) /\
  (exists t,
     getCurrentTrack (previousTrack r w) = Some t /\
     audio_src (player (previousTrack r w)) = url t /\
     trackTitle (player (previousTrack r w)) = or_else (name t) (str "Unknown Track") /\
     trackArtist (player (previousTrack r w)) = or_else (artist t) (str "Unknown Artist") /\
     isPlaying (player (previousTrack r w)) = isPlaying (player w)).
Proof.
  intros Hv. pose proof (index_valid_nonempty w Hv) as Hne.
  unfold index_valid in Hv.
  rewrite nextTrack_nonempty, previousTrack_nonempty by done. cbv zeta.
  set (n := Z.of_nat (length (tracks w))) in *.
  split.
  - destruct (proj2 (at_index_range (tracks w)
      (next_index n (currentTrackIndex (player w))))) as [t Ht].
    { fold n. unfold next_index. destruct (_ <? _) eqn:E; lia. }
    exists t. by apply loadTrack_shows.
  - destruct (proj2 (at_index_range (tracks w)
      (previous_index n (currentTrackIndex (player w))))) as [t Ht].
    { fold n. unfold previous_index. destruct (_ <? _) eqn:E; lia. }
    exists t. by apply loadTrack_shows.
Qed.

End NavigationCycles.

Lemma nextTrack_repeated_witness :
  Properties.index_valid Demo.three_tracks /\
  AudioPlayer.currentTrackIndex
    (AudioPlayer.player
       (Coverage.repeated 4 (AudioPlayer.nextTrack true) Demo.three_tracks)) = 1.
Proof.
  assert (Hv : Properties.index_valid Demo.three_tracks)
    by (vm_compute; split; congruence).
  split; [exact Hv|].
  destruct (nextTrack_repeated true 4 Demo.three_tracks Hv) as (H & _).
  rewrite H. vm_compute. reflexivity.
Defined.

Lemma navigation_loads_track_witness :
  AudioPlayer.audio_src
    (AudioPlayer.player (AudioPlayer.previousTrack true Demo.three_tracks))
  = url Demo.trackC.
Proof.
  assert (Hv : Properties.index_valid Demo.three_tracks)
    by (vm_compute; split; congruence).
  destruct (navigation_loads_track true Demo.three_tracks Hv)
    as (_ & (t & Hc & Hs & _)).
  rewrite Hs. f_equal.
  assert (Ht : AudioPlayer.getCurrentTrack
                 (AudioPlayer.previousTrack true Demo.three_tracks)
               = Some Demo.trackC) by (vm_compute; reflexivity).
  rewrite Ht in Hc. by injection Hc.
Defined.

(** ** The player: its events *)

Section PlayerEvents.

Import AudioPlayer Properties Coverage.

Lemma invariant_playback w w' :
  playback w' = playback w -> invariant w -> invariant w'.
Proof.
  unfold playback. intros [= Ht Hi Hp Hs] [Hv | [H1 H2]].
  - left. unfold index_valid. by rewrite Ht, Hi.
  - right. unfold stopped. by rewrite Hp, Hs.
Qed.

Lemma seekTo_playback e w : playback (seekTo e w) = playback w.
Proof. unfold seekTo. by destruct (isFinite _). Qed.

Lemma setVolumeLevel_playback v w : playback (setVolumeLevel v w) = playback w.
Proof. unfold setVolumeLevel. by destruct (isFinite _). Qed.

Lemma setVolume_playback e w : playback (setVolume e w) = playback w.
Proof. unfold setVolume. by destruct (isFinite _). Qed.

Lemma adjustVolume_playback d w : playback (adjustVolume d w) = playback w.
Proof. apply setVolumeLevel_playback. Qed.

Lemma toggleMute_playback w : playback (toggleMute w) = playback w.
Proof. unfold toggleMute. destruct (isMuted _); [destruct (isFinite _)|]; done. Qed.

Lemma handleDragging_playback e w : playback (handleDragging e w) = playback w.
Proof.
  unfold handleDragging. destruct (isDragging _) as [[|]|];
    [apply seekTo_playback | apply setVolume_playback | done].
Qed.

Lemma startDragging_playback e k w : playback (startDragging e k w) = playback w.
Proof. unfold startDragging. by rewrite handleDragging_playback. Qed.

Lemma pause_invariant w : invariant w -> invariant (pause w).
Proof. intros [Hv | [H1 H2]]; [by left | by right]. Qed.

Lemma togglePlay_invariant r w :
  invariant w ->
  index_valid w \/ src_is_empty (player w) = true \/ r = false ->
  invariant (togglePlay r w).
Proof.
  intros H Hc. unfold togglePlay.
  destruct (src_is_empty (player w)) eqn:Es.
  - by apply (invariant_playback w).
  - destruct (isPlaying (player w)) eqn:Ep; [by apply pause_invariant|].
    destruct Hc as [Hv | [? | ->]]; [left; by destruct r | done |].
    by apply (invariant_playback w).
Qed.

Lemma handleAudioError_invariant w : invariant w -> invariant (handleAudioError w).
Proof. intros H. unfold handleAudioError. apply pause_invariant. by apply (invariant_playback w). Qed.

Lemma handleKeyboard_invariant r e w :
  invariant w ->
  index_valid w \/ src_is_empty (player w) = true \/ r = false ->
  invariant (handleKeyboard r e w).
Proof.
  intros H Hc. unfold handleKeyboard.
  repeat case_bool_decide; try done.
  - by apply togglePlay_invariant.
  - by apply previousTrack_invariant.
  - by apply nextTrack_invariant.
  - apply (invariant_playback w); [apply adjustVolume_playback | done].
  - apply (invariant_playback w); [apply adjustVolume_playback | done].
  - apply (invariant_playback w); [apply toggleMute_playback | done].
Qed.

(** X7.  While the current index is in range, or the element has
    never been given a source, or [play()] is refused, no event the
    player listens to (buttons, the two bars, mouse moves and release,
    the keyboard shortcuts, the element's [ended] and [error]) breaks
    the invariant that the current index is in range or playback is
    stopped. *)
Theorem events_keep_invariant (r : bool) (e : DomEvent) (w : world) :
  invariant w ->
  index_valid w \/ src_is_empty (player w) = true \/ r = false ->
  invariant (bindEvents r e w).
Proof.
  intros H Hc. destruct e; simpl.
  - by apply togglePlay_invariant.
  - by apply previousTrack_invariant.
  - by apply nextTrack_invariant.
  - apply (invariant_playback w); [apply toggleMute_playback | done].
  - by apply nextTrack_invariant.
  - by apply handleAudioError_invariant.
  - apply (invariant_playback w); [apply seekTo_playback | done].
  - apply (invariant_playback w); [apply startDragging_playback | done].
  - apply (invariant_playback w); [apply setVolume_playback | done].
  - apply (invariant_playback w); [apply startDragging_playback | done].
  - apply (invariant_playback w); [apply handleDragging_playback | done].
  - done.
  - by apply handleKeyboard_invariant.
Qed.

(** The case left out.  Once the current track has been removed the
    [src] property is not empty, so a press on play reaches [play()];
    were that to succeed on the cleared source, the player would be
    playing with its index beyond the playlist. *)
Example play_after_removing_last :
  invariant (removeFromPlaylist 2 Demo.playing_last) /\
  ~ invariant (togglePlay true (removeFromPlaylist 2 Demo.playing_last)).
Proof.
  split.
  - right. vm_compute. split; reflexivity.
  - intros [[_ Hv] | [Hp _]].
    + vm_compute in Hv. congruence.
    + vm_compute in Hp. congruence.
Qed.

Lemma unit_interval_clamp x :
  x <> NaN -> unit_interval (max_with 0 (min_with 1 x)).
Proof.
  intros Hx. destruct x as [q| | |]; [| | |done].
  - destruct (clamp_unit q) as (v & Hv & Hr). by exists v.
  - exists 1%Q. split; [reflexivity | split; done].
  - exists 0%Q. split; [reflexivity | split; done].
Qed.

Lemma unit_interval_zero : unit_interval (Fin 0).
Proof. exists 0%Q. split; [done | split; done]. Qed.

Lemma setVolumeLevel_volumes x w :
  x <> NaN -> volumes_in_range (setVolumeLevel x w).
Proof.
  intros Hx. destruct (unit_interval_clamp x Hx) as (v & Hv & Hr).
  unfold setVolumeLevel. rewrite Hv. simpl.
  split; exists v; done.
Qed.

Lemma volumes_same w w' :
  volume (player w') = volume (player w) ->
  audio_volume (player w') = audio_volume (player w) ->
  volumes_in_range w -> volumes_in_range w'.
Proof. unfold volumes_in_range. by intros -> ->. Qed.

Lemma adjustVolume_volumes d w :
  volumes_in_range w -> volumes_in_range (adjustVolume (Fin d) w).
Proof.
  intros [(v & Hv & _) _]. unfold adjustVolume. apply setVolumeLevel_volumes.
  by rewrite Hv.
Qed.

Lemma toggleMute_volumes w : volumes_in_range w -> volumes_in_range (toggleMute w).
Proof.
  intros [Hv Ha]. unfold toggleMute. destruct (isMuted (player w)).
  - destruct Hv as (v & Hv & Hr). rewrite Hv. simpl.
    split; exists v; done.
  - split; [done | apply unit_interval_zero].
Qed.

Lemma setVolume_volumes e w :
  (0 < width (volumeBar (player w)))%Q -> volumes_in_range (setVolume e w).
Proof.
  intros Hw. destruct (setVolume_clamps e w Hw) as (v & Hr & H1 & H2).
  split; exists v; done.
Qed.

Lemma seekTo_volumes e w : volumes_in_range w -> volumes_in_range (seekTo e w).
Proof. apply volumes_same; unfold seekTo; by destruct (isFinite _). Qed.

Lemma handleDragging_volumes e w :
  (0 < width (volumeBar (player w)))%Q ->
  volumes_in_range w -> volumes_in_range (handleDragging e w).
Proof.
  intros Hw H. unfold handleDragging. destruct (isDragging _) as [[|]|];
    [by apply seekTo_volumes | by apply setVolume_volumes | done].
Qed.

Lemma togglePlay_volumes r w : volumes_in_range w -> volumes_in_range (togglePlay r w).
Proof.
  apply volumes_same; unfold togglePlay;
    (destruct (src_is_empty _); [done|]; destruct (isPlaying _); [done|]; by destruct r).
Qed.

Lemma loadTrack_volumes r i w : volumes_in_range w -> volumes_in_range (loadTrack r i w).
Proof.
  apply volumes_same; unfold loadTrack;
    (destruct (at_index _ _); [|done]; simpl;
     destruct (isPlaying _); [|done]; by destruct r).
Qed.

Lemma nextTrack_volumes r w : volumes_in_range w -> volumes_in_range (nextTrack r w).
Proof.
  intros H. unfold nextTrack. destruct (tracks w); [done|].
  by apply loadTrack_volumes.
Qed.

Lemma previousTrack_volumes r w : volumes_in_range w -> volumes_in_range (previousTrack r w).
Proof.
  intros H. unfold previousTrack. destruct (tracks w); [done|].
  by apply loadTrack_volumes.
Qed.

Lemma handleKeyboard_volumes r e w :
  volumes_in_range w -> volumes_in_range (handleKeyboard r e w).
Proof.
  intros H. unfold handleKeyboard.
  repeat case_bool_decide; try done.
  - by apply togglePlay_volumes.
  - by apply previousTrack_volumes.
  - by apply nextTrack_volumes.
  - by apply adjustVolume_volumes.
  - by apply adjustVolume_volumes.
  - by apply toggleMute_volumes.
Qed.

(** X8.  With a volume bar of positive width, every event the player
    listens to leaves the player's volume and the element's volume in
    [0, 1] when they were. *)
Theorem events_keep_volumes (r : bool) (e : DomEvent) (w : world) :
  (0 < width (volumeBar (player w)))%Q ->
  volumes_in_range w -> volumes_in_range (bindEvents r e w).
Proof.
  intros Hw H. destruct e; simpl.
  - by apply togglePlay_volumes.
  - by apply previousTrack_volumes.
  - by apply nextTrack_volumes.
  - by apply toggleMute_volumes.
  - by apply nextTrack_volumes.
  - done.
  - by apply seekTo_volumes.
  - by apply handleDragging_volumes.
  - by apply setVolume_volumes.
  - by apply handleDragging_volumes.
  - by apply handleDragging_volumes.
  - done.
  - by apply handleKeyboard_volumes.
Qed.

End PlayerEvents.

Lemma events_keep_invariant_witness :
  Properties.invariant
    (AudioPlayer.bindEvents true
       (AudioPlayer.document_keydown Scenarios.arrow_right) Demo.playing_last) /\
  Properties.invariant
    (AudioPlayer.bindEvents false AudioPlayer.playBtn_click
       (AudioPlayer.removeFromPlaylist 2 Demo.playing_last)).
Proof.
  split.
  - assert (H : Properties.index_valid Demo.playing_last)
      by (vm_compute; split; congruence).
    apply events_keep_invariant; by left.
  - apply events_keep_invariant.
    + right. vm_compute. split; reflexivity.
    + right. by right.
Defined.

Lemma events_keep_volumes_witness :
  Coverage.volumes_in_range
    (AudioPlayer.bindEvents true
       (AudioPlayer.document_keydown Scenarios.arrow_up) Demo.playing_last) /\
  Coverage.volumes_in_range
    (AudioPlayer.bindEvents true
       (AudioPlayer.volumeBar_click Demo.left_of_bar) Demo.playing_last).
Proof.
  assert (Hw : (0 < AudioPlayer.width
                     (AudioPlayer.volumeBar (AudioPlayer.player Demo.playing_last)))%Q)
    by (vm_compute; reflexivity).
  assert (H : Coverage.volumes_in_range Demo.playing_last).
  { split; eexists; (split; [reflexivity|]); split; vm_compute; congruence. }
  split; by apply events_keep_volumes.
Defined.

(** ** The player: muting, seeking and dragging *)

Section BarsAndDrags.

Import AudioPlayer Properties Coverage.

(** X9.  Muting an unmuted player sets the element's volume to 0 and
    keeps the player's volume; unmuting gives the element the player's
    volume back. *)
Theorem toggleMute_twice (w : world) :
  isFinite (volume (player w)) = true ->
  let muted := toggleMute w in
  let back := toggleMute (toggleMute w) in
  isMuted (player w) = false ->
  isMuted (player muted) = true /\
  audio_volume (player muted) = Fin 0 /\
  volume (player muted) = volume (player w) /\
  isMuted (player back) = false /\
  audio_volume (player back) = volume (player w) /\
  volume (player back) = volume (player w).
Proof.
  intros Hf muted back Hm. unfold back, muted, toggleMute.
  rewrite Hm. simpl. rewrite Hf. simpl. done.
Qed.

Lemma mul_finite x y : isFinite (mul x y) = true -> isFinite x = true /\ isFinite y = true.
Proof.
  destruct x as [a| | |], y as [b| | |]; simpl; try done;
    destruct (_ ?= _)%Q; done.
Qed.

(** X10.  [seekTo] changes nothing but the element's position, and
    assigns it only a finite value: with no finite duration (nothing
    loaded, a stream) or a progress bar of width 0 it returns the state
    it was given. *)
Theorem seekTo_guarded (event : PointerEvent) (w : world) :
  let w' := seekTo event w in
  (audio_currentTime (player w') = audio_currentTime (player w) \/
   isFinite (audio_currentTime (player w')) = true) /\
  (isFinite (audio_duration (player w)) = false \/
   (width (progressBar (player w)) == 0)%Q -> w' = w) /\
  heap w' = heap w /\ toasts w' = toasts w /\
  set_audio_currentTime (audio_currentTime (player w)) (player w') = player w.
Proof.
  intros w'. unfold w', seekTo.
  set (percent := div _ _).
  destruct (isFinite (mul percent (audio_duration (player w)))) eqn:E.
  - split; [by right|]. split; [|by destruct w as [? ? []]].
    apply mul_finite in E as [Hp Hd]. intros [H | H]; [congruence|].
    unfold percent, div in Hp. apply Qeq_bool_iff in H. rewrite H in Hp.
    by destruct (_ ?= _)%Q.
  - split; [by left|]. split; [done|]. by destruct w as [? ? []].
Qed.

(** X11.  For a pointer within the progress bar (of positive width)
    and a duration [d >= 0], [seekTo] assigns the position
    [(clientX - left) / width * d], which lies in [0, d]. *)
Theorem seekTo_inside_bar (event : PointerEvent) (w : world) (d : Q) :
  let rect := progressBar (player w) in
  (0 < width rect)%Q ->
  audio_duration (player w) = Fin d -> (0 <= d)%Q ->
  (left rect <= clientX event <= left rect + width rect)%Q ->
  exists t, audio_currentTime (player (seekTo event w)) = Fin t /\
            (0 <= t <= d)%Q /\
            (t == (clientX event - left rect) / width rect * d)%Q.
Proof.
  intros rect Hw Hd Hpos [Hl Hr]. unfold seekTo. fold rect.
  rewrite div_positive by done. rewrite Hd. simpl.
  eexists. split; [reflexivity|]. split; [|reflexivity].
  set (x := clientX event) in *. set (l := left rect) in *. set (wd := width rect) in *.
  assert (H0 : (0 <= (x - l) / wd)%Q) by (apply Qle_shift_div_l; [done | lra]).
  assert (H1 : ((x - l) / wd <= 1)%Q) by (apply Qle_shift_div_r; [done | lra]).
  revert H0 H1. generalize ((x - l) / wd)%Q. intros p H0 H1. split; nra.
Qed.

Lemma drag_is_modal (event : PointerEvent) (w : world) :
  handleDragging event (stopDragging w) = stopDragging w /\
  (isDragging (player w) = None -> handleDragging event w = w) /\
  (isDragging (player w) = Some drag_volume ->
     handleDragging event w = setVolume event w /\
     audio_currentTime (player (handleDragging event w)) = audio_currentTime (player w)) /\
  (isDragging (player w) = Some drag_progress ->
     handleDragging event w = seekTo event w /\
     volume (player (handleDragging event w)) = volume (player w) /\
     audio_volume (player (handleDragging event w)) = audio_volume (player w) /\
     isMuted (player (handleDragging event w)) = isMuted (player w)).
Proof.
  split; [done|]. unfold handleDragging.
  split; [by intros ->|]. split; intros ->.
  - split; [done|]. unfold setVolume. by destruct (isFinite _).
  - split; [done|]. unfold seekTo. by destruct (isFinite _).
Qed.

Lemma setVolume_value (event : PointerEvent) (w : world) :
  (0 < width (volumeBar (player w)))%Q ->
  let p := max_with 0 (min_with 1
             (Fin ((clientX event - left (volumeBar (player w)))
                   / width (volumeBar (player w))))) in
  volume (player (setVolume event w)) = p /\
  audio_volume (player (setVolume event w)) = p /\
  isMuted (player (setVolume event w)) = false /\
  isDragging (player (setVolume event w)) = isDragging (player w) /\
  volumeBar (player (setVolume event w)) = volumeBar (player w).
Proof.
  intros Hw p. unfold setVolume. rewrite div_positive by done. fold p.
  destruct (clamp_unit ((clientX event - left (volumeBar (player w)))
                        / width (volumeBar (player w)))) as (v & Hv & _).
  unfold p. rewrite Hv. simpl. done.
Qed.

(** X12.  A drag on the volume bar, press, move, release, ends with
    the volume a click at the last pointer position would set, in
    [0, 1], on the player and the element alike, unmuted, and with the
    drag state cleared. *)
Theorem volume_drag_ends_where_released (down move : PointerEvent) (w : world) :
  (0 < width (volumeBar (player w)))%Q ->
  let w' := stopDragging (handleDragging move (startDragging down drag_volume w)) in
  exists v, (0 <= v <= 1)%Q /\
    volume (player w') = Fin v /\
    audio_volume (player w') = Fin v /\
    volume (player (setVolume move w)) = Fin v /\
    isMuted (player w') = false /\
    isDragging (player w') = None.
Proof.
  intros Hw w'.
  destruct (clamp_unit ((clientX move - left (volumeBar (player w)))
                        / width (volumeBar (player w)))) as (v & Hv & Hr).
  exists v. split; [done|].
  set (w0 := upd (set_isDragging (Some drag_volume)) w).
  assert (Hw0 : (0 < width (volumeBar (player w0)))%Q) by done.
  destruct (setVolume_value down w0 Hw0) as (_ & _ & _ & Hd1 & Hb1).
  set (w1 := setVolume down w0) in *.
  assert (Hw1 : (0 < width (volumeBar (player w1)))%Q) by (by rewrite Hb1).
  destruct (setVolume_value move w1 Hw1) as (Hv2 & Ha2 & Hm2 & _ & _).
  rewrite Hb1 in Hv2, Ha2. change (volumeBar (player w0)) with (volumeBar (player w)) in *.
  rewrite Hv in Hv2, Ha2.
  destruct (setVolume_value move w Hw) as (Hv3 & _). rewrite Hv in Hv3.
  assert (Hw' : w' = stopDragging (setVolume move w1)).
  { unfold w', startDragging. fold w0.
    assert (H1 : handleDragging down w0 = w1) by done. rewrite H1.
    unfold handleDragging. by rewrite Hd1. }
  rewrite Hw'. done.
Qed.

End BarsAndDrags.

Lemma toggleMute_twice_witness :
  AudioPlayer.audio_volume
    (AudioPlayer.player (AudioPlayer.toggleMute Demo.playing_last)) = Fin 0 /\
  AudioPlayer.audio_volume
    (AudioPlayer.player
       (AudioPlayer.toggleMute (AudioPlayer.toggleMute Demo.playing_last)))
  = Fin (7 # 10).
Proof.
  destruct (toggleMute_twice Demo.playing_last eq_refl eq_refl)
    as (_ & H0 & _ & _ & H1 & _).
  split; [exact H0 | exact H1].
Defined.

Lemma seekTo_inside_bar_witness :
  exists t,
    AudioPlayer.audio_currentTime
      (AudioPlayer.player (AudioPlayer.seekTo Scenarios.on_progress Demo.playing_last))
    = Fin t /\ (0 <= t <= 195)%Q.
Proof.
  destruct (seekTo_inside_bar Scenarios.on_progress Demo.playing_last 195)
    as (t & Ht & Hr & _).
  - vm_compute. reflexivity.
  - reflexivity.
  - vm_compute. congruence.
  - split; vm_compute; congruence.
  - exists t. split; [exact Ht | exact Hr].
Defined.

Lemma volume_drag_ends_where_released_witness :
  exists v,
    AudioPlayer.volume
      (AudioPlayer.player
         (AudioPlayer.stopDragging
            (AudioPlayer.handleDragging Scenarios.on_volume_mid
               (AudioPlayer.startDragging Scenarios.on_volume_low
                  AudioPlayer.drag_volume Demo.playing_last)))) = Fin v /\
    AudioPlayer.volume
      (AudioPlayer.player (AudioPlayer.setVolume Scenarios.on_volume_mid Demo.playing_last))
    = Fin v.
Proof.
  destruct (volume_drag_ends_where_released Scenarios.on_volume_low
              Scenarios.on_volume_mid Demo.playing_last)
    as (v & _ & Hv & _ & Hc & _).
  - vm_compute. reflexivity.
  - exists v. split; [exact Hv | exact Hc].
Defined.

(** ** The playlist manager: adding files *)

Section AddingFiles.

Import PlaylistManager Properties Coverage.

Variable toLowerCase : jsstring -> jsstring.

Lemma setPlaylist_heap r l w :
  AudioPlayer.heap (AudioPlayer.setPlaylist r l w) = AudioPlayer.heap w.
Proof.
  unfold AudioPlayer.setPlaylist.
  destruct (arr _ _); [done|]. destruct (AudioPlayer.src_is_empty _); [|done].
  by rewrite loadTrack_heap.
Qed.

Lemma updateFilteredPlaylist_tracks a :
  tracks (updateFilteredPlaylist toLowerCase a) = tracks a.
Proof.
  destruct (updateFilteredPlaylist_rest toLowerCase a) as (H1 & H2 & _).
  unfold tracks, the_heap. by rewrite H1, H2.
Qed.

Lemma updateFilteredPlaylist_view a :
  view_current toLowerCase (updateFilteredPlaylist toLowerCase a).
Proof.
  unfold view_current. rewrite updateFilteredPlaylist_tracks.
  destruct (updateFilteredPlaylist_rest toLowerCase a) as (_ & _ & -> & _).
  unfold updateFilteredPlaylist, filtered_by.
  by destruct (searchTerm (manager a)).
Qed.

Lemma addFilesToPlaylist_tracks now mk r files a :
  let a' := addFilesToPlaylist toLowerCase now mk r files a in
  tracks a' = tracks a ++ imap (track_of now mk) files /\
  AudioPlayer.tracks (audioPlayer a') = tracks a' /\
  manager a' = manager (updateFilteredPlaylist toLowerCase
                 (write_playlist (tracks a ++ imap (track_of now mk) files) a)) /\
  revoked a' = revoked a /\
  stored a' = Some (map metadata (tracks a')).
Proof.
  intros a'. unfold a', addFilesToPlaylist.
  fold (track_of now mk).
  set (news := imap (track_of now mk) files).
  set (a1 := write_playlist (tracks a ++ news) a).
  set (a2 := updateFilteredPlaylist toLowerCase a1).
  destruct (updateFilteredPlaylist_rest toLowerCase a1) as (Hp & Hl & Hs & Hr & Hst).
  fold a2 in Hp, Hl, Hs, Hr, Hst.
  assert (Ht1 : tracks a1 = tracks a ++ news).
  { unfold a1, tracks at 1, write_playlist, the_heap. simpl. by rewrite arr_insert. }
  assert (Ht2 : tracks a2 = tracks a ++ news)
    by (unfold a2; by rewrite updateFilteredPlaylist_tracks).
  set (a3 := on_player (AudioPlayer.setPlaylist r (playlist (manager a2))) a2).
  assert (Ht3 : tracks a3 = tracks a ++ news).
  { unfold tracks at 1, the_heap, a3. simpl. rewrite setPlaylist_heap. exact Ht2. }
  assert (Hp3 : AudioPlayer.tracks (audioPlayer a3) = tracks a3).
  { unfold AudioPlayer.tracks, tracks, the_heap, a3. simpl.
    by rewrite setPlaylist_playlist. }
  split; [exact Ht3|]. split; [exact Hp3|]. split; [done|]. split; [done|].
  reflexivity.
Qed.


(** X13.  [addFilesToPlaylist] keeps the tracks there were, in place,
    and appends one track per file, in the order of the files: named
    from the file name, located by the object URL made for the file,
    with duration 0 and identifier [Date.now() + index].  Afterwards
    the player holds the manager's array and lists the same tracks. *)
Theorem addFilesToPlaylist_appends now mk r files a :
  let a' := addFilesToPlaylist toLowerCase now mk r files a in
  let added := drop (length (tracks a)) (tracks a') in
  take (length (tracks a)) (tracks a') = tracks a /\
  length added = length files /\
  (forall i file, files !! i = Some file ->
     added !! i = Some (mkTrack (now i + Z.of_nat i)
                          (extractTrackName (file_name file))
                          (extractArtistName (file_name file))
                          (mk file) (Fin 0))) /\
  AudioPlayer.tracks (audioPlayer a') = tracks a' /\
  shared a'.
Proof.
  intros a' added.
  destruct (addFilesToPlaylist_tracks now mk r files a) as (Ht & Hp & _).
  fold a' in Ht, Hp. unfold added. rewrite Ht.
  rewrite take_app_length, drop_app_length.
  split; [done|]. split; [by rewrite length_imap|].
  split; [|split; [by rewrite <- Ht | apply addFilesToPlaylist_shares]].
  intros i file Hf. rewrite list_lookup_imap, Hf. done.
Qed.

(** X14.  With a clock that does not run backwards while the files
    are mapped, the identifiers given to the tracks of one call of
    [addFilesToPlaylist] are pairwise distinct. *)
Theorem batch_ids_distinct now mk r files a :
  (forall i j, (i <= j)%nat -> now i <= now j) ->
  let a' := addFilesToPlaylist toLowerCase now mk r files a in
  NoDup (map id (drop (length (tracks a)) (tracks a'))).
Proof.
  intros Hmono a'.
  destruct (addFilesToPlaylist_tracks now mk r files a) as (Ht & _).
  fold a' in Ht. rewrite Ht, drop_app_length.
  apply NoDup_alt. intros i j x Hi Hj.
  rewrite list_lookup_fmap, list_lookup_imap in Hi, Hj.
  destruct (files !! i) as [fi|] eqn:Ei; [|done].
  destruct (files !! j) as [fj|] eqn:Ej; [|done].
  simpl in Hi, Hj. injection Hi as Hi. injection Hj as Hj.
  destruct (Nat.lt_trichotomy i j) as [Hlt | [Heq | Hgt]]; [|done|].
  - pose proof (Hmono i j ltac:(lia)). lia.
  - pose proof (Hmono j i ltac:(lia)). lia.
Qed.





Lemma setPlaylist_loaded r l w :
  AudioPlayer.src_is_empty (AudioPlayer.player w) = false ->
  AudioPlayer.player (AudioPlayer.setPlaylist r l w)
  = AudioPlayer.set_playlist l (AudioPlayer.player w).
Proof.
  intros H. unfold AudioPlayer.setPlaylist. destruct (arr _ _); [done|].
  change (AudioPlayer.src_is_empty
            (AudioPlayer.player (AudioPlayer.upd (AudioPlayer.set_playlist l) w)))
    with (AudioPlayer.src_is_empty (AudioPlayer.player w)).
  by rewrite H.
Qed.

Lemma setPlaylist_loads_first r l w t :
  AudioPlayer.src_is_empty (AudioPlayer.player w) = true ->
  head (arr (AudioPlayer.heap w) l) = Some t ->
  let p := AudioPlayer.player (AudioPlayer.setPlaylist r l w) in
  AudioPlayer.audio_src p = url t /\
  AudioPlayer.currentTrackIndex p = 0 /\
  AudioPlayer.trackTitle p = or_else (name t) (str "Unknown Track").
Proof.
  intros Hsrc Hhead p. unfold p, AudioPlayer.setPlaylist.
  set (w1 := AudioPlayer.upd (AudioPlayer.set_playlist l) w).
  assert (Hh : AudioPlayer.heap w1 = AudioPlayer.heap w) by done.
  assert (Hs : AudioPlayer.src_is_empty (AudioPlayer.player w1) = true) by exact Hsrc.
  rewrite Hh, Hs. destruct (arr (AudioPlayer.heap w) l) as [|t0 ts] eqn:E; [done|].
  injection Hhead as ->.
  assert (Hat : at_index (AudioPlayer.tracks w1) 0 = Some t).
  { unfold AudioPlayer.tracks, w1. simpl. by rewrite E. }
  by destruct (loadTrack_found r 0 w1 t Hat) as (? & ? & ? & _).
Qed.

(** X16.  Adding files once the element has been given a source (a
    track that was loaded, or the empty source that the removal of
    the current track leaves) leaves the player's fields as they were,
    but for the playlist reference.  On a player whose element never
    had a source, the first track of the playlist is loaded: its
    locator becomes the source, the index 0, its name the title. *)
Theorem adding_files_spares_loaded_track now mk r files a :
  let a' := addFilesToPlaylist toLowerCase now mk r files a in
  let before := AudioPlayer.player (audioPlayer a) in
  let after := AudioPlayer.player (audioPlayer a') in
  (AudioPlayer.src_is_empty before = false ->
     after = AudioPlayer.set_playlist (playlist (manager a)) before) /\
  (forall t, AudioPlayer.src_is_empty before = true ->
     head (tracks a') = Some t ->
     AudioPlayer.audio_src after = url t /\
     AudioPlayer.currentTrackIndex after = 0 /\
     AudioPlayer.trackTitle after = or_else (name t) (str "Unknown Track")).
Proof.
  intros a' before after.
  destruct (addFilesToPlaylist_tracks now mk r files a) as (Ht & _).
  fold a' in Ht.
  set (news := imap (track_of now mk) files) in *.
  set (a1 := write_playlist (tracks a ++ news) a) in *.
  destruct (updateFilteredPlaylist_rest toLowerCase a1) as (Hpl & Hl & _).
  assert (Hafter : after = AudioPlayer.player
            (AudioPlayer.setPlaylist r (playlist (manager a)) (audioPlayer a1))).
  { unfold after, a', addFilesToPlaylist. fold (track_of now mk). fold news. fold a1.
    cbn [on_player audioPlayer showToast savePlaylist].
    rewrite Hpl, Hl. done. }
  assert (Harr : arr (AudioPlayer.heap (audioPlayer a1)) (playlist (manager a)) = tracks a').
  { rewrite Ht. unfold a1, write_playlist. simpl. by rewrite arr_insert. }
  rewrite Hafter. split.
  - intros Hsrc. by apply setPlaylist_loaded.
  - intros t Hsrc Hhead. apply setPlaylist_loads_first; [done|]. by rewrite Harr.
Qed.

End AddingFiles.

Lemma batch_ids_distinct_witness :
  NoDup (map id
    (drop (length (PlaylistManager.tracks Demo.empty_app))
       (PlaylistManager.tracks
          (PlaylistManager.addFilesToPlaylist Demo.ascii_lower Demo.clock
             Demo.blob_of true [Demo.fileA; Demo.fileB; Demo.fileC]
             Demo.empty_app)))).
Proof.
  apply batch_ids_distinct. intros i j _. unfold Demo.clock. lia.
Defined.

(** ** The playlist manager: removing and clearing *)

Section RemovingAndClearing.

Import PlaylistManager Properties Coverage.

Variable toLowerCase : jsstring -> jsstring.

(** How every mutating method of the manager ends: the view is
    refreshed, the snapshot stored, a notification shown. *)
Lemma finish_current msg type a3 :
  let a' := showToast msg type (savePlaylist (updateFilteredPlaylist toLowerCase a3)) in
  tracks a' = tracks a3 /\
  view_current toLowerCase a' /\
  snapshot_current a' /\
  AudioPlayer.tracks (audioPlayer a') = AudioPlayer.tracks (audioPlayer a3) /\
  AudioPlayer.player (audioPlayer a') = AudioPlayer.player (audioPlayer a3) /\
  revoked a' = revoked a3.
Proof.
  intros a'.
  pose proof (updateFilteredPlaylist_tracks toLowerCase a3) as Ht.
  pose proof (updateFilteredPlaylist_view toLowerCase a3) as Hv.
  destruct (updateFilteredPlaylist_rest toLowerCase a3) as (Hp & Hl & Hs & Hr & Hst).
  split; [exact Ht|]. split; [exact Hv|]. split.
  - unfold snapshot_current. reflexivity.
  - split; [|split].
    + unfold a'. cbn [showToast savePlaylist on_player audioPlayer].
      unfold AudioPlayer.tracks. cbn [AudioPlayer.showToast AudioPlayer.heap AudioPlayer.player].
      by rewrite Hp.
    + unfold a'. cbn [showToast savePlaylist on_player audioPlayer].
      cbn [AudioPlayer.showToast AudioPlayer.player]. by rewrite Hp.
    + exact Hr.
Qed.

Lemma removeTrack_unfold index a t :
  at_index (tracks a) index = Some t ->
  removeTrack toLowerCase index a =
    let a2 := on_player (AudioPlayer.removeFromPlaylist index) (revoke_if_blob t a) in
    showToast (str "Song removed from playlist") info
      (savePlaylist (updateFilteredPlaylist toLowerCase
         (write_playlist (splice1 index (tracks a2)) a2))).
Proof. intros H. unfold removeTrack. by rewrite H. Qed.

Lemma revoke_if_blob_revoked t a :
  revoked (revoke_if_blob t a)
  = revoked a ++ (if startsWith (url t) (str "blob:") then [url t] else []).
Proof.
  unfold revoke_if_blob. destruct (startsWith _ _); [done|]. by rewrite app_nil_r.
Qed.

(** What one removal does to the manager and the player. *)
Lemma removeTrack_effect (index : Z) (a : app) :
  let a' := removeTrack toLowerCase index a in
  match at_index (tracks a) index with
  | None => a' = a
  | Some t =>
      revoked a' = revoked a ++
        (if startsWith (url t) (str "blob:") then [url t] else []) /\
      snapshot_current a' /\
      view_current toLowerCase a' /\
      AudioPlayer.toasts (audioPlayer a')
      = AudioPlayer.toasts (audioPlayer a)
          ++ [mkToast (str "Song removed from playlist") info]
  end.
Proof.
  intros a'. destruct (at_index (tracks a) index) as [t|] eqn:E.
  - unfold a'. rewrite (removeTrack_unfold index a t E). cbv zeta.
    set (a2 := on_player _ _).
    set (a3 := write_playlist _ a2).
    destruct (finish_current (str "Song removed from playlist") info a3)
      as (_ & Hv & Hs & _ & _ & Hr).
    split; [|split; [exact Hs|split; [exact Hv|]]].
    + rewrite Hr. unfold a3, a2. cbn [write_playlist on_player revoked].
      apply revoke_if_blob_revoked.
    + destruct (updateFilteredPlaylist_rest toLowerCase a3) as (Hp & _).
      cbn [showToast savePlaylist on_player audioPlayer AudioPlayer.showToast AudioPlayer.toasts].
      rewrite Hp. f_equal.
      unfold a3, a2. cbn [write_playlist on_player audioPlayer AudioPlayer.set_heap AudioPlayer.toasts].
      destruct (revoke_if_blob_rest t a) as [-> _].
      unfold AudioPlayer.removeFromPlaylist.
      destruct (index =? _); [|destruct (index <? _)]; reflexivity.
  - unfold a', removeTrack. by rewrite E.
Qed.

(** X17.  [removeTrack] at an index holding no track returns the
    state it was given.  At a track, it revokes that track's locator
    if it is a blob URL, and no other; it shows one notification; and
    it leaves the stored snapshot and the filtered view current. *)
Theorem removeTrack_revokes (index : Z) (a : app) :
  let a' := removeTrack toLowerCase index a in
  match at_index (tracks a) index with
  | None => a' = a
  | Some t =>
      revoked a' = revoked a ++
        (if startsWith (url t) (str "blob:") then [url t] else []) /\
      snapshot_current a' /\
      view_current toLowerCase a' /\
      AudioPlayer.toasts (audioPlayer a')
      = AudioPlayer.toasts (audioPlayer a)
          ++ [mkToast (str "Song removed from playlist") info]
  end.
Proof. exact (removeTrack_effect index a). Qed.


Lemma revoke_all ts a :
  let a1 := fold_left (fun acc t => revoke_if_blob t acc) ts a in
  audioPlayer a1 = audioPlayer a /\ manager a1 = manager a /\
  stored a1 = stored a /\ revoked a1 = revoked a ++ blob_urls ts.
Proof.
  revert a. induction ts as [|t ts IH]; intros a; simpl.
  - by rewrite app_nil_r.
  - destruct (IH (revoke_if_blob t a)) as (H1 & H2 & H3 & H4).
    destruct (revoke_if_blob_rest t a) as [Hp Hm].
    rewrite H1, H2, H3, H4, Hp, Hm, revoke_if_blob_revoked.
    split; [done|]. split; [done|]. split.
    + unfold revoke_if_blob. by destruct (startsWith _ _).
    + unfold blob_urls. simpl. destruct (startsWith _ _); simpl.
      * by rewrite <- app_assoc.
      * by rewrite app_nil_r.
Qed.

Lemma alloc_fresh (h : heap_t) : h !! alloc h = None.
Proof. unfold alloc. apply not_elem_of_dom, is_fresh. Qed.

(** What clearing does to the manager and the player. *)
Lemma clearPlaylist_effect (r : bool) (a : app) :
  let a' := clearPlaylist r a in
  tracks a' = [] /\
  AudioPlayer.tracks (audioPlayer a') = [] /\
  filteredPlaylist (manager a') = [] /\
  searchTerm (manager a') = searchTerm (manager a) /\
  stored a' = Some [] /\
  revoked a' = revoked a ++ blob_urls (tracks a) /\
  ~ shared a' /\
  AudioPlayer.set_playlist (AudioPlayer.playlist (AudioPlayer.player (audioPlayer a)))
    (AudioPlayer.player (audioPlayer a'))
  = AudioPlayer.player (audioPlayer a) /\
  (forall l, is_Some (the_heap a !! l) -> arr (the_heap a') l = arr (the_heap a) l).
Proof.
  intros a'. unfold a', clearPlaylist.
  destruct (revoke_all (tracks a) a) as (Hp & Hm & Hst & Hr).
  set (a1 := fold_left _ (tracks a) a) in *.
  set (h := the_heap a1).
  assert (Hh : h = the_heap a) by (unfold h, the_heap; by rewrite Hp).
  set (l1 := alloc h).
  set (h1 := <[l1 := []]> h).
  set (a2 := on_player (AudioPlayer.set_heap h1) a1).
  set (a3 := on_manager (fun m => mkState l1 [] (searchTerm m)) a2).
  assert (Hh3 : the_heap a3 = h1) by done. rewrite Hh3.
  set (l2 := alloc h1).
  set (h2 := <[l2 := []]> h1).
  set (a4 := on_player (AudioPlayer.set_heap h2) a3).
  assert (Hne : l1 <> l2).
  { intros E. pose proof (alloc_fresh h1) as Hf. fold l2 in Hf. rewrite <- E in Hf.
    unfold h1 in Hf. by rewrite lookup_insert_eq in Hf. }
  set (w4 := audioPlayer a4).
  assert (Harr2 : arr (AudioPlayer.heap w4) l2 = []) by (unfold w4; simpl; apply arr_insert).
  assert (Hset : AudioPlayer.setPlaylist r l2 w4 = AudioPlayer.upd (AudioPlayer.set_playlist l2) w4).
  { unfold AudioPlayer.setPlaylist.
    change (AudioPlayer.heap (AudioPlayer.upd (AudioPlayer.set_playlist l2) w4))
      with (AudioPlayer.heap w4). by rewrite Harr2. }
  set (a5 := on_player (AudioPlayer.setPlaylist r l2) a4).
  assert (Hp5 : audioPlayer a5 = AudioPlayer.upd (AudioPlayer.set_playlist l2) w4) by exact Hset.
  assert (Hheap : the_heap a5 = h2) by (unfold the_heap; by rewrite Hp5).
  assert (Hm5 : manager a5 = mkState l1 [] (searchTerm (manager a))) by (simpl; by rewrite Hm).
  assert (Ht : tracks a5 = []).
  { unfold tracks. rewrite Hheap, Hm5. simpl. unfold h2.
    rewrite arr_insert_ne by done. apply arr_insert. }
  split; [exact Ht|].
  assert (Hpt : AudioPlayer.tracks (audioPlayer a5) = []).
  { rewrite Hp5. unfold AudioPlayer.tracks. simpl. apply arr_insert. }
  split; [exact Hpt|].
  split; [change (filteredPlaylist (manager a5) = []); by rewrite Hm5|].
  split; [change (searchTerm (manager a5) = searchTerm (manager a)); by rewrite Hm5|].
  split; [cbn [showToast savePlaylist on_player stored]; by rewrite Ht|].
  split; [exact Hr|].
  split.
  - unfold shared. cbn [showToast savePlaylist on_player audioPlayer manager
      AudioPlayer.showToast AudioPlayer.player].
    rewrite Hp5, Hm5. simpl. congruence.
  - split.
    + cbn [showToast savePlaylist on_player audioPlayer AudioPlayer.showToast AudioPlayer.player].
      rewrite Hp5. unfold w4. simpl. rewrite Hp. by destruct (AudioPlayer.player (audioPlayer a)).
    + intros l [ts Hl].
      change (arr (the_heap a5) l = arr (the_heap a) l). rewrite Hheap.
      assert (l <> l1).
      { intros ->. pose proof (alloc_fresh h) as Hf. fold l1 in Hf. rewrite Hh in Hf. congruence. }
      assert (l <> l2).
      { intros ->. pose proof (alloc_fresh h1) as Hf. fold l2 in Hf.
        unfold h1 in Hf. rewrite lookup_insert_ne in Hf by done. rewrite Hh in Hf. congruence. }
      unfold h2, h1. rewrite !arr_insert_ne by done. by rewrite Hh.
Qed.

(** X18.  After [clearPlaylist] the manager's and the player's
    playlists are empty arrays of their own (not shared), the filtered
    view is empty, an empty snapshot is stored, and every blob URL of
    the old playlist has been revoked, in order.  The player's other
    fields (source, playing flag, index) are untouched, and so are the
    arrays that existed before. *)
Theorem clearPlaylist_empties (r : bool) (a : app) :
  let a' := clearPlaylist r a in
  tracks a' = [] /\
  AudioPlayer.tracks (audioPlayer a') = [] /\
  filteredPlaylist (manager a') = [] /\
  searchTerm (manager a') = searchTerm (manager a) /\
  stored a' = Some [] /\
  revoked a' = revoked a ++ blob_urls (tracks a) /\
  ~ shared a' /\
  AudioPlayer.set_playlist (AudioPlayer.playlist (AudioPlayer.player (audioPlayer a)))
    (AudioPlayer.player (audioPlayer a'))
  = AudioPlayer.player (audioPlayer a) /\
  (forall l, is_Some (the_heap a !! l) -> arr (the_heap a') l = arr (the_heap a) l).
Proof. exact (clearPlaylist_effect r a). Qed.

End RemovingAndClearing.

(** ** The playlist manager: what every action keeps *)

Section ManagerActions.

Import PlaylistManager Properties Coverage.

Variable toLowerCase : jsstring -> jsstring.

Lemma shared_lists_agree a : shared a -> lists_agree a.
Proof. unfold shared, lists_agree, AudioPlayer.tracks, tracks, the_heap. by intros ->. Qed.

Lemma toast_outcome msg type a : outcome toLowerCase a (showToast msg type a).
Proof. split; [|split]; done. Qed.

Lemma add_outcome now mk r files a :
  outcome toLowerCase a (addFilesToPlaylist toLowerCase now mk r files a).
Proof.
  destruct (addFilesToPlaylist_tracks toLowerCase now mk r files a)
    as (Ht & Hp & Hm & _ & Hs).
  split; [|split]; intros _.
  - unfold view_current. rewrite Hm, Ht.
    set (a1 := write_playlist _ a).
    pose proof (updateFilteredPlaylist_view toLowerCase a1) as Hv.
    unfold view_current in Hv. rewrite Hv.
    rewrite updateFilteredPlaylist_tracks.
    f_equal. unfold a1, tracks, write_playlist, the_heap. simpl. by rewrite arr_insert.
  - exact Hp.
  - exact Hs.
Qed.

Lemma search_outcome query a : outcome toLowerCase a (handleSearch toLowerCase query a).
Proof.
  assert (Ht : tracks (handleSearch toLowerCase query a) = tracks a).
  { unfold handleSearch. by rewrite updateFilteredPlaylist_tracks. }
  destruct (updateFilteredPlaylist_rest toLowerCase
    (on_manager (fun m => mkState (playlist m) (filteredPlaylist m) (toLowerCase query)) a))
    as (Hp & _ & _ & _ & Hs).
  split; [|split].
  - intros _. apply updateFilteredPlaylist_view.
  - unfold lists_agree. rewrite Ht. unfold handleSearch. by rewrite Hp.
  - unfold snapshot_current. rewrite Ht. unfold handleSearch. by rewrite Hs.
Qed.

Lemma select_outcome r index a : outcome toLowerCase a (selectTrack r index a).
Proof.
  assert (Hh : the_heap (selectTrack r index a) = the_heap a).
  { unfold selectTrack, the_heap. simpl. by rewrite loadTrack_heap. }
  assert (Ht : tracks (selectTrack r index a) = tracks a).
  { unfold tracks. by rewrite Hh. }
  split; [|split].
  - unfold view_current. by rewrite Ht.
  - unfold lists_agree. rewrite Ht. unfold selectTrack. simpl.
    by rewrite loadTrack_tracks.
  - unfold snapshot_current. by rewrite Ht.
Qed.

Lemma removeTrack_player_unshared index a t :
  ~ shared a -> at_index (tracks a) index = Some t ->
  AudioPlayer.tracks (audioPlayer (removeTrack toLowerCase index a))
  = splice1 index (AudioPlayer.tracks (audioPlayer a)).
Proof.
  intros Hsh Hat. rewrite (removeTrack_unfold toLowerCase index a t Hat). cbv zeta.
  set (a2 := on_player _ _).
  set (a3 := write_playlist _ a2).
  destruct (finish_current toLowerCase (str "Song removed from playlist") info a3)
    as (_ & _ & _ & -> & _).
  destruct (revoke_if_blob_rest t a) as [Hp Hm].
  assert (Hpl : AudioPlayer.playlist (AudioPlayer.player (audioPlayer a2))
                = AudioPlayer.playlist (AudioPlayer.player (audioPlayer a))).
  { unfold a2, on_player. cbn [audioPlayer]. by rewrite Hp, removeFromPlaylist_playlist. }
  assert (Ht2 : AudioPlayer.tracks (audioPlayer a2)
                = splice1 index (AudioPlayer.tracks (audioPlayer a))).
  { unfold a2, on_player. cbn [audioPlayer]. by rewrite Hp, removeFromPlaylist_tracks. }
  rewrite <- Ht2. unfold AudioPlayer.tracks, a3, write_playlist.
  cbn [on_player audioPlayer AudioPlayer.set_heap AudioPlayer.heap AudioPlayer.player].
  apply arr_insert_ne. rewrite Hpl.
  change (manager a2) with (manager (revoke_if_blob t a)). rewrite Hm.
  intros E. by apply Hsh.
Qed.

Lemma remove_outcome index a : outcome toLowerCase a (removeTrack toLowerCase index a).
Proof.
  pose proof (removeTrack_effect toLowerCase index a) as H. cbv zeta in H.
  destruct (at_index (tracks a) index) as [t|] eqn:E.
  - destruct H as (_ & Hs & Hv & _).
    split; [done|]. split; [|done].
    intros Hl. destruct (decide (shared a)) as [Hsh | Hsh].
    + apply shared_lists_agree. by destruct (removeTrack_tracks toLowerCase index a t Hsh E).
    + unfold lists_agree.
      rewrite removeTrack_player_unshared with (t := t) by done.
      rewrite removeTrack_unshared with (t := t) by done.
      by rewrite Hl.
  - rewrite H. split; [|split]; done.
Qed.

Lemma clear_outcome r a : outcome toLowerCase a (clearPlaylist r a).
Proof.
  destruct (clearPlaylist_effect r a) as (Ht & Hp & Hf & Hs & Hst & _).
  split; [|split]; intros _.
  - unfold view_current. rewrite Hf, Ht. unfold filtered_by.
    by destruct (searchTerm _).
  - unfold lists_agree. by rewrite Ht, Hp.
  - unfold snapshot_current. by rewrite Hst, Ht.
Qed.

Lemma perform_outcome r act a : outcome toLowerCase a (perform toLowerCase r act a).
Proof.
  destruct act; simpl.
  - unfold handleFileSelection. destruct (audio_files files);
      [apply toast_outcome | apply add_outcome].
  - unfold handleDrop. destruct (audio_files files);
      [apply toast_outcome | apply add_outcome].
  - apply search_outcome.
  - apply select_outcome.
  - apply remove_outcome.
  - apply clear_outcome.
Qed.

(** X19.  Under every user action of the playlist manager (files
    selected or dropped, search typed, track clicked, track removed,
    playlist cleared) the filtered view remains what the current
    search term selects from the current playlist. *)
Theorem view_stays_current (r : bool) (act : action) (a : app) :
  view_current toLowerCase a -> view_current toLowerCase (perform toLowerCase r act a).
Proof. apply perform_outcome. Qed.

(** X20.  Under every user action of the playlist manager, the
    player lists the same tracks as the manager if it did before. *)
Theorem lists_stay_in_agreement (r : bool) (act : action) (a : app) :
  lists_agree a -> lists_agree (perform toLowerCase r act a).
Proof. apply perform_outcome. Qed.

Lemma snapshot_stays_current (r : bool) (act : action) (a : app) :
  snapshot_current a -> snapshot_current (perform toLowerCase r act a).
Proof. apply perform_outcome. Qed.

Lemma playlist_changes_are_stored (r : bool) (a : app) :
  (forall now mk files,
     snapshot_current (addFilesToPlaylist toLowerCase now mk r files a)) /\
  (forall index, is_Some (at_index (tracks a) index) ->
     snapshot_current (removeTrack toLowerCase index a)) /\
  snapshot_current (clearPlaylist r a).
Proof.
  split; [|split].
  - intros now mk files.
    by destruct (addFilesToPlaylist_tracks toLowerCase now mk r files a) as (_ & _ & _ & _ & ?).
  - intros index [t Ht].
    pose proof (removeTrack_effect toLowerCase index a) as H. cbv zeta in H.
    rewrite Ht in H. apply H.
  - destruct (clearPlaylist_effect r a) as (Ht & _ & _ & _ & Hst & _).
    unfold snapshot_current. by rewrite Hst, Ht.
Qed.

(** X21.  When the player and the manager list the same tracks,
    [selectTrack] at an index holding a track makes it the current
    track of both, loads its locator and shows its name and artist;
    the playing flag and the playlist are as before. *)
Theorem clicked_track_becomes_current (r : bool) (index : Z) (a : app) (t : Track) :
  lists_agree a ->
  at_index (tracks a) index = Some t ->
  let a' := selectTrack r index a in
  getCurrentTrack a' = Some t /\
  AudioPlayer.getCurrentTrack (audioPlayer a') = Some t /\
  AudioPlayer.audio_src (AudioPlayer.player (audioPlayer a')) = url t /\
  AudioPlayer.trackTitle (AudioPlayer.player (audioPlayer a'))
    = or_else (name t) (str "Unknown Track") /\
  AudioPlayer.trackArtist (AudioPlayer.player (audioPlayer a'))
    = or_else (artist t) (str "Unknown Artist") /\
  AudioPlayer.isPlaying (AudioPlayer.player (audioPlayer a'))
    = AudioPlayer.isPlaying (AudioPlayer.player (audioPlayer a)) /\
  tracks a' = tracks a.
Proof.
  intros Hl Hat a'.
  assert (Hat' : at_index (AudioPlayer.tracks (audioPlayer a)) index = Some t)
    by (by rewrite Hl).
  destruct (loadTrack_shows r index (audioPlayer a) t Hat') as (Hc & Hs & Hti & Har & Hp).
  assert (Ht : tracks a' = tracks a).
  { unfold a', tracks, the_heap, selectTrack. simpl. by rewrite loadTrack_heap. }
  split; [|done].
  unfold getCurrentTrack. rewrite Ht, <- Hl.
  unfold AudioPlayer.getCurrentTrack in Hc.
  rewrite loadTrack_tracks in Hc. exact Hc.
Qed.

End ManagerActions.

Lemma view_stays_current_witness :
  Coverage.view_current Demo.ascii_lower
    (Coverage.perform Demo.ascii_lower true (Coverage.remove_clicked 0)
       (Coverage.perform Demo.ascii_lower true (Coverage.search_typed (str "GOOD"))
          Demo.three_files)).
Proof.
  apply view_stays_current. apply view_stays_current.
  vm_compute. reflexivity.
Defined.

Lemma lists_stay_in_agreement_witness :
  Coverage.lists_agree
    (Coverage.perform Demo.ascii_lower true (Coverage.remove_clicked 0)
       Demo.three_files) /\
  Coverage.lists_agree
    (Coverage.perform Demo.ascii_lower true Coverage.playlist_cleared
       Demo.three_files).
Proof.
  assert (H : Coverage.lists_agree Demo.three_files) by (vm_compute; reflexivity).
  split; by apply lists_stay_in_agreement.
Defined.

Lemma clicked_track_becomes_current_witness :
  PlaylistManager.getCurrentTrack
    (PlaylistManager.selectTrack true 1 Demo.three_files)
  = Some (Coverage.track_of Demo.clock Demo.blob_of 1 Demo.fileB).
Proof.
  assert (Hl : Coverage.lists_agree Demo.three_files) by (vm_compute; reflexivity).
  assert (Hat : at_index (PlaylistManager.tracks Demo.three_files) 1
                = Some (Coverage.track_of Demo.clock Demo.blob_of 1 Demo.fileB))
    by (vm_compute; reflexivity).
  destruct (clicked_track_becomes_current true 1 Demo.three_files _ Hl Hat)
    as (H & _).
  exact H.
Defined.

(** ** The style customizer: storage *)

Section StoredPreferences.

Import StyleCustomizer Coverage.

Lemma parse_stringify_safe (o : object) :
  (forall k v, o !! k = Some v -> json_safe v) ->
  JSON_parse (JSON_stringify o) = o.
Proof.
  intros Hsafe. apply map_eq. intros k.
  unfold JSON_parse, JSON_stringify. rewrite lookup_fmap, lookup_omap.
  destruct (o !! k) as [v|] eqn:E; [|done]. simpl.
  specialize (Hsafe k v E).
  destruct v as [| |[q| | |]|s]; simpl in *; done.
Qed.

(** X22.  If the current preferences are any object of strings,
    [null]s and finite numbers when [saveToLocalStorage] runs, loading
    from that storage with nobody signed in gives every property of
    the object back, and the default for each property it lacks. *)
Theorem saved_object_restored (o : object) (w w' : world) :
  currentPreferences w = o ->
  (forall k v, o !! k = Some v -> json_safe v) ->
  storedPreferences w' = storedPreferences (saveToLocalStorage w) ->
  let loaded := currentPreferences (loadSavedPreferences NoUser w') in
  loaded = o ∪ getDefaultPreferences /\
  (forall k v, o !! k = Some v -> loaded !! k = Some v) /\
  (forall k, o !! k = None -> loaded !! k = getDefaultPreferences !! k).
Proof.
  intros Ho Hsafe Hs loaded.
  assert (Hl : loaded = o ∪ getDefaultPreferences).
  { unfold loaded, loadSavedPreferences. rewrite Hs. simpl.
    rewrite Ho, parse_stringify_safe by done. done. }
  split; [done|]. rewrite Hl. split.
  - intros k v Hk. by apply lookup_union_Some_l.
  - intros k Hk. by rewrite lookup_union_r.
Qed.

(** X23.  Loading stored preferences takes each field the stored
    document has from the document and every other field from the
    defaults; the five default fields are always present afterwards. *)
Theorem stored_fields_override_defaults (doc : document) (w : world) :
  storedPreferences w = Some doc ->
  let loaded := currentPreferences (loadSavedPreferences NoUser w) in
  (forall k j, doc !! k = Some j -> loaded !! k = Some (value_of j)) /\
  (forall k, doc !! k = None -> loaded !! k = getDefaultPreferences !! k) /\
  (forall k, is_Some (getDefaultPreferences !! k) -> is_Some (loaded !! k)).
Proof.
  intros Hs loaded.
  assert (Hl : loaded = JSON_parse doc ∪ getDefaultPreferences).
  { unfold loaded, loadSavedPreferences. by rewrite Hs. }
  rewrite Hl. unfold JSON_parse. split; [|split].
  - intros k j Hk. apply lookup_union_Some_l. by rewrite lookup_fmap, Hk.
  - intros k Hk. rewrite lookup_union_r; [done|]. by rewrite lookup_fmap, Hk.
  - intros k [v Hv]. rewrite lookup_union.
    destruct ((value_of <$> doc) !! k); simpl; rewrite Hv; eauto.
Qed.

Lemma apply_edit_stored e w :
  storedPreferences (apply_edit e w) = storedPreferences w /\
  remotePreferences (apply_edit e w) = remotePreferences w.
Proof. by destruct e. Qed.

Lemma apply_edits_stored es w :
  storedPreferences (apply_edits es w) = storedPreferences w /\
  remotePreferences (apply_edits es w) = remotePreferences w.
Proof.
  unfold apply_edits. revert w. induction es as [|e es IH]; intros w; [done|].
  simpl. destruct (IH (apply_edit e w)) as [-> ->]. apply apply_edit_stored.
Qed.

(** X24.  Picks, slider moves and reset in the panel never write local
    storage or the remote store: after a save, whatever edits follow,
    loading again gives the preferences that were saved. *)
Theorem unsaved_edits_are_not_kept (p : Preferences) (es : list edit) (w : world) :
  currentPreferences w = to_object p ->
  let edited := apply_edits es (saveToLocalStorage w) in
  storedPreferences edited = storedPreferences (saveToLocalStorage w) /\
  remotePreferences edited = remotePreferences w /\
  currentPreferences (loadSavedPreferences NoUser edited) = to_object p /\
  currentPreferences (constructed (storedPreferences edited)) = to_object p.
Proof.
  intros Hp edited.
  destruct (apply_edits_stored es (saveToLocalStorage w)) as [Hs Hr].
  fold edited in Hs, Hr.
  split; [done|]. split; [done|].
  assert (Hload : forall u, storedPreferences u = storedPreferences (saveToLocalStorage w) ->
            currentPreferences (loadSavedPreferences NoUser u) = to_object p).
  { intros u Hu. unfold loadSavedPreferences. rewrite Hu. simpl.
    by rewrite Hp, stringify_to_object, spread_to_object. }
  split; [by apply Hload|].
  unfold constructed. apply Hload. by rewrite Hs.
Qed.

(** X25.  [savePreferences] writes the current preferences to local
    storage and closes the panel whether nobody is signed in, the
    remote store accepts the write or it refuses it; a later visit
    starts from them.  Only an accepted write changes the remote copy.
    One notification is shown. *)
Theorem saving_survives_cloud_outcome (p : Preferences) (remote : option bool) (w : world) :
  currentPreferences w = to_object p ->
  let saved := savePreferences remote w in
  storedPreferences saved = Some (JSON_stringify (to_object p)) /\
  modalActive saved = false /\
  currentPreferences saved = to_object p /\
  currentPreferences (constructed (storedPreferences saved)) = to_object p /\
  remotePreferences saved
    = (if remote is Some true then Some (to_object p) else remotePreferences w) /\
  length (toasts saved) = S (length (toasts w)).
Proof.
  intros Hp saved.
  assert (Hs : storedPreferences saved = Some (JSON_stringify (to_object p))).
  { unfold saved, savePreferences. destruct remote as [[|]|]; simpl; by rewrite Hp. }
  split; [done|].
  split; [unfold saved, savePreferences; by destruct remote as [[|]|]|].
  split; [unfold saved, savePreferences; by destruct remote as [[|]|]|].
  split.
  - unfold constructed, loadSavedPreferences. rewrite Hs. simpl.
    by rewrite stringify_to_object, spread_to_object.
  - split.
    + unfold saved, savePreferences. destruct remote as [[|]|]; simpl; by rewrite ?Hp.
    + unfold saved, savePreferences.
      destruct remote as [[|]|]; simpl; rewrite length_app; simpl; lia.
Qed.

End StoredPreferences.

Lemma saved_object_restored_witness :
  StyleCustomizer.currentPreferences
    (StyleCustomizer.loadSavedPreferences StyleCustomizer.NoUser Scenarios.dark_visit)
    !! "theme" = Some (StyleCustomizer.VStr (str "dark")) /\
  StyleCustomizer.currentPreferences
    (StyleCustomizer.loadSavedPreferences StyleCustomizer.NoUser Scenarios.dark_visit)
    !! "fontSize" = Some (StyleCustomizer.VNum (Fin 16)).
Proof.
  destruct (saved_object_restored Scenarios.dark_only Scenarios.dark_world
              Scenarios.dark_visit) as (_ & Hin & Hout).
  - reflexivity.
  - intros k v H. unfold Scenarios.dark_only in H.
    apply lookup_singleton_Some in H as [_ <-]. exact I.
  - reflexivity.
  - split.
    + apply Hin. reflexivity.
    + rewrite Hout; reflexivity.
Defined.

Lemma stored_fields_override_defaults_witness :
  StyleCustomizer.currentPreferences
    (StyleCustomizer.loadSavedPreferences StyleCustomizer.NoUser Scenarios.dark_visit)
    !! "theme" = Some (StyleCustomizer.VStr (str "dark")) /\
  StyleCustomizer.currentPreferences
    (StyleCustomizer.loadSavedPreferences StyleCustomizer.NoUser Scenarios.dark_visit)
    !! "playerSize" = Some (StyleCustomizer.VStr (str "normal")).
Proof.
  destruct (stored_fields_override_defaults
              (StyleCustomizer.JSON_stringify Scenarios.dark_only)
              Scenarios.dark_visit eq_refl) as (Hin & Hout & _).
  split.
  - apply (Hin "theme" (StyleCustomizer.JStr (str "dark"))). reflexivity.
  - rewrite Hout; reflexivity.
Defined.

Lemma unsaved_edits_are_not_kept_witness :
  StyleCustomizer.currentPreferences
    (StyleCustomizer.constructed
       (StyleCustomizer.storedPreferences
          (Coverage.apply_edits Scenarios.later_edits
             (StyleCustomizer.saveToLocalStorage Demo.customized))))
  = StyleCustomizer.to_object Demo.chosen.
Proof.
  assert (H : StyleCustomizer.currentPreferences Demo.customized
              = StyleCustomizer.to_object Demo.chosen) by (vm_compute; reflexivity).
  by destruct (unsaved_edits_are_not_kept Demo.chosen Scenarios.later_edits
                 Demo.customized H) as (_ & _ & _ & ?).
Defined.

Lemma saving_survives_cloud_outcome_witness :
  StyleCustomizer.currentPreferences
    (StyleCustomizer.constructed
       (StyleCustomizer.storedPreferences
          (StyleCustomizer.savePreferences (Some false) Demo.customized)))
  = StyleCustomizer.to_object Demo.chosen.
Proof.
  assert (H : StyleCustomizer.currentPreferences Demo.customized
              = StyleCustomizer.to_object Demo.chosen) by (vm_compute; reflexivity).
  by destruct (saving_survives_cloud_outcome Demo.chosen (Some false)
                 Demo.customized H) as (_ & _ & _ & ? & _).
Defined.

(** ** The style customizer: the signed-in user *)

Section SignedInPreferences.

Import StyleCustomizer Coverage.

Lemma getUserPreferences_succeeds (snapshot : FirebaseService.Snapshot) :
  FirebaseService.getUserPreferences snapshot = RemoteSuccess (remote_or_default snapshot).
Proof.
  unfold FirebaseService.getUserPreferences. by destruct snapshot as [[p|]| |msg].
Qed.

Lemma onUserChange_signed_in (snapshot : FirebaseService.Snapshot) (w : world) :
  let w' := StyleSync.onUserChange (Some snapshot) w in
  currentPreferences w' = remote_or_default snapshot ∪ getDefaultPreferences /\
  storedPreferences w'
    = Some (JSON_stringify (remote_or_default snapshot ∪ getDefaultPreferences)) /\
  toasts w' = toasts w.
Proof.
  intros w'. unfold w', StyleSync.onUserChange, loadSavedPreferences.
  rewrite getUserPreferences_succeeds. by destruct (storedPreferences w).
Qed.

(** X26.  For a signed-in user, [getUserPreferences] always reports
    success, and [loadSavedPreferences] ends with the preferences it
    returned, over the defaults, as the current preferences and in
    local storage, whatever local storage held; when the user document
    has preferences, these are the ones returned. *)
Theorem signed_in_load_takes_remote (snapshot : FirebaseService.Snapshot) (w : world) :
  let w' := StyleSync.onUserChange (Some snapshot) w in
  (exists preferences,
     FirebaseService.getUserPreferences snapshot = RemoteSuccess preferences /\
     currentPreferences w' = preferences ∪ getDefaultPreferences /\
     storedPreferences w' = Some (JSON_stringify (currentPreferences w')) /\
     (forall remote, snapshot = FirebaseService.Exists (Some remote) ->
        preferences = remote)) /\
  toasts w' = toasts w.
Proof.
  intros w'. destruct (onUserChange_signed_in snapshot w) as (Hc & Hs & Ht).
  fold w' in Hc, Hs, Ht. split; [|done].
  exists (remote_or_default snapshot).
  split; [apply getUserPreferences_succeeds|]. split; [done|].
  split; [by rewrite Hs, Hc|]. by intros remote ->.
Qed.

Lemma service_defaults_cover :
  FirebaseService.getDefaultPreferences ∪ getDefaultPreferences
  = FirebaseService.getDefaultPreferences.
Proof.
  apply map_eq. intros k. rewrite lookup_union.
  unfold FirebaseService.getDefaultPreferences, getDefaultPreferences.
  destruct (decide (k = "theme")) as [->|]; [by simplify_map_eq|].
  destruct (decide (k = "playerSize")) as [->|]; [by simplify_map_eq|].
  destruct (decide (k = "background")) as [->|]; [by simplify_map_eq|].
  destruct (decide (k = "fontSize")) as [->|]; [by simplify_map_eq|].
  destruct (decide (k = "animationSpeed")) as [->|]; [by simplify_map_eq|].
  destruct (decide (k = "volume")) as [->|]; [by simplify_map_eq|].
  by simplify_map_eq.
Qed.

Lemma service_defaults_extend k v :
  getDefaultPreferences !! k = Some v ->
  FirebaseService.getDefaultPreferences !! k = Some v.
Proof.
  unfold FirebaseService.getDefaultPreferences, getDefaultPreferences.
  destruct (decide (k = "theme")) as [->|]; [by simplify_map_eq|].
  destruct (decide (k = "playerSize")) as [->|]; [by simplify_map_eq|].
  destruct (decide (k = "background")) as [->|]; [by simplify_map_eq|].
  destruct (decide (k = "fontSize")) as [->|]; [by simplify_map_eq|].
  destruct (decide (k = "animationSpeed")) as [->|]; [by simplify_map_eq|].
  intros H. by simplify_map_eq.
Qed.

(** X27.  When the user document cannot be read, does not exist or
    has no preferences, signing in replaces the current and the
    locally stored preferences by the service's defaults: the
    customizer's five defaults and [volume] 0.7. *)
Theorem unreadable_document_resets (snapshot : FirebaseService.Snapshot) (w : world) :
  without_preferences snapshot ->
  let w' := StyleSync.onUserChange (Some snapshot) w in
  currentPreferences w' = FirebaseService.getDefaultPreferences /\
  storedPreferences w' = Some (JSON_stringify FirebaseService.getDefaultPreferences) /\
  (forall k v, getDefaultPreferences !! k = Some v -> currentPreferences w' !! k = Some v) /\
  currentPreferences w' !! "volume" = Some (VNum (Fin (7 # 10))).
Proof.
  intros Hs w'. destruct (onUserChange_signed_in snapshot w) as (Hc & Hst & _).
  fold w' in Hc, Hst.
  assert (Hd : remote_or_default snapshot = FirebaseService.getDefaultPreferences)
    by (by destruct snapshot as [[p|]| |msg]).
  rewrite Hd, service_defaults_cover in Hc, Hst.
  split; [done|]. split; [done|]. rewrite Hc. split; [|done].
  apply service_defaults_extend.
Qed.

Lemma pushed_update_is_not_stored (snapshot : FirebaseService.Snapshot) (w : world) :
  let w' := StyleSync.snapshotArrived snapshot w in
  storedPreferences w' = storedPreferences w /\
  toasts w' = toasts w /\
  match snapshot with
  | FirebaseService.Exists _ =>
      currentPreferences w' = remote_or_default snapshot ∪ getDefaultPreferences
  | _ => w' = w
  end.
Proof. intros w'. by destruct snapshot as [[p|]| |msg]. Qed.

End SignedInPreferences.

Lemma unreadable_document_resets_witness :
  StyleCustomizer.currentPreferences Demo.customized !! "theme"
  = Some (StyleCustomizer.VStr (str "dark")) /\
  StyleCustomizer.currentPreferences
    (StyleSync.onUserChange (Some Scenarios.offline)
       (StyleCustomizer.saveToLocalStorage Demo.customized))
    !! "theme" = Some (StyleCustomizer.VStr (str "default")).
Proof.
  split; [vm_compute; reflexivity|].
  destruct (unreadable_document_resets Scenarios.offline
              (StyleCustomizer.saveToLocalStorage Demo.customized) I)
    as (_ & _ & H & _).
  apply H. reflexivity.
Defined.

(** ** The auth manager: requests and notifications *)

Section AuthHandlers.

Import AuthManager Coverage.

(** X28.  With a well-formed trimmed email and a password that is not
    empty, [handleLogin] sends exactly one sign-in request, with the
    trimmed email and the password as typed, and ends with the loading
    state off.  On success it closes the dialog and clears the four
    inputs; on failure it shows the provider's message, or "Sign in
    failed" when that is empty, and keeps dialog and inputs. *)
Theorem handleLogin_reaches_provider (result : ProviderResult) (w : world) :
  validateEmail (trim (loginEmail w)) = true ->
  loginPassword w <> [] ->
  let w' := handleLogin result w in
  calls w' = calls w ++ [signIn (trim (loginEmail w)) (loginPassword w)] /\
  loading w' = false /\
  match result with
  | Succeeded =>
      toasts w' = toasts w ++ [mkToast (str "Successfully signed in!") success] /\
      isAuthModalOpen w' = false /\
      loginEmail w' = [] /\ loginPassword w' = [] /\
      signupEmail w' = [] /\ signupPassword w' = []
  | Failed msg =>
      toasts w' = toasts w ++ [mkToast (or_else msg (str "Sign in failed")) error] /\
      isAuthModalOpen w' = isAuthModalOpen w /\
      loginEmail w' = loginEmail w /\ loginPassword w' = loginPassword w
  | Threw =>
      toasts w' = toasts w ++ [mkToast (str "An unexpected error occurred") error] /\
      isAuthModalOpen w' = isAuthModalOpen w /\
      loginEmail w' = loginEmail w /\ loginPassword w' = loginPassword w
  end.
Proof.
  intros He Hp w'. unfold w', handleLogin. rewrite He. simpl.
  destruct (loginPassword w) eqn:E; [done|].
  destruct result; simpl; rewrite ?E; done.
Qed.

(** X29.  With a well-formed trimmed email and a password of at least
    6 units, [handleSignup] sends exactly one sign-up request, with the
    trimmed email and the password as typed, and ends with the loading
    state off.  On success it closes the dialog and clears the four
    inputs; on failure it shows the provider's message, or "Account
    creation failed" when that is empty, and keeps dialog and inputs. *)
Theorem handleSignup_reaches_provider (result : ProviderResult) (w : world) :
  validateEmail (trim (signupEmail w)) = true ->
  (6 <= length (signupPassword w))%nat ->
  let w' := handleSignup result w in
  calls w' = calls w ++ [signUp (trim (signupEmail w)) (signupPassword w)] /\
  loading w' = false /\
  match result with
  | Succeeded =>
      toasts w' = toasts w ++ [mkToast (str "Account created successfully!") success] /\
      isAuthModalOpen w' = false /\
      loginEmail w' = [] /\ loginPassword w' = [] /\
      signupEmail w' = [] /\ signupPassword w' = []
  | Failed msg =>
      toasts w' = toasts w
        ++ [mkToast (or_else msg (str "Account creation failed")) error] /\
      isAuthModalOpen w' = isAuthModalOpen w /\
      signupEmail w' = signupEmail w /\ signupPassword w' = signupPassword w
  | Threw =>
      toasts w' = toasts w ++ [mkToast (str "An unexpected error occurred") error] /\
      isAuthModalOpen w' = isAuthModalOpen w /\
      signupEmail w' = signupEmail w /\ signupPassword w' = signupPassword w
  end.
Proof.
  intros He Hp w'. unfold w', handleSignup. rewrite He. simpl.
  apply Nat.ltb_ge in Hp. rewrite Hp.
  destruct result; simpl; done.
Qed.

(** X30.  Each run of a handler (sign-in, sign-up, sign-out) shows
    exactly one notification, makes at most one request to the
    provider, never writes [currentUser], and leaves the loading state
    off if it was off or a request was made.  The inputs and the dialog
    change only on success.  Sign-out always sends its request. *)
Theorem handlers_are_bounded (h : handler) (result : ProviderResult) (w : world) :
  let w' := handle h result w in
  currentUser w' = currentUser w /\
  (exists toast, toasts w' = toasts w ++ [toast]) /\
  (calls w' = calls w \/ exists c, calls w' = calls w ++ [c]) /\
  (calls w' <> calls w -> loading w' = false) /\
  (loading w = false -> loading w' = false) /\
  (result <> Succeeded ->
     loginEmail w' = loginEmail w /\ loginPassword w' = loginPassword w /\
     signupEmail w' = signupEmail w /\ signupPassword w' = signupPassword w /\
     isAuthModalOpen w' = isAuthModalOpen w) /\
  (h = logout -> calls w' = calls w ++ [signOut]).
Proof.
  intros w'. unfold w', handle.
  destruct h.
  - unfold handleLogin. destruct (validateEmail _); simpl.
    + destruct (loginPassword w) eqn:E; [|destruct result]; simpl; rewrite ?E;
        split_and!; try done; eauto; try (intros; congruence).
    + split_and!; try done; eauto; try (intros; congruence).
  - unfold handleSignup. destruct (validateEmail _); simpl.
    + destruct (_ <? _)%nat; [|destruct result]; simpl;
        split_and!; try done; eauto; try (intros; congruence).
    + split_and!; try done; eauto; try (intros; congruence).
  - unfold handleLogout. destruct result; simpl;
      split_and!; try done; eauto; try (intros; congruence).
Qed.

End AuthHandlers.

Lemma handleLogin_reaches_provider_witness :
  AuthManager.calls
    (AuthManager.handleLogin AuthManager.Succeeded
       (Demo.login_form (str " a@b.co ") (str "abc")))
  = [AuthManager.signIn (str "a@b.co") (str "abc")].
Proof.
  destruct (handleLogin_reaches_provider AuthManager.Succeeded
              (Demo.login_form (str " a@b.co ") (str "abc"))) as (H & _).
  - vm_compute. reflexivity.
  - vm_compute. congruence.
  - rewrite H. vm_compute. reflexivity.
Defined.

Lemma handleSignup_reaches_provider_witness :
  AuthManager.calls
    (AuthManager.handleSignup (AuthManager.Failed [])
       (Demo.signup_form (str "a@b.co") (str "secret1")))
  = [AuthManager.signUp (str "a@b.co") (str "secret1")] /\
  AuthManager.toasts
    (AuthManager.handleSignup (AuthManager.Failed [])
       (Demo.signup_form (str "a@b.co") (str "secret1")))
  = [mkToast (str "Account creation failed") error].
Proof.
  destruct (handleSignup_reaches_provider (AuthManager.Failed [])
              (Demo.signup_form (str "a@b.co") (str "secret1")))
    as (H & _ & Ht & _).
  - vm_compute. reflexivity.
  - vm_compute. lia.
  - rewrite H, Ht. split; vm_compute; reflexivity.
Defined.
